(** * vs/css build plugin: path algebra and url(...) rewriting

    A shallow embedding of [src/vs/css.build.ts] (namespace
    [CSSBuildLoaderPlugin]): the static helpers of class [Utilities] and the
    url rewriting / inlining methods of class [CSSPlugin], with the properties
    of the specification stated and settled against them.

    JavaScript strings are sequences of code units; they are modelled as
    [list ascii] (code units 0..255).  Indices are [Z], as the source relies
    on the [-1] results of [indexOf] / [lastIndexOf]. *)

From Stdlib Require Import List Ascii String ZArith Lia Bool Arith.
From Equations Require Import Equations.
Import ListNotations.

Local Open Scope Z_scope.

(** ** JavaScript string primitives used by the source *)

Module JS.

Abbreviation str := (list ascii).

(** String literals of the source. *)
Definition lit (s : string) : str := list_ascii_of_string s.

Definition len (s : str) : Z := Z.of_nat (List.length s).

(** Index clamping of [substring]: negative becomes 0, too large becomes
    the length. *)
Definition clamp (s : str) (i : Z) : nat :=
  Z.to_nat (Z.min (Z.max i 0) (len s)).

(** [s.substring(a, b)]: both ends clamped, swapped when [a > b]. *)
Definition substring (s : str) (a b : Z) : str :=
  let lo := Nat.min (clamp s a) (clamp s b) in
  let hi := Nat.max (clamp s a) (clamp s b) in
  firstn (hi - lo) (skipn lo s).

(** [s.substring(a)]. *)
Definition substring_from (s : str) (a : Z) : str :=
  skipn (clamp s a) s.

(** Start index of [substr]: a negative start counts from the end. *)
Definition substr_start (s : str) (start : Z) : nat :=
  if start <? 0 then Z.to_nat (Z.max (len s + start) 0) else clamp s start.

(** [s.substr(start, length)]. *)
Definition substr (s : str) (start length : Z) : str :=
  firstn (Z.to_nat length) (skipn (substr_start s start) s).

(** [s.substr(start)]. *)
Definition substr_from (s : str) (start : Z) : str :=
  skipn (substr_start s start) s.

(** [s.charAt(i)]: the empty string out of range. *)
Definition charAt (s : str) (i : Z) : str :=
  if (0 <=? i) && (i <? len s) then firstn 1 (skipn (Z.to_nat i) s) else [].

(** [s.charCodeAt(i)]: [None] stands for NaN. *)
Definition charCodeAt (s : str) (i : Z) : option ascii :=
  if 0 <=? i then nth_error s (Z.to_nat i) else None.

Definition str_eqb (a b : str) : bool :=
  if list_eq_dec ascii_dec a b then true else false.

Fixpoint find_char (c : ascii) (s : str) : option nat :=
  match s with
  | [] => None
  | x :: t => if Ascii.eqb x c then Some O else option_map S (find_char c t)
  end.

Fixpoint find_last_char (c : ascii) (s : str) : option nat :=
  match s with
  | [] => None
  | x :: t =>
      match find_last_char c t with
      | Some i => Some (S i)
      | None => if Ascii.eqb x c then Some O else None
      end
  end.

(** [s.indexOf(c, from)] for a one-character needle. *)
Definition indexOf (s : str) (c : ascii) (from : Z) : Z :=
  let k := clamp s from in
  match find_char c (skipn k s) with
  | Some i => Z.of_nat (k + i)
  | None => -1
  end.

(** [s.lastIndexOf(c)] for a one-character needle. *)
Definition lastIndexOf (s : str) (c : ascii) : Z :=
  match find_last_char c s with
  | Some i => Z.of_nat i
  | None => -1
  end.

(** [s.split(c)] for a one-character separator. *)
Fixpoint split_acc (c : ascii) (cur : str) (s : str) : list str :=
  match s with
  | [] => [cur]
  | x :: t => if Ascii.eqb x c then cur :: split_acc c [] t
              else split_acc c (cur ++ [x]) t
  end.

Definition split (s : str) (c : ascii) : list str := split_acc c [] s.

(** [pieces.join('')]. *)
Definition join (pieces : list str) : str := List.concat pieces.

(** [pieces.join(sep)]. *)
Fixpoint join_with (sep : str) (pieces : list str) : str :=
  match pieces with
  | [] => []
  | [p] => p
  | p :: rest => p ++ sep ++ join_with sep rest
  end.

(** [s.replace(/c/g, r)] for a one-character pattern. *)
Definition replace_char (c : ascii) (r : str) (s : str) : str :=
  flat_map (fun x => if Ascii.eqb x c then r else [x]) s.

(** The class [\s] of JavaScript regular expressions, on code units
    0..255: tab, line feed, vertical tab, form feed, carriage return,
    space, no-break space. *)
Definition is_space (c : ascii) : bool :=
  match nat_of_ascii c with
  | 9%nat | 10%nat | 11%nat | 12%nat | 13%nat | 32%nat | 160%nat => true
  | _ => false
  end.

(** [s.replace(/\s+/g, ' ')]: [in_run] tells that the previous character
    belonged to the run being replaced. *)
Fixpoint collapse_ws (in_run : bool) (s : str) : str :=
  match s with
  | [] => []
  | x :: t =>
      if is_space x
      then if in_run then collapse_ws true t else " "%char :: collapse_ws true t
      else x :: collapse_ws false t
  end.

Definition replace_ws_runs (s : str) : str := collapse_ws false s.

(** [/suffix$/.test(s)] for a literal suffix. *)
Definition ends_with (s suffix : str) : bool :=
  str_eqb (skipn (List.length s - List.length suffix) s) suffix
  && (List.length suffix <=? List.length s)%nat.

End JS.

Import JS.

Notation "$ s" := (lit s) (at level 9, s at level 0, format "$ s").

(** The characters the source names. *)
Definition SLASH : ascii := "/"%char.
Definition DQUOTE : ascii := "034"%char.
Definition SQUOTE : ascii := "'"%char.
Definition SPACE : ascii := " "%char.
Definition TAB : ascii := "009"%char.
Definition BACKSLASH : ascii := "\"%char.
Definition RPAREN : ascii := ")"%char.

(** ** class Utilities *)

Module Utilities.

(** [startsWith(haystack, needle)] *)
Definition startsWith (haystack needle : str) : bool :=
  (len needle <=? len haystack) && str_eqb (substr haystack 0 (len needle)) needle.

(** [pathOf(filename)] *)
Definition pathOf (filename : str) : str :=
  let lastSlash := lastIndexOf filename SLASH in
  if negb (lastSlash =? -1) then substr filename 0 (lastSlash + 1) else [].

(** The inner function [findSlashIndexAfterPrefix] of [joinPaths]. *)
Definition findSlashIndexAfterPrefix (haystack prefix : str) : Z :=
  if startsWith haystack prefix
  then Z.max (len prefix) (indexOf haystack SLASH (len prefix))
  else 0.

(** [x || y] on numbers: [0] is falsy. *)
Definition or_num (x y : Z) : Z := if x =? 0 then y else x.

(** [x && ...] on a string: the empty string is falsy. *)
Definition truthy (s : str) : bool := negb (str_eqb s []).

(** [pieces.length > 0 ? pieces[pieces.length - 1] : null] *)
Definition prevPieceOf (pieces : list str) : option str :=
  if (0 <? List.length pieces)%nat
  then nth_error pieces (List.length pieces - 1)
  else None.

(** The inner function [pushPiece] of [joinPaths]; the array [pieces] grows
    at its end ([push]) and shrinks there ([pop]). *)
Definition pushPiece (pieces : list str) (piece : str) : list str :=
  if str_eqb piece $"./" then pieces
  else if str_eqb piece $"../" then
    match prevPieceOf pieces with
    | Some prevPiece =>
        if truthy prevPiece && str_eqb prevPiece $"/" then pieces
        else if truthy prevPiece && negb (str_eqb prevPiece $"../")
             then removelast pieces
             else pieces ++ [piece]
    | None => pieces ++ [piece]
    end
  else pieces ++ [piece].

(** The inner function [push] of [joinPaths]: the [while] loop cuts the
    next piece after the first slash and hands it to [pushPiece]. *)
Definition nextPiece (path : str) : str :=
  let slashIndex := indexOf path SLASH 0 in
  if 0 <=? slashIndex then substring path 0 (slashIndex + 1) else path.

Definition restPath (path : str) : str :=
  let slashIndex := indexOf path SLASH 0 in
  if 0 <=? slashIndex then substring_from path (slashIndex + 1) else [].

Lemma find_char_bound c s i : find_char c s = Some i -> (i < List.length s)%nat.
Proof.
  revert i; induction s as [|x t IH]; intros i; simpl; [discriminate|].
  destruct (Ascii.eqb x c).
  - intros [= <-]; lia.
  - destruct (find_char c t) as [j|]; simpl; [|discriminate].
    intros [= <-]. specialize (IH j eq_refl). lia.
Qed.

Lemma restPath_shorter path :
  (0 < List.length path)%nat -> (List.length (restPath path) < List.length path)%nat.
Proof.
  intros Hpos. unfold restPath, indexOf, substring_from, clamp, len.
  simpl skipn. replace (Z.to_nat (Z.min (Z.max 0 0) (Z.of_nat (List.length path)))) with O by lia.
  simpl. destruct (find_char SLASH path) as [i|] eqn:E.
  - apply find_char_bound in E.
    replace (0 <=? Z.of_nat i) with true by (symmetry; apply Z.leb_le; lia).
    rewrite length_skipn. lia.
  - simpl. lia.
Qed.

Definition inspect {A : Type} (x : A) : { y : A | x = y } := exist _ x eq_refl.

Equations? push (pieces : list str) (path : str) : list str
  by wf (List.length path) lt :=
  push pieces path with inspect (0 <? len path) := {
    | exist _ true _ => push (pushPiece pieces (nextPiece path)) (restPath path);
    | exist _ false _ => pieces }.
Proof.
  apply restPath_shorter. unfold len in *. apply Z.ltb_lt in e. lia.
Qed.

(** The three assignments to [aPathStartIndex] in [joinPaths]. *)
Definition aPathStartIndexOf (a : str) : Z :=
  let aPathStartIndex := 0 in
  let aPathStartIndex := or_num aPathStartIndex (findSlashIndexAfterPrefix a $"//") in
  let aPathStartIndex := or_num aPathStartIndex (findSlashIndexAfterPrefix a $"http://") in
  let aPathStartIndex := or_num aPathStartIndex (findSlashIndexAfterPrefix a $"https://") in
  aPathStartIndex.

(** [joinPaths(a, b)] *)
Definition joinPaths (a b : str) : str :=
  let aPathStartIndex := aPathStartIndexOf a in
  let pieces := push [] (substr_from a aPathStartIndex) in
  let pieces :=
    if (0 <? len b) && str_eqb (charAt b 0) $"/" then [] else pieces in
  let pieces := push pieces b in
  substring a 0 aPathStartIndex ++ join pieces.

(** [commonPrefix(str1, str2)]: [k] iterations of the [for] loop remain
    when the counter is [i]. *)
Fixpoint commonPrefix_loop (str1 str2 : str) (len0 : Z) (k : nat) (i : Z) : str :=
  match k with
  | O => substring str1 0 len0
  | S k' =>
      if negb (match charCodeAt str1 i, charCodeAt str2 i with
               | Some x, Some y => Ascii.eqb x y
               | _, _ => false
               end)
      then substring str1 0 i
      else commonPrefix_loop str1 str2 len0 k' (i + 1)
  end.

Definition commonPrefix (str1 str2 : str) : str :=
  let len0 := Z.min (len str1) (len str2) in
  commonPrefix_loop str1 str2 len0 (Z.to_nat len0) 0.

(** [commonFolderPrefix(fromPath, toPath)] *)
Definition commonFolderPrefix (fromPath toPath : str) : str :=
  let prefix := commonPrefix fromPath toPath in
  let slashIndex := lastIndexOf prefix SLASH in
  if slashIndex =? -1 then [] else substring prefix 0 (slashIndex + 1).

(** The [for] loop of [relativePath]: [k] iterations remain. *)
Fixpoint upLoop (k : nat) (result : str) : str :=
  match k with
  | O => result
  | S k' => upLoop k' (result ++ $"../")
  end.

(** [relativePath(fromPath, toPath)] *)
Definition relativePath (fromPath toPath : str) : str :=
  if startsWith toPath $"/" || startsWith toPath $"http://"
     || startsWith toPath $"https://"
  then toPath
  else
    let prefix := commonFolderPrefix fromPath toPath in
    let fromPath := substr_from fromPath (len prefix) in
    let toPath := substr_from toPath (len prefix) in
    let upCount := Z.of_nat (List.length (split fromPath SLASH)) in
    let result := upLoop (Z.to_nat (upCount - 1)) [] in
    result ++ toPath.

End Utilities.

Import Utilities.

(** ** Facts about the string primitives *)

Section StringFacts.

Lemma str_eqb_eq a b : str_eqb a b = true <-> a = b.
Proof. unfold str_eqb. destruct (list_eq_dec ascii_dec a b); split; congruence. Qed.

Lemma str_eqb_refl a : str_eqb a a = true.
Proof. apply str_eqb_eq. reflexivity. Qed.

Lemma str_eqb_neq a b : str_eqb a b = false <-> a <> b.
Proof. unfold str_eqb. destruct (list_eq_dec ascii_dec a b); split; congruence. Qed.

Lemma clamp_nat s (n : nat) : clamp s (Z.of_nat n) = Nat.min n (List.length s).
Proof. unfold clamp, len. lia. Qed.

Lemma clamp_0 s : clamp s 0 = O.
Proof. unfold clamp, len. lia. Qed.

Lemma substring_0 s (n : nat) : substring s 0 (Z.of_nat n) = firstn n s.
Proof.
  unfold substring. rewrite clamp_0, clamp_nat. simpl.
  rewrite Nat.sub_0_r.
  destruct (Nat.le_ge_cases n (List.length s)).
  - rewrite Nat.min_l by assumption. reflexivity.
  - rewrite Nat.min_r by assumption. rewrite !firstn_all2 by lia. reflexivity.
Qed.

Lemma substring_from_nat s (n : nat) : substring_from s (Z.of_nat n) = skipn n s.
Proof.
  unfold substring_from. rewrite clamp_nat.
  destruct (Nat.le_ge_cases n (List.length s)).
  - rewrite Nat.min_l by assumption. reflexivity.
  - rewrite Nat.min_r by assumption. rewrite !skipn_all2 by lia. reflexivity.
Qed.

Lemma substr_from_nat s (n : nat) : substr_from s (Z.of_nat n) = skipn n s.
Proof.
  unfold substr_from, substr_start.
  replace (Z.of_nat n <? 0) with false by (symmetry; apply Z.ltb_ge; lia).
  apply substring_from_nat.
Qed.

Lemma substr_0 s (n : nat) : substr s 0 (Z.of_nat n) = firstn n s.
Proof.
  unfold substr, substr_start. simpl. rewrite clamp_0. simpl.
  rewrite Nat2Z.id. reflexivity.
Qed.

Lemma indexOf_0 s c :
  indexOf s c 0 = match find_char c s with Some i => Z.of_nat i | None => -1 end.
Proof. unfold indexOf. rewrite clamp_0. reflexivity. Qed.

(** [startsWith] is the prefix test. *)
Lemma startsWith_spec h n : startsWith h n = true <-> exists t, h = n ++ t.
Proof.
  unfold startsWith, len. rewrite andb_true_iff, Z.leb_le, str_eqb_eq, substr_0.
  split.
  - intros [_ H]. exists (skipn (List.length n) h).
    rewrite <- H at 1. symmetry. apply firstn_skipn.
  - intros [t ->]. rewrite length_app. split; [lia|].
    rewrite firstn_app, Nat.sub_diag, firstn_all. simpl. apply app_nil_r.
Qed.

Lemma startsWith_app n t : startsWith (n ++ t) n = true.
Proof. apply startsWith_spec. exists t. reflexivity. Qed.

End StringFacts.

(** ** The regular expression of [replaceURL]

    A backtracking matcher for regular expressions that are a sequence of
    quantified character classes, one of which may be captured; this covers
    [/url\(\s*([^\)]+)\s*\)?/].  Quantifiers are greedy: the longest count
    is tried first and shorter ones after a failure of what follows. *)

Module Regex.

Inductive quant : Type := One | Star | Plus | Opt.

Record atom : Type := mkAtom {
  cls : ascii -> bool;   (* the character class *)
  qnt : quant;           (* its quantifier *)
  captured : bool        (* inside the capture group *)
}.

(** Length of the longest prefix of [s] within the class [p]. *)
Fixpoint run_length (p : ascii -> bool) (s : str) : nat :=
  match s with
  | x :: t => if p x then S (run_length p t) else O
  | [] => O
  end.

Definition min_count (q : quant) : nat :=
  match q with One | Plus => 1%nat | Star | Opt => O end.

Definition max_count (q : quant) (run : nat) : nat :=
  match q with One | Opt => Nat.min 1 run | Star | Plus => run end.

(** Try the counts [lo + extra], [lo + extra - 1], ..., [lo]. *)
Definition greedy {R : Type} (k : nat -> option R) (lo : nat) : nat -> option R :=
  fix go (extra : nat) : option R :=
    match k (lo + extra)%nat with
    | Some r => Some r
    | None => match extra with O => None | S e => go e end
    end.

(** [exec r s cap]: match [r] at the start of [s]; the result is the text of
    the capture group and what remains of [s] after the match. *)
Fixpoint exec (r : list atom) (s : str) (cap : str) : option (str * str) :=
  match r with
  | [] => Some (cap, s)
  | a :: r' =>
      let lo := min_count (qnt a) in
      let hi := max_count (qnt a) (run_length (cls a) s) in
      if (hi <? lo)%nat then None
      else greedy
             (fun n => exec r' (skipn n s)
                         (if captured a then cap ++ firstn n s else cap))
             lo (hi - lo)
  end.

Definition chr (c : ascii) : atom := mkAtom (Ascii.eqb c) One false.

(** [/url\(\s*([^\)]+)\s*\)?/] *)
Definition url_re : list atom :=
  [ chr "u"; chr "r"; chr "l"; chr "(";
    mkAtom is_space Star false;
    mkAtom (fun c => negb (Ascii.eqb c RPAREN)) Plus true;
    mkAtom is_space Star false;
    mkAtom (Ascii.eqb RPAREN) Opt false ].

Fixpoint min_total (r : list atom) : nat :=
  match r with
  | [] => O
  | a :: r' => (min_count (qnt a) + min_total r')%nat
  end.

Lemma greedy_some {R} (k : nat -> option R) lo extra res :
  greedy k lo extra = Some res ->
  exists n, (lo <= n <= lo + extra)%nat /\ k n = Some res.
Proof.
  induction extra as [|e IH]; simpl.
  - destruct (k (lo + 0)%nat) eqn:E; [|discriminate].
    intros [= <-]. exists (lo + 0)%nat. split; [lia|assumption].
  - destruct (k (lo + S e)%nat) eqn:E.
    + intros [= <-]. exists (lo + S e)%nat. split; [lia|assumption].
    + intros H. destruct (IH H) as [n [Hn Hk]]. exists n. split; [lia|assumption].
Qed.

Lemma run_length_le p s : (run_length p s <= List.length s)%nat.
Proof. induction s as [|x t IH]; simpl; [lia|]. destruct (p x); lia. Qed.

(** A match consumes at least [min_total r] characters. *)
Lemma exec_consumes r : forall s cap cap' rest,
  exec r s cap = Some (cap', rest) ->
  (List.length rest + min_total r <= List.length s)%nat.
Proof.
  induction r as [|a r' IH]; intros s cap cap' rest; simpl.
  - intros [= _ <-]. lia.
  - destruct (_ <? _)%nat eqn:E; [discriminate|]. apply Nat.ltb_ge in E.
    intros H. apply greedy_some in H. destruct H as [n [Hn Hk]].
    apply IH in Hk. rewrite length_skipn in Hk.
    pose proof (run_length_le (cls a) s) as Hrun.
    assert (Hmax : (max_count (qnt a) (run_length (cls a) s)
                    <= run_length (cls a) s)%nat)
      by (unfold max_count; destruct (qnt a); lia).
    lia.
Qed.

(** One attempt of [/url\(\s*([^\)]+)\s*\)?/] at the start of [s]. *)
Definition exec_url (s : str) : option (str * str) := exec url_re s [].

Lemma exec_url_shorter s cap rest :
  exec_url s = Some (cap, rest) -> (List.length rest < List.length s)%nat.
Proof.
  intros H. apply exec_consumes in H. simpl in H. lia.
Qed.

(** One element of the result of a global scan: a character outside every
    match, or a match with the text of its capture group. *)
Inductive chunk : Type :=
| Text (c : ascii)
| Match (capture : str).

Opaque exec_url.

(** The matches of [/url\(\s*([^\)]+)\s*\)?/g] in [s], leftmost first, each
    search resuming where the previous match ended. *)
Equations? scan (s : str) : list chunk by wf (List.length s) lt :=
  scan [] := [];
  scan (c :: t) with inspect (exec_url (c :: t)) := {
    | exist _ (Some (cap, rest)) e => Match cap :: scan rest;
    | exist _ None _ => Text c :: scan t }.
Proof.
  apply exec_url_shorter in e. assumption.
Qed.

Transparent exec_url.

End Regex.

Import Regex.

(** ** Effects: the plugin's log, the file system and the host

    A method runs in a world made of the plugin's [_inlinedResources]
    array, the paths handed to [fs.readFileSync] so far (a trace kept for
    the proofs), and the blobs handed to the host's [write] callback.  A
    computation returns a value or throws; what it did to the world
    before throwing stays done. *)

Module Effects.

Record World : Type := mkWorld {
  inlinedResources : list str;
  fsReads : list str;
  written : list (str * str)
}.

Inductive Exn : Type :=
| ReadError (path : str).

Inductive Result (A : Type) : Type :=
| Ok (a : A)
| Throw (e : Exn).
Arguments Ok {A} a.
Arguments Throw {A} e.

Definition M (A : Type) : Type := World -> Result A * World.

Definition ret {A} (a : A) : M A := fun w => (Ok a, w).

Definition bind {A B} (m : M A) (f : A -> M B) : M B :=
  fun w => match m w with
           | (Ok a, w') => f a w'
           | (Throw e, w') => (Throw e, w')
           end.

Definition throw {A} (e : Exn) : M A := fun w => (Throw e, w).

End Effects.

Import Effects.

Notation "x <- m ;; k" := (bind m (fun x => k))
  (at level 61, m at next level, right associativity).
Notation "m ;;; k" := (bind m (fun _ => k))
  (at level 61, right associativity).

(** [interface INodeBuffer] *)
Record INodeBuffer : Type := mkBuffer {
  buf_length : Z;             (* length *)
  toString_base64 : str;      (* toString('base64') *)
  toString_utf8 : str         (* toString() *)
}.

(** [interface INodeFS]: [None] when [readFileSync] throws. *)
Record INodeFS : Type := mkFS {
  readFileSync : str -> option INodeBuffer
}.

(** [interface INodePath] *)
Record INodePath : Type := mkPath {
  dirname : str -> str;
  path_join : str -> str -> str
}.

(** [Utilities.replaceURL] *)

Module Rewriter.

(** The [while] loop of the callback of [replaceURL]. *)
Definition endsBlank (url : str) : bool :=
  (0 <? len url)
  && (str_eqb (charAt url (len url - 1)) [SPACE]
      || str_eqb (charAt url (len url - 1)) [TAB]).

Lemma substring_shorter (url : str) :
  (0 < List.length url)%nat ->
  (List.length (substring url 0 (len url - 1)) < List.length url)%nat.
Proof.
  intros H. unfold len.
  replace (Z.of_nat (List.length url) - 1) with (Z.of_nat (List.length url - 1)) by lia.
  rewrite substring_0, length_firstn. lia.
Qed.

Equations? trimEnd (url : str) : str by wf (List.length url) lt :=
  trimEnd url with inspect (endsBlank url) := {
    | exist _ true _ => trimEnd (substring url 0 (len url - 1));
    | exist _ false _ => url }.
Proof.
  apply substring_shorter. unfold endsBlank, len in e.
  apply andb_true_iff in e. destruct e as [e _]. apply Z.ltb_lt in e. lia.
Qed.

(** The three steps that strip quotes and blanks from the captured text. *)
Definition unquote (m0 : str) : str :=
  let url := m0 in
  let url :=
    if str_eqb (charAt url 0) [DQUOTE] || str_eqb (charAt url 0) [SQUOTE]
    then substring_from url 1 else url in
  let url := trimEnd url in
  let url :=
    if str_eqb (charAt url (len url - 1)) [DQUOTE]
       || str_eqb (charAt url (len url - 1)) [SQUOTE]
    then substring url 0 (len url - 1) else url in
  url.

Definition isQualified (url : str) : bool :=
  startsWith url $"data:" || startsWith url $"http://" || startsWith url $"https://".

(** The callback that [replaceURL] hands to [String.prototype.replace]. *)
Definition replaceCallback (replacer : str -> M str) (m0 : str) : M str :=
  let url := unquote m0 in
  url <- (if negb (startsWith url $"data:") && negb (startsWith url $"http://")
             && negb (startsWith url $"https://")
          then replacer url else ret url) ;;
  ret ($"url(" ++ url ++ $")").

(** The callback is run on each match in turn, and the results are put
    back between the unmatched characters. *)
Fixpoint replaceChunks (replacer : str -> M str) (cs : list chunk) : M str :=
  match cs with
  | [] => ret []
  | Text c :: cs' =>
      rest <- replaceChunks replacer cs' ;; ret (c :: rest)
  | Match capture :: cs' =>
      out <- replaceCallback replacer capture ;;
      rest <- replaceChunks replacer cs' ;;
      ret (out ++ rest)
  end.

Definition replaceURL (contents : str) (replacer : str -> M str) : M str :=
  replaceChunks replacer (scan contents).

End Rewriter.

Import Rewriter.

(** ** class CSSPlugin *)

Module CSSPlugin.

(** [interface ICSSEntryPointData] *)
Record ICSSEntryPointData : Type := mkEntry {
  moduleName : str;
  contents : str;
  fsPath : str
}.

(** The values of [inlineResources: boolean | 'base64']. *)
Inductive InlineResources : Type := IR_false | IR_true | IR_base64.

(** [if (this.inlineResources)] *)
Definition enabled (i : InlineResources) : bool :=
  match i with IR_false => false | IR_true | IR_base64 => true end.

(** [this.inlineResources === 'base64'] *)
Definition is_base64 (i : InlineResources) : bool :=
  match i with IR_base64 => true | _ => false end.

(** The fields of the plugin that [writeFile] reads; [_inlinedResources]
    lives in the world. *)
Record Plugin : Type := mkPlugin {
  inlineResources : InlineResources;
  inlineResourcesLimit : Z;
  _entryPoints : list (str * list ICSSEntryPointData)
}.

Section Methods.

Variable fs : INodeFS.
Variable path : INodePath.

(** [fs.readFileSync(fsPath)], with the call recorded. *)
Definition readFile (fsPath : str) : M INodeBuffer :=
  fun w =>
    let w' := mkWorld (inlinedResources w) (fsReads w ++ [fsPath]) (written w) in
    match readFileSync fs fsPath with
    | Some buffer => (Ok buffer, w')
    | None => (Throw (ReadError fsPath), w')
    end.

(** [this._inlinedResources.push(p)] *)
Definition pushInlined (p : str) : M unit :=
  fun w => (Ok tt, mkWorld (inlinedResources w ++ [p]) (fsReads w) (written w)).

(** The host's [write(fileName, contents)] callback. *)
Definition hostWrite (fileName blob : str) : M unit :=
  fun w => (Ok tt, mkWorld (inlinedResources w) (fsReads w)
                     (written w ++ [(fileName, blob)])).

(** [/\.(svg|png)$/.test(url)] *)
Definition isSvgOrPng (url : str) : bool :=
  ends_with url $".svg" || ends_with url $".png".

(** The chain of [replace] calls that url-encodes the text of an svg. *)
Definition svgText (text : str) : str :=
  replace_ws_runs
    (replace_char "#" $"%23"
      (replace_char "&" $"%26"
        (replace_char ">" $"%3E"
          (replace_char "<" $"%3C"
            (replace_char "%" $"%25"
              (replace_char DQUOTE $"'" text)))))).

(** The last two statements of both replacers. *)
Definition rewritten (originalFile newFile url : str) : str :=
  let absoluteUrl := joinPaths (pathOf originalFile) url in
  relativePath newFile absoluteUrl.

(** The data URI built when a file is inlined. *)
Definition dataUri (url : str) (fileContents : INodeBuffer) (forceBase64 : bool) : str :=
  let MIME := if ends_with url $".svg" then $"image/svg+xml" else $"image/png" in
  let DATA := $";base64," ++ toString_base64 fileContents in
  let DATA :=
    if negb forceBase64 && ends_with url $".svg" then
      let newText := svgText (toString_utf8 fileContents) in
      let encodedData := $"," ++ newText in
      if len encodedData <? len DATA then encodedData else DATA
    else DATA in
  [DQUOTE] ++ $"data:" ++ MIME ++ DATA ++ [DQUOTE].

(** The replacer of [_rewriteOrInlineUrls]. *)
Definition inlineReplacer (originalFileFSPath originalFile newFile : str)
    (forceBase64 : bool) (inlineByteLimit : Z) (url : str) : M str :=
  if isSvgOrPng url then
    let fsPath := path_join path (dirname path originalFileFSPath) url in
    fileContents <- readFile fsPath ;;
    if buf_length fileContents <? inlineByteLimit then
      let normalizedFSPath := replace_char BACKSLASH $"/" fsPath in
      pushInlined normalizedFSPath ;;;
      ret (dataUri url fileContents forceBase64)
    else ret (rewritten originalFile newFile url)
  else ret (rewritten originalFile newFile url).

(** [_rewriteOrInlineUrls] *)
Definition _rewriteOrInlineUrls (originalFileFSPath originalFile newFile contents : str)
    (forceBase64 : bool) (inlineByteLimit : Z) : M str :=
  replaceURL contents
    (inlineReplacer originalFileFSPath originalFile newFile forceBase64 inlineByteLimit).

(** The replacer of [_rewriteUrls]. *)
Definition rewriteReplacer (originalFile newFile url : str) : M str :=
  ret (rewritten originalFile newFile url).

(** [_rewriteUrls] *)
Definition _rewriteUrls (originalFile newFile contents : str) : M str :=
  replaceURL contents (rewriteReplacer originalFile newFile).

Definition banner : list str :=
  [ $"/*---------------------------------------------------------";
    $" * Copyright (c) Microsoft Corporation. All rights reserved.";
    $" *--------------------------------------------------------*/" ].

Definition CRLF : str := ["013"%char; "010"%char].

(** The body of the [for] loop of [writeFile], for one entry. *)
Definition rewriteEntry (self : Plugin) (newFile : str) (entry : ICSSEntryPointData)
    : M str :=
  if enabled (inlineResources self) then
    _rewriteOrInlineUrls (fsPath entry) (moduleName entry) newFile (contents entry)
      (is_base64 (inlineResources self)) (inlineResourcesLimit self)
  else
    _rewriteUrls (moduleName entry) newFile (contents entry).

(** The [for] loop of [writeFile]: each result is pushed onto [acc]. *)
Fixpoint rewriteEntries (self : Plugin) (newFile : str)
    (entries : list ICSSEntryPointData) (acc : list str) : M (list str) :=
  match entries with
  | [] => ret acc
  | entry :: rest =>
      out <- rewriteEntry self newFile entry ;;
      rewriteEntries self newFile rest (acc ++ [out])
  end.

(** [this._entryPoints[moduleName]], [None] when [hasOwnProperty] fails. *)
Fixpoint entryPointsOf (eps : list (str * list ICSSEntryPointData)) (name : str)
    : option (list ICSSEntryPointData) :=
  match eps with
  | [] => None
  | (k, v) :: rest => if str_eqb k name then Some v else entryPointsOf rest name
  end.

(** [writeFile(pluginName, moduleName, req, write, config)]: [toUrl] is
    [req.toUrl]; the [write] callback is the host's. *)
Definition writeFile (self : Plugin) (moduleName : str) (toUrl : str -> str) : M unit :=
  match entryPointsOf (_entryPoints self) moduleName with
  | Some entries =>
      let fileName := toUrl (moduleName ++ $".css") in
      contents <- rewriteEntries self moduleName entries banner ;;
      hostWrite fileName (join_with CRLF contents)
  | None => ret tt
  end.

(** [getInlinedResources()] *)
Definition getInlinedResources (w : World) : list str := inlinedResources w.

End Methods.

End CSSPlugin.

Import CSSPlugin.

(** ** Sample collaborators for the concrete runs *)

Module Samples.

(** A path module in the manner of Node's on POSIX, for a directory-and-file
    [p] and a plain relative [b]: [dirname] cuts [p] before its last slash,
    [join] puts a slash between its arguments. *)
Definition posixPath : INodePath :=
  mkPath
    (fun p => match find_last_char SLASH p with
              | Some i => firstn i p
              | None => $"."
              end)
    (fun a b => a ++ $"/" ++ b).

(** A disk with two small images and one large one; every other path
    fails to read. *)
Definition disk : INodeFS :=
  mkFS (fun p =>
    if str_eqb p $"/src/a/icon.png" then Some (mkBuffer 3 $"QUJD" $"ABC")
    else if str_eqb p $"/src/a/dot.svg" then
      Some (mkBuffer 12 $"PHN2Zz48L3N2Zz4K" ($"<svg></svg>" ++ ["010"%char]))
    else if str_eqb p $"/src/a/big.png" then Some (mkBuffer 9000 $"QUJD" $"ABC")
    else None).

Definition w0 : World := mkWorld [] [] [].

End Samples.

Import Samples.

(** ** Sample runs *)

Example joinPaths_doc : joinPaths $"a/b/" $"../c" = $"a/c".
Proof. reflexivity. Qed.

Example joinPaths_protocol_run :
  joinPaths $"http://host/a/x/" $"../img.png" = $"http://host/a/img.png".
Proof. vm_compute. reflexivity. Qed.

Example joinPaths_root_run : joinPaths $"/" $"../a" = $"/a".
Proof. vm_compute. reflexivity. Qed.

Example relativePath_run1 : relativePath $"a/b.css" $"c.png" = $"../c.png".
Proof. vm_compute. reflexivity. Qed.

Example relativePath_run2 :
  relativePath $"out/bundle" $"a/img/x.png" = $"../a/img/x.png".
Proof. vm_compute. reflexivity. Qed.

Example roundtrip_dot_run :
  joinPaths $"./a/" (relativePath $"./a/x.css" (joinPaths $"./a/" $"c")) = $"../a/c".
Proof. vm_compute. reflexivity. Qed.

Example scan_run1 :
  scan $"a url( 'x.png' ) b"
  = [Text "a"; Text " "; Match $"'x.png' "; Text " "; Text "b"].
Proof. vm_compute. reflexivity. Qed.

(** After backtracking, the group captures the last blank. *)
Example scan_run2 : scan $"url(  )x" = [Match $" "; Text "x"].
Proof. vm_compute. reflexivity. Qed.

(** [url()] is no match: the group needs one character. *)
Example scan_run3 :
  scan $"url()url(a"
  = [Text "u"; Text "r"; Text "l"; Text "("; Text ")"; Match $"a"].
Proof. vm_compute. reflexivity. Qed.

Example rewrite_run :
  _rewriteUrls $"a/b/style" $"out/bundle" $"x url(../img/x.png) y" w0
  = (Ok $"x url(../a/img/x.png) y", w0).
Proof. vm_compute. reflexivity. Qed.

Example inline_png_run :
  _rewriteOrInlineUrls disk posixPath $"/src/a/s.css" $"a/s" $"out/bundle"
    $"url(icon.png)" false 5000 w0
  = (Ok ($"url(" ++ [DQUOTE] ++ $"data:image/png;base64,QUJD" ++ [DQUOTE] ++ $")"),
     mkWorld [$"/src/a/icon.png"] [$"/src/a/icon.png"] []).
Proof. vm_compute. reflexivity. Qed.

Example inline_svg_run :
  _rewriteOrInlineUrls disk posixPath $"/src/a/s.css" $"a/s" $"out/bundle"
    $"url(dot.svg)" false 5000 w0
  = (Ok ($"url(" ++ [DQUOTE] ++ $"data:image/svg+xml,%3Csvg%3E%3C/svg%3E "
           ++ [DQUOTE] ++ $")"),
     mkWorld [$"/src/a/dot.svg"] [$"/src/a/dot.svg"] []).
Proof. vm_compute. reflexivity. Qed.

(** A file at the limit is not inlined, but it is read. *)
Example inline_limit_run :
  _rewriteOrInlineUrls disk posixPath $"/src/a/s.css" $"a/s" $"out/bundle"
    $"url(icon.png)" false 3 w0
  = (Ok $"url(../a/icon.png)", mkWorld [] [$"/src/a/icon.png"] []).
Proof. vm_compute. reflexivity. Qed.

Example writeFile_run :
  writeFile disk posixPath
    (mkPlugin IR_false 5000
       [($"out/bundle", [mkEntry $"a/s" $"p{background:url(x.gif)}" $"/src/a/s.css";
                         mkEntry $"b/t" $"q{}" $"/src/b/t.css"])])
    $"out/bundle" (fun name => $"/www/" ++ name) w0
  = (Ok tt,
     mkWorld [] []
       [($"/www/out/bundle.css",
         $"/*---------------------------------------------------------" ++ CRLF
         ++ $" * Copyright (c) Microsoft Corporation. All rights reserved." ++ CRLF
         ++ $" *--------------------------------------------------------*/" ++ CRLF
         ++ $"p{background:url(../a/x.gif)}" ++ CRLF
         ++ $"q{}")]).
Proof. vm_compute. reflexivity. Qed.

(** ** Slash-terminated pieces

    [segments path] lists the pieces that the loop of [push] cuts off
    [path] one after the other: each runs up to and including the
    next slash, the last one may lack it. *)

Fixpoint segments (s : str) : list str :=
  match s with
  | [] => []
  | x :: t =>
      if Ascii.eqb x SLASH then [x] :: segments t
      else match segments t with
           | [] => [[x]]
           | p :: ps => (x :: p) :: ps
           end
  end.

Section Segments.

Lemma nextPiece_find path :
  nextPiece path = match find_char SLASH path with
                   | Some i => firstn (S i) path
                   | None => path
                   end.
Proof.
  unfold nextPiece. rewrite indexOf_0. destruct (find_char SLASH path) as [i|].
  - replace (0 <=? Z.of_nat i) with true by (symmetry; apply Z.leb_le; lia).
    replace (Z.of_nat i + 1) with (Z.of_nat (S i)) by lia.
    apply substring_0.
  - reflexivity.
Qed.

Lemma restPath_find path :
  restPath path = match find_char SLASH path with
                  | Some i => skipn (S i) path
                  | None => []
                  end.
Proof.
  unfold restPath. rewrite indexOf_0. destruct (find_char SLASH path) as [i|].
  - replace (0 <=? Z.of_nat i) with true by (symmetry; apply Z.leb_le; lia).
    replace (Z.of_nat i + 1) with (Z.of_nat (S i)) by lia.
    apply substring_from_nat.
  - reflexivity.
Qed.

Lemma nextPiece_cons x t :
  nextPiece (x :: t) = if Ascii.eqb x SLASH then [x] else x :: nextPiece t.
Proof.
  rewrite !nextPiece_find. cbn [find_char].
  destruct (Ascii.eqb x SLASH); [reflexivity|].
  destruct (find_char SLASH t); reflexivity.
Qed.

Lemma restPath_cons x t :
  restPath (x :: t) = if Ascii.eqb x SLASH then t else restPath t.
Proof.
  rewrite !restPath_find. cbn [find_char].
  destruct (Ascii.eqb x SLASH); [reflexivity|].
  destruct (find_char SLASH t); reflexivity.
Qed.

Lemma segments_unfold s :
  segments s = match s with
               | [] => []
               | _ :: _ => nextPiece s :: segments (restPath s)
               end.
Proof.
  induction s as [|x t IH]; [reflexivity|].
  rewrite nextPiece_cons, restPath_cons. simpl.
  destruct (Ascii.eqb x SLASH); [reflexivity|].
  rewrite IH. destruct t; reflexivity.
Qed.

(** The loop of [push] is a left fold of [pushPiece] over the pieces. *)
Lemma push_segments pieces path :
  push pieces path = fold_left pushPiece (segments path) pieces.
Proof.
  funelim (push pieces path).
  - rewrite segments_unfold. destruct path as [|x t].
    + discriminate.
    + simpl. assumption.
  - destruct path; [reflexivity|].
    pose proof (proj1 (Z.ltb_ge _ _) e) as Hle. unfold len in Hle.
    cbn [List.length] in Hle. lia.
Qed.

End Segments.

(** ** Segment processing of [joinPaths], in the words of the specification *)

Module SegmentRules.

(** The rule as the specification words it: [./] is dropped; [../] pops the
    previous segment unless that one is a root slash or [../], in which
    case [../] is pushed; any other segment is pushed.  (With nothing
    pushed before, [../] is pushed.) *)
Definition step_claimed (pieces : list str) (piece : str) : list str :=
  if str_eqb piece $"./" then pieces
  else if str_eqb piece $"../" then
    match rev pieces with
    | [] => pieces ++ [piece]
    | prev :: _ =>
        if str_eqb prev $"/" || str_eqb prev $"../" then pieces ++ [piece]
        else removelast pieces
    end
  else pieces ++ [piece].

(** The rule the code follows: after a root slash [../] is dropped, not
    pushed. *)
Definition step (pieces : list str) (piece : str) : list str :=
  if str_eqb piece $"./" then pieces
  else if str_eqb piece $"../" then
    match rev pieces with
    | [] => pieces ++ [piece]
    | prev :: _ =>
        if str_eqb prev $"/" then pieces
        else if str_eqb prev $"../" then pieces ++ [piece]
        else removelast pieces
    end
  else pieces ++ [piece].

(** [joinPaths] as a fold of a segment rule over the slash-terminated
    segments, left to right. *)
Definition joinWith (rule : list str -> str -> list str) (a b : str) : str :=
  let held := substring a 0 (aPathStartIndexOf a) in
  let base := fold_left rule (segments (substr_from a (aPathStartIndexOf a))) [] in
  let start := if startsWith b $"/" then [] else base in
  held ++ List.concat (fold_left rule (segments b) start).

End SegmentRules.

Section JoinPathsFacts.

Import SegmentRules.

Lemma segments_nonempty s : Forall (fun p => p <> []) (segments s).
Proof.
  induction s as [|x t IH]; simpl; [constructor|].
  destruct (Ascii.eqb x SLASH).
  - constructor; [discriminate|assumption].
  - destruct (segments t) as [|p ps].
    + constructor; [discriminate|constructor].
    + constructor; [discriminate|]. inversion IH; assumption.
Qed.

Lemma prevPieceOf_rev pieces :
  prevPieceOf pieces = match rev pieces with [] => None | p :: _ => Some p end.
Proof.
  destruct pieces as [|x l] using rev_ind; [reflexivity|].
  unfold prevPieceOf. rewrite rev_app_distr, length_app. simpl.
  replace (0 <? List.length l + 1)%nat with true by (symmetry; apply Nat.ltb_lt; lia).
  rewrite nth_error_app2 by lia.
  replace (List.length l + 1 - 1 - List.length l)%nat with O by lia. reflexivity.
Qed.

Lemma Forall_removelast {A} (P : A -> Prop) l : Forall P l -> Forall P (removelast l).
Proof.
  intros H. destruct l as [|x l] using rev_ind; [constructor|].
  rewrite removelast_last. apply Forall_app in H. tauto.
Qed.

Lemma pushPiece_step pieces piece :
  Forall (fun p => p <> []) pieces -> pushPiece pieces piece = step pieces piece.
Proof.
  intros Hne. unfold pushPiece, step. rewrite prevPieceOf_rev.
  destruct (str_eqb piece $"./"); [reflexivity|].
  destruct (str_eqb piece $"../"); [|reflexivity].
  destruct pieces as [|prev l _] using rev_ind; [reflexivity|].
  rewrite rev_app_distr. cbn [rev app].
  apply Forall_app in Hne. destruct Hne as [_ Hp]. inversion Hp as [|? ? Hprev _]; subst.
  unfold truthy. apply str_eqb_neq in Hprev. rewrite Hprev. cbn [negb andb].
  destruct (str_eqb prev $"/"); [reflexivity|].
  destruct (str_eqb prev $"../"); reflexivity.
Qed.

Lemma step_nonempty pieces piece :
  piece <> [] -> Forall (fun p => p <> []) pieces ->
  Forall (fun p => p <> []) (step pieces piece).
Proof.
  intros Hp Hne. unfold step.
  destruct (str_eqb piece $"./"); [assumption|].
  assert (Forall (fun p => p <> []) (pieces ++ [piece]))
    by (apply Forall_app; split; [assumption|constructor; [assumption|constructor]]).
  destruct (str_eqb piece $"../"); [|assumption].
  destruct (rev pieces) as [|l ?]; [assumption|].
  destruct (str_eqb l $"/"); [assumption|].
  destruct (str_eqb l $"../"); [assumption|].
  apply Forall_removelast; assumption.
Qed.

Lemma fold_pushPiece_step segs pieces :
  Forall (fun p => p <> []) segs -> Forall (fun p => p <> []) pieces ->
  fold_left pushPiece segs pieces = fold_left step segs pieces
  /\ Forall (fun p => p <> []) (fold_left step segs pieces).
Proof.
  revert pieces. induction segs as [|x segs IH]; intros pieces Hs Hp; simpl.
  - split; [reflexivity|assumption].
  - inversion Hs; subst. rewrite pushPiece_step by assumption.
    apply IH; [assumption|]. apply step_nonempty; assumption.
Qed.

Lemma starts_slash_charAt b :
  (0 <? len b) && str_eqb (charAt b 0) $"/" = startsWith b $"/".
Proof.
  destruct b as [|x t]; [reflexivity|].
  unfold startsWith, charAt, len. cbn [List.length lit list_ascii_of_string].
  replace (0 <? Z.of_nat (S (List.length t))) with true by (symmetry; apply Z.ltb_lt; lia).
  replace (Z.of_nat 1 <=? Z.of_nat (S (List.length t))) with true
    by (symmetry; apply Z.leb_le; lia).
  rewrite substr_0. simpl. reflexivity.
Qed.

Lemma joinPaths_joinWith a b : joinPaths a b = joinWith step a b.
Proof.
  unfold joinPaths, joinWith, join. rewrite starts_slash_charAt, !push_segments.
  destruct (fold_pushPiece_step _ []
              (segments_nonempty (substr_from a (aPathStartIndexOf a))) (Forall_nil _))
    as [E1 N1].
  destruct (startsWith b $"/").
  - rewrite (proj1 (fold_pushPiece_step _ _ (segments_nonempty b) (Forall_nil _))).
    reflexivity.
  - rewrite E1, (proj1 (fold_pushPiece_step _ _ (segments_nonempty b) N1)).
    reflexivity.
Qed.

End JoinPathsFacts.

(** ** Common prefixes *)

Section CommonPrefix.

Lemma firstn_succ_nth (l : str) n x :
  nth_error l n = Some x -> firstn (S n) l = firstn n l ++ [x].
Proof.
  revert n; induction l as [|y l IH]; intros [|n] H; try discriminate.
  - injection H as ->. reflexivity.
  - change (y :: firstn (S n) l = y :: (firstn n l ++ [x])).
    f_equal. apply IH. exact H.
Qed.

Lemma charCodeAt_nat s (n : nat) : charCodeAt s (Z.of_nat n) = nth_error s n.
Proof.
  unfold charCodeAt.
  replace (0 <=? Z.of_nat n) with true by (symmetry; apply Z.leb_le; lia).
  rewrite Nat2Z.id. reflexivity.
Qed.

Lemma commonPrefix_loop_spec str1 str2 (len0 : nat) k (i : nat) :
  (i + k = len0)%nat ->
  firstn i str1 = firstn i str2 ->
  firstn len0 str1 = firstn len0 str2 \/ (len0 <= List.length str1)%nat ->
  exists n,
    commonPrefix_loop str1 str2 (Z.of_nat len0) k (Z.of_nat i) = firstn n str1
    /\ firstn n str1 = firstn n str2.
Proof.
  revert i. induction k as [|k IH]; intros i Hik Hpre Hlen; simpl.
  - exists len0. rewrite substring_0. replace len0 with i by lia. tauto.
  - rewrite !charCodeAt_nat.
    destruct (nth_error str1 i) as [x|] eqn:E1;
      [destruct (nth_error str2 i) as [y|] eqn:E2;
        [destruct (Ascii.eqb x y) eqn:Exy|]|]; simpl;
      try (exists i; rewrite substring_0; tauto).
    apply Ascii.eqb_eq in Exy. subst y.
    replace (Z.of_nat i + 1) with (Z.of_nat (S i)) by lia.
    apply IH; [lia| |assumption].
    rewrite (firstn_succ_nth _ _ _ E1), (firstn_succ_nth _ _ _ E2), Hpre. reflexivity.
Qed.

Lemma commonPrefix_spec str1 str2 :
  exists n, commonPrefix str1 str2 = firstn n str1 /\ firstn n str1 = firstn n str2.
Proof.
  unfold commonPrefix, len. rewrite <- Nat2Z.inj_min, Nat2Z.id.
  apply (commonPrefix_loop_spec str1 str2 _ _ O); [lia|reflexivity|right; lia].
Qed.

Lemma find_last_char_nth c s j :
  find_last_char c s = Some j -> nth_error s j = Some c.
Proof.
  revert j; induction s as [|x t IH]; intros j; simpl; [discriminate|].
  destruct (find_last_char c t) as [i|].
  - intros [= <-]. simpl. apply IH. reflexivity.
  - destruct (Ascii.eqb x c) eqn:E; [|discriminate].
    intros [= <-]. apply Ascii.eqb_eq in E. subst. reflexivity.
Qed.

Lemma find_last_char_none c s : find_last_char c s = None -> ~ In c s.
Proof.
  induction s as [|x t IH]; simpl; [tauto|].
  destruct (find_last_char c t); [discriminate|].
  destruct (Ascii.eqb x c) eqn:E; [discriminate|].
  intros _ [->|H]; [rewrite Ascii.eqb_refl in E; discriminate|tauto].
Qed.

Lemma find_last_char_after c s j :
  find_last_char c s = Some j -> ~ In c (skipn (S j) s).
Proof.
  revert j; induction s as [|x t IH]; intros j; simpl; [discriminate|].
  destruct (find_last_char c t) as [i|] eqn:E.
  - intros [= <-]. apply IH. reflexivity.
  - destruct (Ascii.eqb x c); [|discriminate].
    intros [= <-]. simpl. apply find_last_char_none. assumption.
Qed.

(** A string is "closed" when it is empty or ends with a slash. *)
Definition closed (p : str) : Prop := p = [] \/ exists q, p = q ++ [SLASH].

(** [commonFolderPrefix] returns a closed prefix of both arguments. *)
Lemma commonFolderPrefix_spec fromPath toPath :
  let p := commonFolderPrefix fromPath toPath in
  fromPath = p ++ skipn (List.length p) fromPath
  /\ toPath = p ++ skipn (List.length p) toPath
  /\ closed p.
Proof.
  cbv zeta. unfold commonFolderPrefix, lastIndexOf.
  destruct (commonPrefix_spec fromPath toPath) as [n [-> Hn]].
  destruct (find_last_char SLASH (firstn n fromPath)) as [j|] eqn:E.
  - replace (Z.of_nat j =? -1) with false by (symmetry; apply Z.eqb_neq; lia).
    replace (Z.of_nat j + 1) with (Z.of_nat (S j)) by lia.
    rewrite substring_0.
    pose proof (find_last_char_nth _ _ _ E) as Hj.
    assert (Hlt : (j < List.length (firstn n fromPath))%nat)
      by (apply nth_error_Some; congruence).
    assert (Hjn : (S j <= n)%nat) by (rewrite length_firstn in Hlt; lia).
    assert (E1 : firstn (S j) (firstn n fromPath) = firstn (S j) fromPath)
      by (rewrite firstn_firstn; f_equal; lia).
    assert (E2 : firstn (S j) (firstn n fromPath) = firstn (S j) toPath)
      by (rewrite Hn, firstn_firstn; f_equal; lia).
    assert (Hl : List.length (firstn (S j) (firstn n fromPath)) = S j)
      by (rewrite length_firstn; lia).
    rewrite Hl. split; [|split].
    + rewrite E1. symmetry. apply firstn_skipn.
    + rewrite E2. symmetry. apply firstn_skipn.
    + right. exists (firstn j (firstn n fromPath)).
      apply firstn_succ_nth. assumption.
  - simpl. repeat split. left. reflexivity.
Qed.

End CommonPrefix.

(** ** relativePath *)

Section RelativePath.

(** [relativePath] in the words of the specification: one [../] for each
    /-separated segment of the stripped [fromPath]. *)
Definition relativePath_claimed (fromPath toPath : str) : str :=
  if startsWith toPath $"/" || startsWith toPath $"http://"
     || startsWith toPath $"https://"
  then toPath
  else
    let prefix := commonFolderPrefix fromPath toPath in
    let fromPath' := skipn (List.length prefix) fromPath in
    let toPath' := skipn (List.length prefix) toPath in
    List.concat (repeat $"../" (List.length (split fromPath' SLASH))) ++ toPath'.

Lemma upLoop_repeat k result :
  upLoop k result = result ++ List.concat (repeat $"../" k).
Proof.
  revert result; induction k as [|k IH]; intros result.
  - simpl. rewrite app_nil_r. reflexivity.
  - cbn [upLoop repeat List.concat]. rewrite IH, <- app_assoc. reflexivity.
Qed.

Lemma split_acc_length c cur s :
  List.length (split_acc c cur s) = S (count_occ ascii_dec s c).
Proof.
  revert cur; induction s as [|x t IH]; intros cur; [reflexivity|].
  cbn [split_acc count_occ].
  destruct (Ascii.eqb x c) eqn:E.
  - apply Ascii.eqb_eq in E. subst.
    destruct (ascii_dec c c); [|congruence]. simpl. rewrite IH. reflexivity.
  - apply Ascii.eqb_neq in E.
    destruct (ascii_dec x c); [congruence|]. apply IH.
Qed.

Lemma split_length s c : List.length (split s c) = S (count_occ ascii_dec s c).
Proof. apply split_acc_length. Qed.

Lemma relativePath_unfold fromPath toPath :
  relativePath fromPath toPath =
  if startsWith toPath $"/" || startsWith toPath $"http://"
     || startsWith toPath $"https://"
  then toPath
  else
    let prefix := commonFolderPrefix fromPath toPath in
    let fromPath' := skipn (List.length prefix) fromPath in
    let toPath' := skipn (List.length prefix) toPath in
    List.concat (repeat $"../" (count_occ ascii_dec fromPath' SLASH)) ++ toPath'.
Proof.
  unfold relativePath.
  destruct (startsWith toPath $"/" || startsWith toPath $"http://"
            || startsWith toPath $"https://"); [reflexivity|].
  cbv zeta. unfold len. rewrite !substr_from_nat, split_length, upLoop_repeat.
  replace (Z.to_nat (Z.of_nat (S (count_occ ascii_dec
             (skipn (List.length (commonFolderPrefix fromPath toPath)) fromPath)
             SLASH)) - 1))
    with (count_occ ascii_dec
             (skipn (List.length (commonFolderPrefix fromPath toPath)) fromPath)
             SLASH) by lia.
  reflexivity.
Qed.

End RelativePath.

(** C3 (as stated), refuted: from [a/b.css] to [c.png] the stripped
    [fromPath] has two /-separated segments, yet one [../] is emitted. *)
Lemma relativePath_claimed_fails :
  List.length (split $"a/b.css" SLASH) = 2%nat
  /\ relativePath $"a/b.css" $"c.png" = $"../c.png"
  /\ relativePath_claimed $"a/b.css" $"c.png" = $"../../c.png"
  /\ relativePath $"a/b.css" $"c.png" <> relativePath_claimed $"a/b.css" $"c.png".
Proof.
  repeat split; try (vm_compute; reflexivity). vm_compute. discriminate.
Qed.

(** C3 (amended): [relativePath(from, to)] returns [to] unchanged when it
    starts with [/], [http://] or [https://]; otherwise the common folder
    prefix is a prefix of both, and the result is the stripped [to] prefixed
    by one [../] per slash of the stripped [from], that is, one fewer than
    its number of /-separated segments. *)
Theorem relativePath_up_count (fromPath toPath : str) :
  let prefix := commonFolderPrefix fromPath toPath in
  let fromPath' := skipn (List.length prefix) fromPath in
  let toPath' := skipn (List.length prefix) toPath in
  let ups := (List.length (split fromPath' SLASH) - 1)%nat in
  fromPath = prefix ++ fromPath' /\ toPath = prefix ++ toPath'
  /\ ups = count_occ ascii_dec fromPath' SLASH
  /\ relativePath fromPath toPath =
     if startsWith toPath $"/" || startsWith toPath $"http://"
        || startsWith toPath $"https://"
     then toPath
     else List.concat (repeat $"../" ups) ++ toPath'.
Proof.
  cbv zeta.
  destruct (commonFolderPrefix_spec fromPath toPath) as [H1 [H2 _]].
  rewrite split_length.
  replace (S (count_occ ascii_dec
             (skipn (List.length (commonFolderPrefix fromPath toPath)) fromPath)
             SLASH) - 1)%nat
    with (count_occ ascii_dec
             (skipn (List.length (commonFolderPrefix fromPath toPath)) fromPath)
             SLASH) by lia.
  repeat split; try assumption.
  apply relativePath_unfold.
Qed.

(** C4 (as stated), refuted: after a root slash a [../] segment is
    dropped, not pushed. *)
Lemma joinPaths_root_slash_dotdot :
  pushPiece [$"/"] $"../" = [$"/"]
  /\ SegmentRules.step_claimed [$"/"] $"../" = [$"/"; $"../"]
  /\ joinPaths $"/" $"../a" = $"/a"
  /\ SegmentRules.joinWith SegmentRules.step_claimed $"/" $"../a" = $"/../a"
  /\ joinPaths $"/" $"../a" <> SegmentRules.joinWith SegmentRules.step_claimed $"/" $"../a".
Proof.
  repeat split; try (vm_compute; reflexivity). vm_compute. discriminate.
Qed.

(** C4 (amended): [joinPaths(base, relative)] processes the slash-terminated
    segments left to right by the rule [SegmentRules.step]: a [./] segment is
    dropped; a [../] segment is dropped after a root slash, pushed after
    another [../] or when nothing was pushed, and pops the previous segment
    otherwise; every other segment is pushed; and
    [joinPaths('a/b/', '../c') = 'a/c']. *)
Theorem joinPaths_segment_rules (a b : str) :
  joinPaths a b = SegmentRules.joinWith SegmentRules.step a b
  /\ (forall pieces, SegmentRules.step pieces $"./" = pieces)
  /\ SegmentRules.step [] $"../" = [$"../"]
  /\ (forall pieces prev,
        SegmentRules.step (pieces ++ [prev]) $"../"
        = if str_eqb prev $"/" then pieces ++ [prev]
          else if str_eqb prev $"../" then pieces ++ [prev; $"../"]
          else pieces)
  /\ (forall pieces piece,
        SegmentRules.step pieces piece
        = if str_eqb piece $"./" || str_eqb piece $"../"
          then SegmentRules.step pieces piece
          else pieces ++ [piece])
  /\ joinPaths $"a/b/" $"../c" = $"a/c".
Proof.
  split; [apply joinPaths_joinWith|].
  split; [reflexivity|]. split; [reflexivity|]. split; [|split; [|reflexivity]].
  - intros pieces prev. unfold SegmentRules.step.
    change (str_eqb $"../" $"./") with false. change (str_eqb $"../" $"../") with true.
    cbv beta iota. rewrite rev_app_distr. cbn [rev app].
    destruct (str_eqb prev $"/"); [reflexivity|].
    destruct (str_eqb prev $"../").
    + rewrite <- app_assoc. reflexivity.
    + apply removelast_last.
  - intros pieces piece. unfold SegmentRules.step.
    destruct (str_eqb piece $"./"); [reflexivity|].
    destruct (str_eqb piece $"../"); reflexivity.
Qed.

(** ** The callback of [replaceURL] and the two replacers *)

Section Callback.

Lemma replaceCallback_unfold replacer m0 w :
  replaceCallback replacer m0 w =
  if isQualified (unquote m0)
  then (Ok ($"url(" ++ unquote m0 ++ $")"), w)
  else match replacer (unquote m0) w with
       | (Ok r, w') => (Ok ($"url(" ++ r ++ $")"), w')
       | (Throw e, w') => (Throw e, w')
       end.
Proof.
  unfold replaceCallback, isQualified, bind, ret.
  destruct (startsWith (unquote m0) $"data:"),
           (startsWith (unquote m0) $"http://"),
           (startsWith (unquote m0) $"https://"); cbn [negb andb orb];
    reflexivity.
Qed.

Variable fs : INodeFS.
Variable path : INodePath.

(** What the replacer of [_rewriteOrInlineUrls] does, case by case. *)
Lemma inlineReplacer_unfold fsP orig new force limit url w :
  inlineReplacer fs path fsP orig new force limit url w =
  if isSvgOrPng url then
    let p := path_join path (dirname path fsP) url in
    let w1 := mkWorld (inlinedResources w) (fsReads w ++ [p]) (written w) in
    match readFileSync fs p with
    | None => (Throw (ReadError p), w1)
    | Some buf =>
        if buf_length buf <? limit
        then (Ok (dataUri url buf force),
              mkWorld (inlinedResources w ++ [replace_char BACKSLASH $"/" p])
                      (fsReads w ++ [p]) (written w))
        else (Ok (rewritten orig new url), w1)
    end
  else (Ok (rewritten orig new url), w).
Proof.
  unfold inlineReplacer, bind, ret, readFile, pushInlined.
  destruct (isSvgOrPng url); [|reflexivity]. cbv zeta.
  destruct (readFileSync fs (path_join path (dirname path fsP) url)) as [buf|];
    [|reflexivity].
  destruct (buf_length buf <? limit); reflexivity.
Qed.


End Callback.

(** ** What is emitted for each [url(...)] token *)

Section Emission.

Variable fs : INodeFS.
Variable path : INodePath.





End Emission.


(** ** Tokens that pass through *)

Section PassThrough.

Lemma concat_segments s : List.concat (segments s) = s.
Proof.
  induction s as [|x t IH]; [reflexivity|]. cbn [segments].
  destruct (Ascii.eqb x SLASH).
  - cbn [List.concat app]. rewrite IH. reflexivity.
  - destruct (segments t) as [|p ps]; cbn [List.concat app] in *.
    + rewrite <- IH. reflexivity.
    + rewrite <- IH. reflexivity.
Qed.

(** No segment of [s] is [./] or [../]. *)
Definition dotFree (s : str) : bool :=
  forallb (fun p => negb (str_eqb p $"./") && negb (str_eqb p $"../")) (segments s).

Lemma fold_pushPiece_plain segs : forall pieces,
  forallb (fun p => negb (str_eqb p $"./") && negb (str_eqb p $"../")) segs = true ->
  fold_left pushPiece segs pieces = pieces ++ segs.
Proof.
  induction segs as [|p segs IH]; intros pieces H; cbn [fold_left].
  - rewrite app_nil_r. reflexivity.
  - cbn [forallb] in H. apply andb_true_iff in H. destruct H as [Hp Hs].
    apply andb_true_iff in Hp. destruct Hp as [H1 H2].
    unfold pushPiece at 2.
    destruct (str_eqb p $"./"); [discriminate|].
    destruct (str_eqb p $"../"); [discriminate|].
    rewrite IH by assumption. rewrite <- app_assoc. reflexivity.
Qed.

(** An absolute [b] without dot segments replaces the path of [a]; only
    the held-fixed prefix of [a] stays. *)
Lemma joinPaths_absolute a b :
  startsWith b $"/" = true -> dotFree b = true ->
  joinPaths a b = substring a 0 (aPathStartIndexOf a) ++ b.
Proof.
  intros Hs Hd. unfold joinPaths. rewrite starts_slash_charAt, Hs.
  rewrite push_segments, fold_pushPiece_plain by exact Hd.
  unfold join. cbn [app]. rewrite concat_segments. reflexivity.
Qed.

Lemma relativePath_absolute fromPath toPath :
  startsWith toPath $"/" = true -> relativePath fromPath toPath = toPath.
Proof. intros H. unfold relativePath. rewrite H. reflexivity. Qed.


End PassThrough.



(** ** Inlining *)

Module WinSamples.




End WinSamples.

Import WinSamples.

Section Inlining.

Variable fs : INodeFS.
Variable path : INodePath.

Lemma replace_char_absent c r (s : str) : ~ In c s -> replace_char c r s = s.
Proof.
  unfold replace_char. induction s as [|x t IH]; intros H; [reflexivity|].
  cbn [flat_map]. destruct (Ascii.eqb x c) eqn:E.
  - apply Ascii.eqb_eq in E. subst. exfalso. apply H. left. reflexivity.
  - cbn [app]. rewrite IH; [reflexivity|]. intros Hin. apply H. right. exact Hin.
Qed.

(** With inlining enabled, every entry is rewritten with the inlining
    replacer. *)
Lemma rewriteEntry_enabled self newFile entry :
  enabled (inlineResources self) = true ->
  rewriteEntry fs path self newFile entry =
  replaceChunks
    (inlineReplacer fs path (fsPath entry) (moduleName entry) newFile
       (is_base64 (inlineResources self)) (inlineResourcesLimit self))
    (scan (contents entry)).
Proof. intros H. unfold rewriteEntry. rewrite H. reflexivity. Qed.

Lemma rewriteEntry_disabled self newFile entry :
  enabled (inlineResources self) = false ->
  rewriteEntry fs path self newFile entry =
  replaceChunks (rewriteReplacer (moduleName entry) newFile) (scan (contents entry)).
Proof. intros H. unfold rewriteEntry. rewrite H. reflexivity. Qed.

End Inlining.


(** ** The url-encoded text of an svg *)

Section SvgEncoding.

(** The replacement table in the words of the specification, applied to
    one character. *)
Definition svgEscape (c : ascii) : str :=
  if Ascii.eqb c DQUOTE then $"'"
  else if Ascii.eqb c "%" then $"%25"
  else if Ascii.eqb c "<" then $"%3C"
  else if Ascii.eqb c ">" then $"%3E"
  else if Ascii.eqb c "&" then $"%26"
  else if Ascii.eqb c "#" then $"%23"
  else [c].

Lemma flat_map_flat_map {A B C} (f : A -> list B) (g : B -> list C) l :
  flat_map g (flat_map f l) = flat_map (fun x => flat_map g (f x)) l.
Proof.
  induction l as [|x l IH]; [reflexivity|].
  cbn [flat_map]. rewrite flat_map_app, IH. reflexivity.
Qed.

(** The chain of six [replace] calls acts as the table, character by
    character: no replacement text contains a character that a later call
    replaces. *)
Lemma svgText_table text :
  svgText text = replace_ws_runs (flat_map svgEscape text).
Proof.
  unfold svgText, replace_char. f_equal.
  rewrite !flat_map_flat_map. apply flat_map_ext.
  intros c. destruct c as [[] [] [] [] [] [] [] []]; reflexivity.
Qed.

Lemma len_app (a b : str) : len (a ++ b) = len a + len b.
Proof. unfold len. rewrite length_app. lia. Qed.

Lemma dataUri_svg url buf :
  ends_with url $".svg" = true ->
  let base64Uri := $"data:image/svg+xml;base64," ++ toString_base64 buf in
  let escapedUri := $"data:image/svg+xml," ++ svgText (toString_utf8 buf) in
  dataUri url buf false =
  [DQUOTE] ++ (if len escapedUri <? len base64Uri then escapedUri else base64Uri)
    ++ [DQUOTE].
Proof.
  intros Hsvg. cbv zeta. unfold dataUri. rewrite Hsvg. cbn [negb andb].
  rewrite !len_app.
  replace (len $"data:image/svg+xml," + len (svgText (toString_utf8 buf))
           <? len $"data:image/svg+xml;base64," + len (toString_base64 buf))
    with (len $"," + len (svgText (toString_utf8 buf))
          <? len $";base64," + len (toString_base64 buf)).
  - destruct (_ <? _); reflexivity.
  - change (len $"data:image/svg+xml,") with 19.
    change (len $"data:image/svg+xml;base64,") with 26.
    change (len $",") with 1. change (len $";base64,") with 8.
    destruct (Z.ltb_spec (1 + len (svgText (toString_utf8 buf)))
                         (8 + len (toString_base64 buf)));
      symmetry; [apply Z.ltb_lt|apply Z.ltb_ge]; lia.
Qed.

(** In the words of the specification: a run of whitespace, taken as
    long as it goes, becomes one space; every other character stays. *)
Definition startsSpace (s : str) : bool :=
  match s with
  | c :: _ => is_space c
  | [] => false
  end.

Inductive collapsed : str -> str -> Prop :=
| collapsed_nil : collapsed [] []
| collapsed_char (c : ascii) (s r : str) :
    is_space c = false -> collapsed s r -> collapsed (c :: s) (c :: r)
| collapsed_run (run s r : str) :
    run <> [] -> forallb is_space run = true -> startsSpace s = false ->
    collapsed s r -> collapsed (run ++ s) (SPACE :: r).

Lemma collapse_ws_run (run s : str) :
  forallb is_space run = true -> startsSpace s = false ->
  collapse_ws true (run ++ s) = collapse_ws false s.
Proof.
  intros Hrun Hs. induction run as [|x run IH]; cbn [app].
  - destruct s as [|y s]; [reflexivity|]. cbn [startsSpace] in Hs.
    cbn [collapse_ws]. rewrite Hs. reflexivity.
  - cbn [forallb] in Hrun. apply andb_true_iff in Hrun. destruct Hrun as [Hx Hrun].
    cbn [collapse_ws]. rewrite Hx. apply IH. exact Hrun.
Qed.

Lemma startsSpace_skipn (s : str) :
  startsSpace (skipn (run_length is_space s) s) = false.
Proof.
  induction s as [|x s IH]; [reflexivity|]. cbn [run_length].
  destruct (is_space x) eqn:E; [exact IH|]. cbn [skipn startsSpace]. exact E.
Qed.

Lemma firstn_run_space (s : str) :
  forallb is_space (firstn (run_length is_space s) s) = true.
Proof.
  induction s as [|x s IH]; [reflexivity|]. cbn [run_length].
  destruct (is_space x) eqn:E; [|reflexivity]. cbn [firstn forallb].
  rewrite E, IH. reflexivity.
Qed.

(** [replace(/\s+/g, ' ')] does what the specification says. *)
Lemma replace_ws_runs_collapsed (s : str) : collapsed s (replace_ws_runs s).
Proof.
  unfold replace_ws_runs.
  remember (List.length s) as n eqn:Hn. revert s Hn.
  induction n as [n IH] using lt_wf_ind. intros s Hn.
  destruct s as [|x t]; [constructor|].
  cbn [collapse_ws]. destruct (is_space x) eqn:E.
  - pose proof (collapse_ws_run (firstn (run_length is_space t) t)
                  (skipn (run_length is_space t) t)
                  (firstn_run_space t) (startsSpace_skipn t)) as Ec.
    rewrite firstn_skipn in Ec. rewrite Ec.
    replace (x :: t)
      with ((x :: firstn (run_length is_space t) t) ++ skipn (run_length is_space t) t)
      by (cbn [app]; rewrite firstn_skipn; reflexivity).
    apply collapsed_run.
    + discriminate.
    + cbn [forallb]. rewrite E. apply firstn_run_space.
    + apply startsSpace_skipn.
    + apply (IH (List.length (skipn (run_length is_space t) t))); [|reflexivity].
      subst n. rewrite length_skipn. cbn [List.length]. lia.
  - apply collapsed_char; [exact E|].
    apply (IH (List.length t)); [subst n; cbn [List.length]; lia|reflexivity].
Qed.

(** The specification leaves no choice. *)
Lemma collapsed_unique (s r : str) : collapsed s r -> r = replace_ws_runs s.
Proof.
  unfold replace_ws_runs. induction 1 as [|c s r Hc _ IH|run s r Hne Hrun Hs _ IH].
  - reflexivity.
  - cbn [collapse_ws]. rewrite Hc, IH. reflexivity.
  - destruct run as [|x run]; [congruence|].
    cbn [forallb] in Hrun. apply andb_true_iff in Hrun. destruct Hrun as [Hx Hrun].
    cbn [app collapse_ws]. rewrite Hx, (collapse_ws_run run s Hrun Hs), IH. reflexivity.
Qed.

End SvgEncoding.

(** C7: when an svg candidate is inlined without base64 forcing, the
    percent-escaped payload is the file text with the characters of the
    table replaced ([svgEscape]) and then each run of whitespace collapsed
    to one space ([collapsed], which leaves no choice), and the data URI
    emitted (between double quotes) is the shorter of
    [data:<mime>;base64,<data>] and [data:<mime>,<escaped>], the first on a
    tie. *)
Theorem svg_inline_encoding (fs : INodeFS) (path : INodePath)
    (fsP orig new url : str) (limit : Z) (buf : INodeBuffer) (w : World)
    (Hsvg : ends_with url $".svg" = true)
    (Hread : readFileSync fs (path_join path (dirname path fsP) url) = Some buf)
    (Hsmall : buf_length buf < limit) :
  exists escaped,
    collapsed (flat_map svgEscape (toString_utf8 buf)) escaped
    /\ (forall r, collapsed (flat_map svgEscape (toString_utf8 buf)) r -> r = escaped)
    /\ let base64Uri := $"data:image/svg+xml;base64," ++ toString_base64 buf in
       let escapedUri := $"data:image/svg+xml," ++ escaped in
       let uri := if len escapedUri <? len base64Uri then escapedUri else base64Uri in
       fst (inlineReplacer fs path fsP orig new false limit url w)
       = Ok ([DQUOTE] ++ uri ++ [DQUOTE])
       /\ len uri <= len base64Uri /\ len uri <= len escapedUri.
Proof.
  exists (replace_ws_runs (flat_map svgEscape (toString_utf8 buf))).
  split; [apply replace_ws_runs_collapsed|]. split; [apply collapsed_unique|].
  cbv zeta. split.
  - rewrite inlineReplacer_unfold. unfold isSvgOrPng. rewrite Hsvg. cbn [orb].
    cbv zeta. rewrite Hread.
    replace (buf_length buf <? limit) with true by (symmetry; apply Z.ltb_lt; lia).
    cbn [fst]. rewrite dataUri_svg by exact Hsvg. cbv zeta.
    rewrite svgText_table. reflexivity.
  - destruct (Z.ltb_spec
                (len ($"data:image/svg+xml," ++
                      replace_ws_runs (flat_map svgEscape (toString_utf8 buf))))
                (len ($"data:image/svg+xml;base64," ++ toString_base64 buf))); lia.
Qed.

Lemma svg_inline_encoding_witness :
  let text := $"<svg>" ++ ["010"%char; " "%char; " "%char] ++ $"<a b=" ++ [DQUOTE]
              ++ $"#1" ++ [DQUOTE] ++ $"/>" ++ ["009"%char; "010"%char] ++ $"</svg>" in
  let buf := mkBuffer 27 $"PHN2Zz4KICA8YSBiPSIjMSIvPgkKPC9zdmc+" text in
  exists escaped,
    collapsed (flat_map svgEscape (toString_utf8 buf)) escaped
    /\ (forall r, collapsed (flat_map svgEscape (toString_utf8 buf)) r -> r = escaped)
    /\ let base64Uri := $"data:image/svg+xml;base64," ++ toString_base64 buf in
       let escapedUri := $"data:image/svg+xml," ++ escaped in
       let uri := if len escapedUri <? len base64Uri then escapedUri else base64Uri in
       fst (inlineReplacer (mkFS (fun _ => Some buf)) posixPath
              $"/src/a/s.css" $"a/s" $"out/bundle" false 5000 $"dot.svg" w0)
       = Ok ([DQUOTE] ++ uri ++ [DQUOTE])
       /\ len uri <= len base64Uri /\ len uri <= len escapedUri.
Proof.
  cbv zeta.
  apply (svg_inline_encoding
           (mkFS (fun _ => Some (mkBuffer 27 $"PHN2Zz4KICA8YSBiPSIjMSIvPgkKPC9zdmc+"
                    ($"<svg>" ++ ["010"%char; " "%char; " "%char] ++ $"<a b=" ++ [DQUOTE]
                     ++ $"#1" ++ [DQUOTE] ++ $"/>" ++ ["009"%char; "010"%char]
                     ++ $"</svg>"))))
           posixPath $"/src/a/s.css" $"a/s" $"out/bundle" $"dot.svg" 5000
           (mkBuffer 27 $"PHN2Zz4KICA8YSBiPSIjMSIvPgkKPC9zdmc+"
              ($"<svg>" ++ ["010"%char; " "%char; " "%char] ++ $"<a b=" ++ [DQUOTE]
               ++ $"#1" ++ [DQUOTE] ++ $"/>" ++ ["009"%char; "010"%char] ++ $"</svg>"))
           w0).
  - reflexivity.
  - reflexivity.
  - cbn [buf_length]. lia.
Defined.

Example svg_escaped_run :
  svgText ($"<svg>" ++ ["010"%char; " "%char; " "%char] ++ $"<a b=" ++ [DQUOTE]
           ++ $"#1" ++ [DQUOTE] ++ $"/>" ++ ["009"%char; "010"%char] ++ $"</svg>")
  = $"%3Csvg%3E %3Ca b='%231'/%3E %3C/svg%3E".
Proof. vm_compute. reflexivity. Qed.

(** ** Read failures *)

Section ReadFailure.

Variable fs : INodeFS.
Variable path : INodePath.

(** The token captured as [m0] in [entry] is an inlining candidate whose
    file cannot be read. *)
Definition unreadable (entry : ICSSEntryPointData) (m0 : str) : Prop :=
  isQualified (unquote m0) = false
  /\ isSvgOrPng (unquote m0) = true
  /\ readFileSync fs (path_join path (dirname path (fsPath entry)) (unquote m0)) = None.

Lemma inline_callback_written fsP orig new force limit m0 w :
  written (snd (replaceCallback (inlineReplacer fs path fsP orig new force limit) m0 w))
  = written w.
Proof.
  rewrite replaceCallback_unfold. destruct (isQualified (unquote m0)); [reflexivity|].
  rewrite inlineReplacer_unfold. destruct (isSvgOrPng (unquote m0)); [|reflexivity].
  cbv zeta. destruct (readFileSync fs _) as [buf|]; [|reflexivity].
  destruct (buf_length buf <? limit); reflexivity.
Qed.

Lemma inline_chunks_written fsP orig new force limit cs : forall w,
  written (snd (replaceChunks (inlineReplacer fs path fsP orig new force limit) cs w))
  = written w.
Proof.
  induction cs as [|c cs IH]; intros w; [reflexivity|].
  cbn [replaceChunks]. destruct c as [x|m0]; unfold bind.
  - specialize (IH w).
    destruct (replaceChunks _ cs w) as [[rest|e] w1]; exact IH.
  - pose proof (inline_callback_written fsP orig new force limit m0 w) as Hc.
    destruct (replaceCallback _ m0 w) as [[r|e] w1]; [|exact Hc].
    cbn [snd] in Hc. specialize (IH w1).
    destruct (replaceChunks _ cs w1) as [[rest|e] w2]; unfold ret;
      cbn [snd] in *; congruence.
Qed.

Lemma unreadable_callback_throws entry newFile force limit m0 w :
  unreadable entry m0 ->
  let p := path_join path (dirname path (fsPath entry)) (unquote m0) in
  replaceCallback
    (inlineReplacer fs path (fsPath entry) (moduleName entry) newFile force limit) m0 w
  = (Throw (ReadError p), mkWorld (inlinedResources w) (fsReads w ++ [p]) (written w)).
Proof.
  intros [Q [X R]]. cbv zeta.
  rewrite replaceCallback_unfold, Q, inlineReplacer_unfold, X. cbv zeta.
  rewrite R. reflexivity.
Qed.

Lemma unreadable_chunks_throw entry newFile force limit m0 cs : forall w,
  In (Match m0) cs -> unreadable entry m0 ->
  exists e,
    fst (replaceChunks
           (inlineReplacer fs path (fsPath entry) (moduleName entry) newFile force limit)
           cs w) = Throw e.
Proof.
  induction cs as [|c cs IH]; intros w Hin Hbad; [contradiction|].
  cbn [replaceChunks]. destruct Hin as [->|Hin].
  - unfold bind. rewrite (unreadable_callback_throws entry newFile force limit m0 w Hbad).
    eexists. reflexivity.
  - destruct c as [x|m1]; unfold bind.
    + destruct (IH w Hin Hbad) as [e He].
      destruct (replaceChunks _ cs w) as [[rest|e'] w1]; [discriminate|].
      eexists. reflexivity.
    + destruct (replaceCallback _ m1 w) as [[r|e'] w1]; [|eexists; reflexivity].
      destruct (IH w1 Hin Hbad) as [e He].
      destruct (replaceChunks _ cs w1) as [[rest|e'] w2]; [discriminate|].
      eexists. reflexivity.
Qed.

Lemma rewriteEntry_written self newFile entry w :
  written (snd (rewriteEntry fs path self newFile entry w)) = written w.
Proof.
  unfold rewriteEntry. destruct (enabled (inlineResources self)).
  - apply inline_chunks_written.
  - unfold _rewriteUrls, replaceURL. generalize (scan (contents entry)) as cs.
    intros cs. revert w. induction cs as [|c cs IH]; intros w; [reflexivity|].
    cbn [replaceChunks]. destruct c as [x|m0]; unfold bind.
    + specialize (IH w). destruct (replaceChunks _ cs w) as [[rest|e] w1]; exact IH.
    + rewrite replaceCallback_unfold.
      destruct (isQualified (unquote m0)); unfold rewriteReplacer, ret;
        specialize (IH w); destruct (replaceChunks _ cs w) as [[rest|e] w1]; exact IH.
Qed.

Lemma rewriteEntries_written self newFile entries : forall acc w,
  written (snd (rewriteEntries fs path self newFile entries acc w)) = written w.
Proof.
  induction entries as [|entry rest IH]; intros acc w; [reflexivity|].
  cbn [rewriteEntries]. unfold bind.
  pose proof (rewriteEntry_written self newFile entry w) as He.
  destruct (rewriteEntry fs path self newFile entry w) as [[out|e] w1]; [|exact He].
  cbn [snd] in He. rewrite IH. exact He.
Qed.

Lemma unreadable_entries_throw self newFile entries entry m0 : forall acc w,
  enabled (inlineResources self) = true ->
  In entry entries -> In (Match m0) (scan (contents entry)) -> unreadable entry m0 ->
  exists e, fst (rewriteEntries fs path self newFile entries acc w) = Throw e.
Proof.
  intros acc w Hon Hin Htok Hbad. revert acc w.
  induction entries as [|entry1 rest IH]; intros acc w; [contradiction|].
  cbn [rewriteEntries]. unfold bind. destruct Hin as [->|Hin].
  - rewrite rewriteEntry_enabled by exact Hon.
    destruct (unreadable_chunks_throw entry newFile (is_base64 (inlineResources self))
                (inlineResourcesLimit self) m0 (scan (contents entry)) w Htok Hbad)
      as [e He].
    destruct (replaceChunks _ (scan (contents entry)) w) as [[out|e'] w1];
      [discriminate|]. eexists. reflexivity.
  - destruct (rewriteEntry fs path self newFile entry1 w) as [[out|e'] w1];
      [|eexists; reflexivity].
    apply (IH Hin).
Qed.

(** A read failure leaves [writeFile] by an exception, before the host's
    [write] callback is reached. *)
Lemma unreadable_writeFile_throws self name toUrl entries entry m0 w :
  enabled (inlineResources self) = true ->
  entryPointsOf (_entryPoints self) name = Some entries ->
  In entry entries -> In (Match m0) (scan (contents entry)) -> unreadable entry m0 ->
  (exists e, fst (writeFile fs path self name toUrl w) = Throw e)
  /\ written (snd (writeFile fs path self name toUrl w)) = written w.
Proof.
  intros Hon Hent Hin Htok Hbad. unfold writeFile. rewrite Hent. unfold bind.
  destruct (unreadable_entries_throw self name entries entry m0 banner w
              Hon Hin Htok Hbad) as [e He].
  pose proof (rewriteEntries_written self name entries banner w) as Hw.
  destruct (rewriteEntries fs path self name entries banner w) as [[out|e'] w1];
    [discriminate|].
  split; [eexists; reflexivity|exact Hw].
Qed.

(** Without inlining nothing is read and nothing throws. *)
Lemma rewrite_chunks_pure orig new cs w :
  exists out, replaceChunks (rewriteReplacer orig new) cs w = (Ok out, w).
Proof.
  induction cs as [|c cs [out IH]]; [eexists; reflexivity|].
  cbn [replaceChunks]. destruct c as [x|m0]; unfold bind.
  - rewrite IH. eexists. reflexivity.
  - rewrite replaceCallback_unfold.
    destruct (isQualified (unquote m0)); unfold rewriteReplacer, ret in *;
      cbv beta iota; rewrite IH; eexists; reflexivity.
Qed.

Lemma rewriteEntries_disabled self newFile entries : forall acc w,
  enabled (inlineResources self) = false ->
  exists out, rewriteEntries fs path self newFile entries acc w = (Ok out, w).
Proof.
  induction entries as [|entry rest IH]; intros acc w Hoff; [eexists; reflexivity|].
  cbn [rewriteEntries]. unfold bind. rewrite rewriteEntry_disabled by exact Hoff.
  destruct (rewrite_chunks_pure (moduleName entry) newFile (scan (contents entry)) w)
    as [out ->].
  apply IH. exact Hoff.
Qed.

Lemma writeFile_disabled self name toUrl entries w :
  enabled (inlineResources self) = false ->
  entryPointsOf (_entryPoints self) name = Some entries ->
  exists blob,
    writeFile fs path self name toUrl w
    = (Ok tt, mkWorld (inlinedResources w) (fsReads w)
                (written w ++ [(toUrl (name ++ $".css"), blob)])).
Proof.
  intros Hoff Hent. unfold writeFile. rewrite Hent. unfold bind.
  destruct (rewriteEntries_disabled self name entries banner w Hoff) as [out ->].
  eexists. reflexivity.
Qed.

End ReadFailure.

Module FailSamples.

(** A stylesheet of the bundle [out/bundle] that refers to an image the
    disk does not have. *)
Definition brokenEntry : ICSSEntryPointData :=
  mkEntry $"a/s" $"a { background: url( 'missing.png' ) }" $"/src/a/s.css".

Definition brokenEntryPoints : list (str * list ICSSEntryPointData) :=
  [($"out/bundle", [brokenEntry])].

Definition toUrl (name : str) : str := $"/out/" ++ name.

End FailSamples.

Import FailSamples.

(** C8: if reading an inlining candidate fails, the replacer throws for
    that token instead of falling back to a rewritten path, the exception
    leaves [writeFile], and the host's [write] callback has not been called:
    no blob is registered for the unit. *)
Theorem read_failure_aborts (fs : INodeFS) (path : INodePath) (self : Plugin)
    (name : str) (toUrl : str -> str) (entries : list ICSSEntryPointData)
    (entry : ICSSEntryPointData) (m0 : str) (w : World)
    (Hon : enabled (inlineResources self) = true)
    (Hent : entryPointsOf (_entryPoints self) name = Some entries)
    (Hin : In entry entries)
    (Htok : In (Match m0) (scan (contents entry)))
    (Hbad : unreadable fs path entry m0) :
  let p := path_join path (dirname path (fsPath entry)) (unquote m0) in
  (forall w1,
     replaceCallback
       (inlineReplacer fs path (fsPath entry) (moduleName entry) name
          (is_base64 (inlineResources self)) (inlineResourcesLimit self)) m0 w1
     = (Throw (ReadError p),
        mkWorld (inlinedResources w1) (fsReads w1 ++ [p]) (written w1)))
  /\ (exists e, fst (writeFile fs path self name toUrl w) = Throw e)
  /\ written (snd (writeFile fs path self name toUrl w)) = written w.
Proof.
  cbv zeta. split.
  - intros w1. apply unreadable_callback_throws. exact Hbad.
  - apply (unreadable_writeFile_throws fs path self name toUrl entries entry m0 w);
      assumption.
Qed.

Lemma read_failure_aborts_witness :
  let self := mkPlugin IR_true 5000 brokenEntryPoints in
  let p := path_join posixPath (dirname posixPath (fsPath brokenEntry))
             (unquote $"'missing.png' ") in
  (forall w1,
     replaceCallback
       (inlineReplacer disk posixPath (fsPath brokenEntry) (moduleName brokenEntry)
          $"out/bundle" (is_base64 (inlineResources self)) (inlineResourcesLimit self))
       $"'missing.png' " w1
     = (Throw (ReadError p),
        mkWorld (inlinedResources w1) (fsReads w1 ++ [p]) (written w1)))
  /\ (exists e, fst (writeFile disk posixPath self $"out/bundle" toUrl w0) = Throw e)
  /\ written (snd (writeFile disk posixPath self $"out/bundle" toUrl w0)) = written w0.
Proof.
  apply (read_failure_aborts disk posixPath (mkPlugin IR_true 5000 brokenEntryPoints)
           $"out/bundle" toUrl [brokenEntry] brokenEntry $"'missing.png' " w0).
  - reflexivity.
  - reflexivity.
  - left. reflexivity.
  - vm_compute. repeat (first [left; reflexivity | right]).
  - unfold unreadable. repeat split; vm_compute; reflexivity.
Defined.

(** C9: whenever inlining is enabled, a relative token ending in [.svg]
    or [.png] makes the replacer read the file, whatever the limit and
    whatever the file holds; so a candidate that cannot be read aborts
    [writeFile] for every limit, while with inlining disabled the same
    stylesheet is written without any read. *)
Theorem read_precedes_size_check (fs : INodeFS) (path : INodePath)
    (mode : InlineResources) (eps : list (str * list ICSSEntryPointData))
    (name : str) (toUrl : str -> str) (entries : list ICSSEntryPointData)
    (entry : ICSSEntryPointData) (m0 : str) (w : World)
    (Hon : enabled mode = true)
    (Hent : entryPointsOf eps name = Some entries)
    (Hin : In entry entries)
    (Htok : In (Match m0) (scan (contents entry)))
    (Hbad : unreadable fs path entry m0) :
  let p := path_join path (dirname path (fsPath entry)) (unquote m0) in
  (forall fs' force limit w1,
     fsReads (snd (replaceCallback
                     (inlineReplacer fs' path (fsPath entry) (moduleName entry) name
                        force limit) m0 w1))
     = fsReads w1 ++ [p])
  /\ (forall limit,
        exists e, fst (writeFile fs path (mkPlugin mode limit eps) name toUrl w) = Throw e)
  /\ (forall limit,
        exists blob,
          writeFile fs path (mkPlugin IR_false limit eps) name toUrl w
          = (Ok tt, mkWorld (inlinedResources w) (fsReads w)
                      (written w ++ [(toUrl (name ++ $".css"), blob)]))).
Proof.
  cbv zeta. destruct Hbad as [Q [X R]]. split; [|split].
  - intros fs' force limit w1.
    rewrite replaceCallback_unfold, Q, inlineReplacer_unfold, X. cbv zeta.
    destruct (readFileSync fs' _) as [buf|]; [|reflexivity].
    destruct (buf_length buf <? limit); reflexivity.
  - intros limit.
    apply (unreadable_writeFile_throws fs path (mkPlugin mode limit eps) name toUrl
             entries entry m0 w); try assumption.
    repeat split; assumption.
  - intros limit.
    apply (writeFile_disabled fs path (mkPlugin IR_false limit eps) name toUrl entries w);
      [reflexivity|assumption].
Qed.

Lemma read_precedes_size_check_witness :
  let p := path_join posixPath (dirname posixPath (fsPath brokenEntry))
             (unquote $"'missing.png' ") in
  (forall fs' force limit w1,
     fsReads (snd (replaceCallback
                     (inlineReplacer fs' posixPath (fsPath brokenEntry)
                        (moduleName brokenEntry) $"out/bundle" force limit)
                     $"'missing.png' " w1))
     = fsReads w1 ++ [p])
  /\ (forall limit,
        exists e, fst (writeFile disk posixPath (mkPlugin IR_base64 limit brokenEntryPoints)
                         $"out/bundle" toUrl w0) = Throw e)
  /\ (forall limit,
        exists blob,
          writeFile disk posixPath (mkPlugin IR_false limit brokenEntryPoints)
            $"out/bundle" toUrl w0
          = (Ok tt, mkWorld (inlinedResources w0) (fsReads w0)
                      (written w0 ++ [(toUrl ($"out/bundle" ++ $".css"), blob)]))).
Proof.
  apply (read_precedes_size_check disk posixPath IR_base64 brokenEntryPoints
           $"out/bundle" toUrl [brokenEntry] brokenEntry $"'missing.png' " w0).
  - reflexivity.
  - reflexivity.
  - left. reflexivity.
  - vm_compute. repeat (first [left; reflexivity | right]).
  - unfold unreadable. repeat split; vm_compute; reflexivity.
Defined.

(** ** The scan at a token *)

Section ScanToken.














End ScanToken.

Section ScanFacts.

Lemma scan_unfold s :
  scan s = match s with
           | [] => []
           | c :: t => match exec_url s with
                       | Some (cap, rest) => Match cap :: scan rest
                       | None => Text c :: scan t
                       end
           end.
Proof.
  funelim (scan s).
  - reflexivity.
  - rewrite e. reflexivity.
  - rewrite e. reflexivity.
Qed.

End ScanFacts.

Section TokenMatch.



Lemma exec_star_unfold r (s cap : str) :
  exec (mkAtom is_space Star false :: r) s cap
  = greedy (fun n => exec r (skipn n s) cap) 0 (run_length is_space s).
Proof.
  cbn [exec cls qnt captured min_count max_count].
  rewrite Nat.sub_0_r. reflexivity.
Qed.




End TokenMatch.

Example missing_paren_run :
  _rewriteUrls $"a/b/style" $"out/bundle" $"x url( '../img/x.png' " w0
  = (Ok $"x url(../a/img/x.png)", w0).
Proof. vm_compute. reflexivity. Qed.

(** ** Round trip of [relativePath] through [joinPaths] *)

Section Pieces.

(** A complete piece: a slash-free name followed by one slash. *)
Definition complete (p : str) : Prop :=
  exists n, p = n ++ [SLASH] /\ ~ In SLASH n.

Lemma segments_piece (n rest : str) :
  ~ In SLASH n -> segments (n ++ SLASH :: rest) = (n ++ [SLASH]) :: segments rest.
Proof.
  induction n as [|x n IH]; intros Hn.
  - reflexivity.
  - cbn [app segments]. destruct (Ascii.eqb x SLASH) eqn:E.
    + apply Ascii.eqb_eq in E. exfalso. apply Hn. left. exact E.
    + rewrite IH by (intros Hin; apply Hn; right; exact Hin). reflexivity.
Qed.

Lemma segments_complete_app L (b : str) :
  Forall complete L -> segments (List.concat L ++ b) = L ++ segments b.
Proof.
  induction 1 as [|p L [n [-> Hn]] _ IH]; [reflexivity|].
  cbn [List.concat app]. rewrite <- !app_assoc. cbn [app].
  rewrite segments_piece by exact Hn. rewrite IH. reflexivity.
Qed.

Lemma segments_complete_concat L :
  Forall complete L -> segments (List.concat L) = L.
Proof.
  intros H. pose proof (segments_complete_app L [] H) as E.
  cbn [segments] in E. rewrite !app_nil_r in E. exact E.
Qed.

Lemma closed_tail x (t : str) : closed (x :: t) -> x <> SLASH -> t <> [] /\ closed t.
Proof.
  intros [H|[q Hq]] Hx; [discriminate|].
  destruct q as [|y q]; cbn [app] in Hq.
  - injection Hq as -> _. congruence.
  - injection Hq as -> ->. split; [destruct q; discriminate|].
    right. exists q. reflexivity.
Qed.

Lemma closed_tail_slash (t : str) : closed (SLASH :: t) -> closed t.
Proof.
  intros [H|[q Hq]]; [discriminate|].
  destruct q as [|y q]; cbn [app] in Hq.
  - injection Hq as ->. left. reflexivity.
  - injection Hq as _ ->. right. exists q. reflexivity.
Qed.

Lemma segments_closed_complete (s : str) : closed s -> Forall complete (segments s).
Proof.
  induction s as [|x t IH]; intros Hc; [constructor|].
  cbn [segments]. destruct (Ascii.eqb x SLASH) eqn:E.
  - apply Ascii.eqb_eq in E. subst x. constructor.
    + exists []. split; [reflexivity|intros []].
    + apply IH. apply closed_tail_slash. exact Hc.
  - apply Ascii.eqb_neq in E. destruct (closed_tail x t Hc E) as [Hne Hct].
    specialize (IH Hct). destruct (segments t) as [|p ps] eqn:Es.
    + exfalso. apply Hne. rewrite <- (concat_segments t), Es. reflexivity.
    + inversion IH as [|? ? [n [-> Hn]] Hps]; subst. constructor; [|exact Hps].
      exists (x :: n). split; [reflexivity|].
      intros [H|H]; [congruence|contradiction].
Qed.

(** Cutting after a slash cuts between two pieces. *)
Lemma segments_app_closed (a b : str) :
  closed a -> segments (a ++ b) = segments a ++ segments b.
Proof.
  intros Hc. rewrite <- (concat_segments a) at 1.
  apply segments_complete_app. apply segments_closed_complete. exact Hc.
Qed.

Lemma segments_slash_free (f : str) :
  ~ In SLASH f -> segments f = match f with [] => [] | _ => [f] end.
Proof.
  induction f as [|x f IH]; intros Hf; [reflexivity|].
  cbn [segments]. destruct (Ascii.eqb x SLASH) eqn:E.
  - apply Ascii.eqb_eq in E. exfalso. apply Hf. left. exact E.
  - rewrite IH by (intros Hin; apply Hf; right; exact Hin).
    destruct f; reflexivity.
Qed.

Lemma count_slash_concat L :
  Forall complete L -> count_occ ascii_dec (List.concat L) SLASH = List.length L.
Proof.
  induction 1 as [|p L [n [-> Hn]] _ IH]; [reflexivity|].
  cbn [List.concat List.length]. rewrite !count_occ_app, IH.
  rewrite (proj1 (count_occ_not_In ascii_dec n SLASH) Hn).
  cbn [count_occ]. destruct (ascii_dec SLASH SLASH); [reflexivity|congruence].
Qed.

Lemma count_slash_closed (s : str) :
  closed s -> count_occ ascii_dec s SLASH = List.length (segments s).
Proof.
  intros Hc. rewrite <- (concat_segments s) at 1.
  apply count_slash_concat. apply segments_closed_complete. exact Hc.
Qed.

Lemma closed_concat L : Forall complete L -> closed (List.concat L).
Proof.
  intros H. destruct L as [|p L] using rev_ind; [left; reflexivity|].
  apply Forall_app in H. destruct H as [_ H]. inversion H as [|? ? [n [-> _]] _]; subst.
  right. exists (List.concat L ++ n).
  rewrite concat_app. cbn [List.concat]. rewrite app_nil_r, app_assoc. reflexivity.
Qed.

End Pieces.

Section Stack.

(** A stack on which every piece was really pushed: pushing its pieces
    again, in order, rebuilds it. *)
Inductive canon : list str -> Prop :=
| canon_nil : canon []
| canon_snoc P p : canon P -> pushPiece P p = P ++ [p] -> canon (P ++ [p]).

Lemma pushPiece_cases P p :
  pushPiece P p = P \/ pushPiece P p = removelast P \/ pushPiece P p = P ++ [p].
Proof.
  unfold pushPiece. destruct (str_eqb p $"./"); [tauto|].
  destruct (str_eqb p $"../"); [|tauto].
  destruct (prevPieceOf P) as [prev|]; [|tauto].
  destruct (truthy prev && str_eqb prev $"/"); [tauto|].
  destruct (truthy prev && negb (str_eqb prev $"../")); tauto.
Qed.

Lemma canon_removelast P : canon P -> canon (removelast P).
Proof.
  intros H. inversion H as [|P' p HP' _]; [constructor|].
  rewrite removelast_last. exact HP'.
Qed.

Lemma canon_pushPiece P p : canon P -> canon (pushPiece P p).
Proof.
  intros H. destruct (pushPiece_cases P p) as [E|[E|E]]; rewrite E.
  - exact H.
  - apply canon_removelast. exact H.
  - apply canon_snoc; assumption.
Qed.

Lemma canon_fold segs : forall P, canon P -> canon (fold_left pushPiece segs P).
Proof.
  induction segs as [|s segs IH]; intros P H; [exact H|].
  cbn [fold_left]. apply IH. apply canon_pushPiece. exact H.
Qed.

Lemma canon_app_l A B : canon (A ++ B) -> canon A.
Proof.
  induction B as [|x B IH] using rev_ind; intros H.
  - rewrite app_nil_r in H. exact H.
  - rewrite app_assoc in H. inversion H as [E|P p HP _ E].
    + destruct (A ++ B); discriminate.
    + apply app_inj_tail in E. destruct E as [-> _]. apply IH. exact HP.
Qed.

Lemma canon_last A b : canon (A ++ [b]) -> pushPiece A b = A ++ [b].
Proof.
  intros H. inversion H as [E|P p _ Hp E].
  - destruct A; discriminate.
  - apply app_inj_tail in E. destruct E as [-> ->]. exact Hp.
Qed.

(** Pushing the upper part of a canonical stack onto its lower part
    rebuilds the stack. *)
Lemma canon_repush B : forall A, canon (A ++ B) -> fold_left pushPiece B A = A ++ B.
Proof.
  induction B as [|b B IH]; intros A H.
  - rewrite app_nil_r. reflexivity.
  - cbn [fold_left].
    replace (A ++ b :: B) with ((A ++ [b]) ++ B) in * by (rewrite <- app_assoc; reflexivity).
    rewrite (canon_last A b (canon_app_l _ _ H)). apply IH. exact H.
Qed.

Lemma pushPiece_Forall (Q : str -> Prop) P p :
  Forall Q P -> Q p -> Forall Q (pushPiece P p).
Proof.
  intros HP Hp. destruct (pushPiece_cases P p) as [E|[E|E]]; rewrite E.
  - exact HP.
  - apply Forall_removelast. exact HP.
  - apply Forall_app. split; [exact HP|constructor; [exact Hp|constructor]].
Qed.

Lemma fold_pushPiece_Forall (Q : str -> Prop) segs : forall P,
  Forall Q P -> Forall Q segs -> Forall Q (fold_left pushPiece segs P).
Proof.
  induction segs as [|s segs IH]; intros P HP Hs; [exact HP|].
  inversion Hs; subst. cbn [fold_left]. apply IH; [|assumption].
  apply pushPiece_Forall; assumption.
Qed.

(** A folder piece that [../] pops: not empty, not a root slash, not
    [./] and not [../]. *)
Definition plainPiece (p : str) : bool :=
  negb (str_eqb p []) && negb (str_eqb p $"/")
  && negb (str_eqb p $"./") && negb (str_eqb p $"../").

Lemma plainPiece_spec p :
  plainPiece p = true ->
  str_eqb p [] = false /\ str_eqb p $"/" = false
  /\ str_eqb p $"./" = false /\ str_eqb p $"../" = false.
Proof.
  unfold plainPiece. rewrite !andb_true_iff, !negb_true_iff. tauto.
Qed.

Lemma pushPiece_plain P p : plainPiece p = true -> pushPiece P p = P ++ [p].
Proof.
  intros H. apply plainPiece_spec in H. destruct H as [_ [_ [H1 H2]]].
  unfold pushPiece. rewrite H1, H2. reflexivity.
Qed.

Lemma canon_plain D : forallb plainPiece D = true -> canon D.
Proof.
  induction D as [|x D IH] using rev_ind; intros H; [constructor|].
  rewrite forallb_app in H. apply andb_true_iff in H. destruct H as [HD Hx].
  cbn [forallb] in Hx. rewrite andb_true_r in Hx.
  apply canon_snoc; [apply IH; exact HD|apply pushPiece_plain; exact Hx].
Qed.

Lemma fold_plain D : forall P,
  forallb plainPiece D = true -> fold_left pushPiece D P = P ++ D.
Proof.
  induction D as [|x D IH]; intros P H; cbn [fold_left].
  - rewrite app_nil_r. reflexivity.
  - cbn [forallb] in H. apply andb_true_iff in H. destruct H as [Hx HD].
    rewrite pushPiece_plain by exact Hx. rewrite IH by exact HD.
    rewrite <- app_assoc. reflexivity.
Qed.

Lemma pushPiece_pop Q x : plainPiece x = true -> pushPiece (Q ++ [x]) $"../" = Q.
Proof.
  intros H. apply plainPiece_spec in H. destruct H as [H0 [H1 [_ H2]]].
  unfold pushPiece. rewrite prevPieceOf_rev, rev_app_distr. cbn [rev app].
  change (str_eqb $"../" $"./") with false. change (str_eqb $"../" $"../") with true.
  cbv beta iota. unfold truthy. rewrite H0, H1, H2. cbn [negb andb].
  apply removelast_last.
Qed.

(** As many [../] as there are plain pieces on top pop them all. *)
Lemma fold_pops F : forall K,
  forallb plainPiece F = true ->
  fold_left pushPiece (repeat $"../" (List.length F)) (K ++ F) = K.
Proof.
  induction F as [|x F IH] using rev_ind; intros K H.
  - rewrite app_nil_r. reflexivity.
  - rewrite forallb_app in H. apply andb_true_iff in H. destruct H as [HF Hx].
    cbn [forallb] in Hx. rewrite andb_true_r in Hx.
    rewrite length_app. cbn [List.length]. rewrite Nat.add_1_r.
    cbn [repeat fold_left]. rewrite app_assoc, pushPiece_pop by exact Hx.
    apply IH. exact HF.
Qed.

End Stack.

Section RoundTrip.

Lemma pathOf_split filename :
  exists file,
    filename = pathOf filename ++ file /\ ~ In SLASH file /\ closed (pathOf filename).
Proof.
  unfold pathOf, lastIndexOf.
  destruct (find_last_char SLASH filename) as [j|] eqn:E.
  - replace (negb (Z.of_nat j =? -1)) with true
      by (symmetry; apply negb_true_iff, Z.eqb_neq; lia).
    replace (Z.of_nat j + 1) with (Z.of_nat (S j)) by lia. rewrite substr_0.
    exists (skipn (S j) filename). split; [symmetry; apply firstn_skipn|].
    split; [apply find_last_char_after; exact E|].
    right. exists (firstn j filename). apply firstn_succ_nth.
    apply find_last_char_nth. exact E.
  - cbn [negb Z.eqb]. exists filename. split; [reflexivity|].
    split; [apply find_last_char_none; exact E|left; reflexivity].
Qed.

(** No piece is a lone slash. *)
Definition noRootPiece (pieces : list str) : bool :=
  forallb (fun p => negb (str_eqb p $"/")) pieces.

(** A text without empty segment is neither absolute nor qualified by a
    protocol. *)
Lemma noRootPiece_unqualified (s : str) :
  noRootPiece (segments s) = true ->
  startsWith s $"/" = false /\ startsWith s $"//" = false
  /\ startsWith s $"http://" = false /\ startsWith s $"https://" = false.
Proof.
  intros H. repeat split.
  - destruct (startsWith s $"/") eqn:E; [|reflexivity].
    apply startsWith_spec in E. destruct E as [t ->]. discriminate H.
  - destruct (startsWith s $"//") eqn:E; [|reflexivity].
    apply startsWith_spec in E. destruct E as [t ->]. discriminate H.
  - destruct (startsWith s $"http://") eqn:E; [|reflexivity].
    apply startsWith_spec in E. destruct E as [t ->]. discriminate H.
  - destruct (startsWith s $"https://") eqn:E; [|reflexivity].
    apply startsWith_spec in E. destruct E as [t ->]. discriminate H.
Qed.

Lemma plain_noRoot D : forallb plainPiece D = true -> noRootPiece D = true.
Proof.
  unfold noRootPiece. induction D as [|x D IH]; [reflexivity|]. cbn [forallb].
  rewrite !andb_true_iff. intros [Hx HD]. split; [|apply IH; exact HD].
  apply plainPiece_spec in Hx. destruct Hx as [_ [-> _]]. reflexivity.
Qed.

Lemma aPathStartIndexOf_unqualified a :
  noRootPiece (segments a) = true -> aPathStartIndexOf a = 0.
Proof.
  intros H. destruct (noRootPiece_unqualified a H) as [_ [H1 [H2 H3]]].
  unfold aPathStartIndexOf, findSlashIndexAfterPrefix. rewrite H1, H2, H3. reflexivity.
Qed.

(** [joinPaths] on a base without protocol and a relative path. *)
Lemma joinPaths_relative a b :
  aPathStartIndexOf a = 0 -> startsWith b $"/" = false ->
  joinPaths a b
  = List.concat (fold_left pushPiece (segments b) (fold_left pushPiece (segments a) [])).
Proof.
  intros H0 Hb. unfold joinPaths, join. rewrite H0, starts_slash_charAt, Hb.
  change 0 with (Z.of_nat 0). rewrite substr_from_nat, substring_0, !push_segments.
  reflexivity.
Qed.

Lemma noRootPiece_Forall L :
  noRootPiece L = true <-> Forall (fun p => p <> $"/") L.
Proof.
  unfold noRootPiece. rewrite forallb_forall, Forall_forall.
  split; intros H p Hp; specialize (H p Hp).
  - apply negb_true_iff, str_eqb_neq in H. exact H.
  - apply negb_true_iff, str_eqb_neq. exact H.
Qed.

Lemma segments_repeat_up m :
  segments (List.concat (repeat $"../" m)) = repeat $"../" m.
Proof.
  apply segments_complete_concat. apply Forall_forall. intros p Hp.
  apply repeat_spec in Hp. subst p. exists (lit ".."). split; [reflexivity|].
  intros [H|[H|[]]]; discriminate.
Qed.

Lemma closed_repeat_up m : closed (List.concat (repeat $"../" m)).
Proof.
  apply closed_concat. apply Forall_forall. intros p Hp.
  apply repeat_spec in Hp. subst p. exists (lit ".."). split; [reflexivity|].
  intros [H|[H|[]]]; discriminate.
Qed.

End RoundTrip.

Section RoundTripProof.

Lemma pushPiece_slash_free P p : ~ In SLASH p -> pushPiece P p = P ++ [p].
Proof.
  intros H. unfold pushPiece.
  destruct (str_eqb p $"./") eqn:E1.
  - apply str_eqb_eq in E1. subst p. exfalso. apply H. right. left. reflexivity.
  - destruct (str_eqb p $"../") eqn:E2; [|reflexivity].
    apply str_eqb_eq in E2. subst p. exfalso. apply H. right. right. left. reflexivity.
Qed.

(** The stack left by pushing the pieces of a text on complete pieces is
    the list of pieces of its own concatenation. *)
Lemma fold_segments_wf D rel :
  Forall complete D ->
  let P := fold_left pushPiece (segments rel) D in
  segments (List.concat P) = P.
Proof.
  intros HD. cbv zeta.
  destruct (pathOf_split rel) as [fr [Hrel [Hfr Hcr]]].
  rewrite Hrel at 1 2. rewrite segments_app_closed by exact Hcr.
  rewrite !fold_left_app.
  assert (HP1 : Forall complete (fold_left pushPiece (segments (pathOf rel)) D)).
  { apply fold_pushPiece_Forall; [exact HD|].
    apply segments_closed_complete. exact Hcr. }
  rewrite (segments_slash_free fr Hfr). destruct fr as [|x fr].
  - cbn [fold_left]. apply segments_complete_concat. exact HP1.
  - cbn [fold_left]. rewrite (pushPiece_slash_free _ _ Hfr).
    rewrite concat_app. cbn [List.concat]. rewrite app_nil_r.
    rewrite (segments_complete_app _ _ HP1).
    rewrite (segments_slash_free _ Hfr). reflexivity.
Qed.

(** A closed prefix of a file name lies within its folder part. *)
Lemma closed_prefix_in_path (base file pre rest : str) :
  ~ In SLASH file -> closed base -> closed pre ->
  base ++ file = pre ++ rest ->
  exists b, base = pre ++ b /\ rest = b ++ file /\ closed b.
Proof.
  intros Hfile Hcb Hcp E.
  assert (Hsplit : exists b, base = pre ++ b /\ rest = b ++ file).
  { apply app_eq_app in E. destruct E as [l [[E1 E2]|[E1 E2]]].
    - exists l. split; assumption.
    - destruct l as [|z l _] using rev_ind.
      + exists []. rewrite app_nil_r in E1. cbn [app] in E2. subst.
        rewrite app_nil_r. split; reflexivity.
      + exfalso. destruct Hcp as [->|[q ->]].
        * symmetry in E1. apply app_eq_nil in E1. destruct E1 as [_ E1].
          apply app_eq_nil in E1. destruct E1 as [_ E1]. discriminate.
        * rewrite app_assoc in E1. apply app_inj_tail in E1.
          destruct E1 as [_ <-]. apply Hfile. rewrite E2.
          apply in_or_app. left. apply in_or_app. right. left. reflexivity. }
  destruct Hsplit as [b [E1 E2]]. exists b. repeat split; try assumption.
  destruct b as [|z b _] using rev_ind; [left; reflexivity|].
  destruct Hcb as [Hb|[q Hq]].
  - rewrite Hb in E1. symmetry in E1. apply app_eq_nil in E1. destruct E1 as [_ E1].
    apply app_eq_nil in E1. destruct E1 as [_ E1]. discriminate.
  - rewrite Hq, app_assoc in E1. apply app_inj_tail in E1. destruct E1 as [_ <-].
    right. exists b. reflexivity.
Qed.

End RoundTripProof.

(** The folder part of [from] is made of plain folder names: no protocol,
    no leading slash, no empty, [.] or [..] segment. *)
Definition plainLocation (fromPath : str) : bool :=
  forallb plainPiece (segments (pathOf fromPath)).

(** [rel] has no empty segment: it neither starts with a slash nor
    contains two slashes in a row. *)
Definition noEmptySegment (rel : str) : bool := noRootPiece (segments rel).

(** C5 (as stated), refuted: for [from = http://host/a/x.css] and
    [rel = img.png] the second join does not give back the absolute
    location; nor does it for [from = ./a/x.css] and [rel = c], nor for
    [from = a/x.css] and [rel = .//b]. *)
Lemma roundtrip_fails :
  (let fromPath := $"http://host/a/x.css" in
   let abs := joinPaths (pathOf fromPath) $"img.png" in
   abs = $"http://host/a/img.png"
   /\ relativePath fromPath abs = $"http://host/a/img.png"
   /\ joinPaths (pathOf fromPath) (relativePath fromPath abs)
      = $"http://host/a/http://host/a/img.png"
   /\ joinPaths (pathOf fromPath) (relativePath fromPath abs) <> abs)
  /\ (let fromPath := $"./a/x.css" in
      let abs := joinPaths (pathOf fromPath) $"c" in
      joinPaths (pathOf fromPath) (relativePath fromPath abs) <> abs)
  /\ (let fromPath := $"a/x.css" in
      let abs := joinPaths (pathOf fromPath) $".//b" in
      joinPaths (pathOf fromPath) (relativePath fromPath abs) <> abs).
Proof.
  cbv zeta. repeat split; try (vm_compute; reflexivity); vm_compute; discriminate.
Qed.

(** Round trip from a plain location. *)
Lemma roundtrip_plain (fromPath rel : str)
    (Hfrom : plainLocation fromPath = true)
    (Hrel : noEmptySegment rel = true) :
  let abs := joinPaths (pathOf fromPath) rel in
  let r := relativePath fromPath abs in
  joinPaths (pathOf fromPath) r = abs.
Proof.
  cbv zeta. unfold plainLocation, noEmptySegment in *.
  destruct (pathOf_split fromPath) as [file [Hsplit [Hfile Hcb]]].
  set (base := pathOf fromPath) in *. set (D := segments base) in *.
  pose proof (plain_noRoot D Hfrom) as HDroot.
  pose proof (aPathStartIndexOf_unqualified base HDroot) as H0.
  destruct (noRootPiece_unqualified rel Hrel) as [Hrel0 _].
  (* the absolute location and its stack of pieces *)
  set (P := fold_left pushPiece (segments rel) D).
  assert (Eabs : joinPaths base rel = List.concat P).
  { rewrite joinPaths_relative by assumption. fold D.
    rewrite (fold_plain D [] Hfrom). reflexivity. }
  assert (HPseg : segments (List.concat P) = P).
  { apply fold_segments_wf. apply segments_closed_complete. exact Hcb. }
  assert (HPcanon : canon P).
  { apply canon_fold. apply canon_plain. exact Hfrom. }
  assert (HProot : noRootPiece P = true).
  { apply noRootPiece_Forall. apply fold_pushPiece_Forall; apply noRootPiece_Forall;
      assumption. }
  rewrite Eabs. set (abs := List.concat P) in *.
  assert (Habs : noRootPiece (segments abs) = true) by (rewrite HPseg; exact HProot).
  destruct (noRootPiece_unqualified abs Habs) as [Ha1 [_ [Ha2 Ha3]]].
  (* the relative path back *)
  rewrite relativePath_unfold, Ha1, Ha2, Ha3. cbn [orb]. cbv zeta.
  destruct (commonFolderPrefix_spec fromPath abs) as [Hf [Ha Hcp]].
  set (pre := commonFolderPrefix fromPath abs) in *.
  set (from' := skipn (List.length pre) fromPath) in *.
  set (to' := skipn (List.length pre) abs) in *.
  rewrite Hsplit in Hf.
  destruct (closed_prefix_in_path base file pre from' Hfile Hcb Hcp Hf)
    as [b [Hbase [Hfrom' Hclb]]].
  assert (HD : D = segments pre ++ segments b).
  { unfold D. rewrite Hbase. apply segments_app_closed. exact Hcp. }
  assert (HP : P = segments pre ++ segments to').
  { rewrite <- HPseg. rewrite Ha at 1. apply segments_app_closed. exact Hcp. }
  assert (Hcount : count_occ ascii_dec from' SLASH = List.length (segments b)).
  { rewrite Hfrom', count_occ_app, (count_slash_closed b Hclb).
    rewrite (proj1 (count_occ_not_In ascii_dec file SLASH) Hfile). lia. }
  rewrite Hcount.
  set (ups := List.concat (repeat $"../" (List.length (segments b)))).
  assert (Hr : segments (ups ++ to')
               = repeat $"../" (List.length (segments b)) ++ segments to').
  { rewrite segments_app_closed by apply closed_repeat_up.
    unfold ups. rewrite segments_repeat_up. reflexivity. }
  assert (Hrroot : noRootPiece (segments (ups ++ to')) = true).
  { rewrite Hr. unfold noRootPiece. rewrite forallb_app. apply andb_true_iff. split.
    - apply forallb_forall. intros p Hp. apply repeat_spec in Hp. subst p. reflexivity.
    - rewrite HP in HProot. unfold noRootPiece in HProot.
      rewrite forallb_app in HProot. apply andb_true_iff in HProot. tauto. }
  destruct (noRootPiece_unqualified _ Hrroot) as [Hr0 _].
  rewrite joinPaths_relative by assumption. fold D.
  rewrite (fold_plain D [] Hfrom). cbn [app].
  rewrite Hr, fold_left_app, HD.
  rewrite fold_pops.
  - rewrite canon_repush by (rewrite <- HP; exact HPcanon).
    rewrite <- HP. reflexivity.
  - rewrite HD, forallb_app in Hfrom. apply andb_true_iff in Hfrom. tauto.
Qed.


(** Round trip through an absolute location: [relativePath] passes it
    through and the second join normalises it again. *)
Lemma roundtrip_absolute (fromPath rel : str) :
  aPathStartIndexOf (pathOf fromPath) = 0 ->
  startsWith (joinPaths (pathOf fromPath) rel) $"/" = true ->
  let abs := joinPaths (pathOf fromPath) rel in
  let r := relativePath fromPath abs in
  joinPaths (pathOf fromPath) r = abs.
Proof.
  intros H0 Habs. cbv zeta. rewrite (relativePath_absolute _ _ Habs).
  destruct (pathOf_split fromPath) as [file [_ [_ Hcb]]].
  set (base := pathOf fromPath) in *.
  set (P0 := if startsWith rel $"/" then []
             else fold_left pushPiece (segments base) []).
  set (P := fold_left pushPiece (segments rel) P0).
  assert (Eabs : joinPaths base rel = List.concat P).
  { unfold joinPaths, join. rewrite H0, starts_slash_charAt.
    change 0 with (Z.of_nat 0). rewrite substr_from_nat, substring_0, !push_segments.
    reflexivity. }
  assert (HP0 : Forall complete P0 /\ canon P0).
  { unfold P0. destruct (startsWith rel $"/"); [split; constructor|]. split.
    - apply fold_pushPiece_Forall; [constructor|].
      apply segments_closed_complete. exact Hcb.
    - apply canon_fold. constructor. }
  assert (HPseg : segments (List.concat P) = P)
    by (apply fold_segments_wf; apply HP0).
  assert (HPcanon : canon P) by (apply canon_fold; apply HP0).
  rewrite Eabs in *. unfold joinPaths, join.
  rewrite H0, starts_slash_charAt, Habs.
  change 0 with (Z.of_nat 0). rewrite substring_0, push_segments, HPseg.
  rewrite (canon_repush P [] HPcanon). reflexivity.
Qed.

(** C5 (amended): round trip.  With [abs = joinPaths(pathOf(from), rel)]
    and [r = relativePath(from, abs)], [joinPaths(pathOf(from), r) = abs]
    holds when the folder part of [from] is made of plain folder names and
    [rel] has no empty segment, and also when [from] has no [//], [http://]
    or [https://] prefix and [abs] starts with a slash. *)
Theorem relativePath_roundtrip (fromPath rel : str)
    (H : plainLocation fromPath = true /\ noEmptySegment rel = true
         \/ aPathStartIndexOf (pathOf fromPath) = 0
            /\ startsWith (joinPaths (pathOf fromPath) rel) $"/" = true) :
  let abs := joinPaths (pathOf fromPath) rel in
  let r := relativePath fromPath abs in
  joinPaths (pathOf fromPath) r = abs.
Proof.
  destruct H as [[H1 H2]|[H1 H2]].
  - apply roundtrip_plain; assumption.
  - apply roundtrip_absolute; assumption.
Qed.

Lemma relativePath_roundtrip_witness :
  let abs := joinPaths (pathOf $"a/b/style.css") $"../img/./x.png" in
  let r := relativePath $"a/b/style.css" abs in
  joinPaths (pathOf $"a/b/style.css") r = abs.
Proof.
  apply (relativePath_roundtrip $"a/b/style.css" $"../img/./x.png").
  left. split; reflexivity.
Defined.

Example roundtrip_absolute_run :
  let abs := joinPaths (pathOf $"/a/x.css") $"..//c/./d" in
  abs = $"//c/d"
  /\ joinPaths (pathOf $"/a/x.css") (relativePath $"/a/x.css" abs) = abs.
Proof. cbv zeta. split; vm_compute; reflexivity. Qed.

(** * Further properties of the path algebra *)

Section PrefixFacts.

(** Two texts that continue a common prefix diverge when one of them ends
    there or their next characters differ. *)
Definition diverge (a b : str) : Prop :=
  match a, b with
  | x :: _, y :: _ => x <> y
  | _, _ => True
  end.

Lemma commonPrefix_loop_longest str1 str2 (len0 : nat) k (i : nat) :
  (i + k = len0)%nat ->
  len0 = Nat.min (List.length str1) (List.length str2) ->
  firstn i str1 = firstn i str2 ->
  exists n,
    commonPrefix_loop str1 str2 (Z.of_nat len0) k (Z.of_nat i) = firstn n str1
    /\ firstn n str1 = firstn n str2
    /\ diverge (skipn n str1) (skipn n str2).
Proof.
  revert i. induction k as [|k IH]; intros i Hik Hlen Hpre; simpl.
  - exists len0. rewrite substring_0. replace len0 with i in * by lia.
    split; [reflexivity|]. split; [exact Hpre|].
    destruct (Nat.min_dec (List.length str1) (List.length str2)) as [E|E].
    + rewrite (skipn_all2 str1) by lia. exact I.
    + rewrite (skipn_all2 str2) by lia. destruct (skipn i str1); exact I.
  - rewrite !charCodeAt_nat.
    assert (H1 : (i < List.length str1)%nat) by lia.
    assert (H2 : (i < List.length str2)%nat) by lia.
    destruct (nth_error str1 i) as [x|] eqn:E1;
      [|apply nth_error_None in E1; lia].
    destruct (nth_error str2 i) as [y|] eqn:E2;
      [|apply nth_error_None in E2; lia].
    destruct (Ascii.eqb x y) eqn:Exy; simpl.
    + apply Ascii.eqb_eq in Exy. subst y.
      replace (Z.of_nat i + 1) with (Z.of_nat (S i)) by lia.
      apply IH; [lia|assumption|].
      rewrite (firstn_succ_nth _ _ _ E1), (firstn_succ_nth _ _ _ E2), Hpre. reflexivity.
    + exists i. rewrite substring_0. split; [reflexivity|]. split; [exact Hpre|].
      apply nth_error_split in E1. destruct E1 as [l1 [l2 [-> <-]]].
      apply nth_error_split in E2. destruct E2 as [m1 [m2 [-> E2]]].
      rewrite skipn_app, skipn_all, Nat.sub_diag. cbn [app skipn].
      rewrite <- E2, skipn_app, skipn_all, Nat.sub_diag. cbn [app skipn].
      apply Ascii.eqb_neq. exact Exy.
Qed.

Lemma commonPrefix_longest str1 str2 :
  exists rest1 rest2,
    str1 = commonPrefix str1 str2 ++ rest1
    /\ str2 = commonPrefix str1 str2 ++ rest2
    /\ diverge rest1 rest2.
Proof.
  unfold commonPrefix, len. rewrite <- Nat2Z.inj_min, Nat2Z.id.
  destruct (commonPrefix_loop_longest str1 str2
              (Nat.min (List.length str1) (List.length str2))
              (Nat.min (List.length str1) (List.length str2)) O)
    as [n [E0 [E D]]]; [lia|reflexivity|reflexivity|].
  change (Z.of_nat 0) with 0 in E0. rewrite E0.
  exists (skipn n str1), (skipn n str2). split; [symmetry; apply firstn_skipn|].
  split; [rewrite E; symmetry; apply firstn_skipn|exact D].
Qed.

(** Every common prefix is a prefix of a common prefix at which the
    texts diverge. *)
Lemma common_prefix_below (p r1 r2 c x y : str) :
  diverge r1 r2 -> p ++ r1 = c ++ x -> p ++ r2 = c ++ y ->
  exists l, p = c ++ l.
Proof.
  intros D E1 E2. apply app_eq_app in E1. destruct E1 as [l [[E1 _]|[E1 E1']]].
  - exists l. exact E1.
  - destruct l as [|z l].
    + exists []. rewrite app_nil_r in *. symmetry. exact E1.
    + exfalso. subst c. rewrite <- app_assoc in E2. apply app_inv_head in E2.
      subst r1 r2. cbn in D. apply D. reflexivity.
Qed.

Lemma prefix_antisym (a b x y : str) : a = b ++ x -> b = a ++ y -> a = b.
Proof.
  intros E1 E2. pose proof (f_equal (@List.length ascii) E1) as L1.
  pose proof (f_equal (@List.length ascii) E2) as L2.
  rewrite length_app in L1, L2.
  destruct x; [rewrite app_nil_r in E1; exact E1|]. cbn in L1. lia.
Qed.

Lemma closed_pathOf (s : str) : closed s -> pathOf s = s.
Proof.
  intros Hc. destruct (pathOf_split s) as [file [E [Hf _]]].
  destruct file as [|z file _] using rev_ind.
  - rewrite app_nil_r in E. symmetry. exact E.
  - exfalso. destruct Hc as [->|[q Hq]].
    + symmetry in E. apply app_eq_nil in E. destruct E as [_ E].
      apply app_eq_nil in E. destruct E as [_ E]. discriminate.
    + rewrite Hq, app_assoc in E. apply app_inj_tail in E. destruct E as [_ <-].
      apply Hf. apply in_or_app. right. left. reflexivity.
Qed.

Lemma commonFolderPrefix_pathOf a b :
  commonFolderPrefix a b = pathOf (commonPrefix a b).
Proof.
  unfold commonFolderPrefix, pathOf, lastIndexOf.
  destruct (find_last_char SLASH (commonPrefix a b)) as [j|].
  - replace (Z.of_nat j =? -1) with false by (symmetry; apply Z.eqb_neq; lia).
    cbn [negb]. replace (Z.of_nat j + 1) with (Z.of_nat (S j)) by lia.
    rewrite substring_0, substr_0. reflexivity.
  - reflexivity.
Qed.

End PrefixFacts.

(** X1: [startsWith] is the prefix test: it holds exactly when the
    haystack is the needle followed by some text; so it holds for the empty
    needle and for the haystack itself, and fails for a needle longer than
    the haystack. *)
Theorem startsWith_is_prefix (haystack needle : str) :
  (startsWith haystack needle = true <-> exists rest, haystack = needle ++ rest)
  /\ startsWith haystack [] = true
  /\ startsWith haystack haystack = true
  /\ ((List.length haystack < List.length needle)%nat ->
      startsWith haystack needle = false).
Proof.
  split; [apply startsWith_spec|]. split; [|split].
  - apply startsWith_spec. exists haystack. reflexivity.
  - apply startsWith_spec. exists []. symmetry. apply app_nil_r.
  - intros Hlt. destruct (startsWith haystack needle) eqn:E; [|reflexivity].
    apply startsWith_spec in E. destruct E as [rest ->].
    rewrite length_app in Hlt. lia.
Qed.

Lemma startsWith_is_prefix_witness :
  (startsWith $"ab" $"abc" = true <-> exists rest, $"ab" = $"abc" ++ rest)
  /\ startsWith $"ab" [] = true
  /\ startsWith $"ab" $"ab" = true
  /\ ((List.length $"ab" < List.length $"abc")%nat -> startsWith $"ab" $"abc" = false).
Proof. apply (startsWith_is_prefix $"ab" $"abc"). Defined.

(** X2: [pathOf] cuts a file name after its last slash: the name is its
    folder part followed by a slash-free rest, the folder part is empty or
    ends with a slash, it is empty exactly when the name has no slash, and
    taking the folder part twice changes nothing. *)
Theorem pathOf_folder_part (filename : str) :
  (exists file, filename = pathOf filename ++ file /\ ~ In SLASH file)
  /\ (pathOf filename = [] \/ exists q, pathOf filename = q ++ [SLASH])
  /\ (pathOf filename = [] <-> ~ In SLASH filename)
  /\ pathOf (pathOf filename) = pathOf filename.
Proof.
  destruct (pathOf_split filename) as [file [E [Hf Hc]]].
  split; [exists file; split; assumption|]. split; [exact Hc|]. split.
  - split.
    + intros H0. rewrite H0 in E. cbn [app] in E. subst file. exact Hf.
    + intros Hn. destruct Hc as [H|[q Hq]]; [exact H|].
      exfalso. apply Hn. rewrite E, Hq. apply in_or_app. left.
      apply in_or_app. right. left. reflexivity.
  - apply closed_pathOf. exact Hc.
Qed.

(** X3: [commonPrefix] returns the longest common prefix: both arguments
    start with it, and after it one of them ends or their next characters
    differ; hence every common prefix of the two is a prefix of it. *)
Theorem commonPrefix_is_longest (str1 str2 : str) :
  (exists rest1 rest2,
     str1 = commonPrefix str1 str2 ++ rest1
     /\ str2 = commonPrefix str1 str2 ++ rest2
     /\ match rest1, rest2 with
        | x :: _, y :: _ => x <> y
        | _, _ => True
        end)
  /\ (forall c x y, str1 = c ++ x -> str2 = c ++ y ->
      exists l, commonPrefix str1 str2 = c ++ l).
Proof.
  destruct (commonPrefix_longest str1 str2) as [r1 [r2 [E1 [E2 D]]]].
  split; [exists r1, r2; repeat split; assumption|].
  intros c x y Hx Hy.
  apply (common_prefix_below (commonPrefix str1 str2) r1 r2 c x y D); congruence.
Qed.

(** X4: [commonFolderPrefix] is the folder part of the longest common
    prefix, and the longest common prefix that is empty or ends with a
    slash: both arguments start with it, and every common prefix of the two
    that is empty or ends with a slash is a prefix of it. *)
Theorem commonFolderPrefix_is_longest (fromPath toPath : str) :
  let p := commonFolderPrefix fromPath toPath in
  p = pathOf (commonPrefix fromPath toPath)
  /\ (exists rest1 rest2, fromPath = p ++ rest1 /\ toPath = p ++ rest2)
  /\ (p = [] \/ exists q, p = q ++ [SLASH])
  /\ (forall c x y,
        fromPath = c ++ x -> toPath = c ++ y ->
        c = [] \/ (exists q, c = q ++ [SLASH]) ->
        exists l, p = c ++ l).
Proof.
  cbv zeta. destruct (commonFolderPrefix_spec fromPath toPath) as [H1 [H2 H3]].
  split; [apply commonFolderPrefix_pathOf|].
  split; [eexists; eexists; split; eassumption|]. split; [exact H3|].
  intros c x y Hx Hy Hc. rewrite commonFolderPrefix_pathOf.
  destruct (commonPrefix_longest fromPath toPath) as [r1 [r2 [E1 [E2 D]]]].
  destruct (common_prefix_below (commonPrefix fromPath toPath) r1 r2 c x y D)
    as [l Hl]; [congruence|congruence|].
  destruct (pathOf_split (commonPrefix fromPath toPath)) as [file [E [Hf Hcl]]].
  rewrite Hl in E at 1.
  destruct (closed_prefix_in_path _ file c l Hf Hcl Hc (eq_sym E)) as [b [Hb _]].
  exists b. exact Hb.
Qed.

Section Siblings.

(** The common folder prefix of two names of one folder is that folder. *)
Lemma commonFolderPrefix_same_folder (fromPath toPath : str) :
  pathOf fromPath = pathOf toPath ->
  commonFolderPrefix fromPath toPath = pathOf toPath.
Proof.
  intros Hsame.
  destruct (pathOf_split fromPath) as [f1 [E1 [Hf1 Hc1]]].
  destruct (pathOf_split toPath) as [f2 [E2 [Hf2 Hc2]]].
  destruct (commonFolderPrefix_spec fromPath toPath) as [H1 [H2 H3]].
  set (p := commonFolderPrefix fromPath toPath) in *.
  (* the folder is a closed common prefix, so it lies below [p] *)
  destruct (commonPrefix_longest fromPath toPath) as [r1 [r2 [L1 [L2 D]]]].
  assert (Hbelow : exists l, commonPrefix fromPath toPath = pathOf toPath ++ l).
  { apply (common_prefix_below (commonPrefix fromPath toPath) r1 r2
             (pathOf toPath) f1 f2 D).
    - rewrite <- L1. rewrite <- Hsame. exact E1.
    - rewrite <- L2. exact E2. }
  destruct Hbelow as [l Hl].
  destruct (pathOf_split (commonPrefix fromPath toPath)) as [file [E [Hf Hcl]]].
  rewrite Hl in E at 1.
  destruct (closed_prefix_in_path _ file (pathOf toPath) l Hf Hcl Hc2 (eq_sym E))
    as [b [Hb _]].
  (* and [p] is a closed prefix of [toPath], so it lies within the folder *)
  rewrite E2 in H2 at 1.
  destruct (closed_prefix_in_path _ f2 p _ Hf2 Hc2 H3 H2) as [b' [Hb' _]].
  apply (prefix_antisym _ _ b b'); [|exact Hb'].
  unfold p. rewrite commonFolderPrefix_pathOf. exact Hb.
Qed.

End Siblings.

(** X5: between two names of one folder, [relativePath] returns the base
    name of the target, with no [../]; in particular [relativePath(x, x)]
    is the base name of [x] (unless the target starts with [/], [http://] or
    [https://], when it is returned whole). *)
Theorem relativePath_same_folder (fromPath toPath : str)
    (Hsame : pathOf fromPath = pathOf toPath)
    (Hrel : startsWith toPath $"/" || startsWith toPath $"http://"
            || startsWith toPath $"https://" = false) :
  relativePath fromPath toPath = skipn (List.length (pathOf toPath)) toPath
  /\ toPath = pathOf toPath ++ relativePath fromPath toPath
  /\ ~ In SLASH (relativePath fromPath toPath).
Proof.
  assert (E : relativePath fromPath toPath
              = skipn (List.length (pathOf toPath)) toPath).
  { rewrite relativePath_unfold, Hrel. cbv zeta.
    rewrite (commonFolderPrefix_same_folder _ _ Hsame).
    destruct (pathOf_split fromPath) as [f1 [E1 [Hf1 _]]].
    rewrite <- Hsame. rewrite E1 at 2.
    rewrite skipn_app, skipn_all, Nat.sub_diag. cbn [app skipn].
    rewrite (proj1 (count_occ_not_In ascii_dec f1 SLASH) Hf1). reflexivity. }
  destruct (pathOf_split toPath) as [f2 [E2 [Hf2 _]]].
  assert (E3 : skipn (List.length (pathOf toPath)) toPath = f2).
  { rewrite E2 at 2. rewrite skipn_app, skipn_all, Nat.sub_diag. reflexivity. }
  rewrite E, E3. split; [reflexivity|]. split; assumption.
Qed.

Lemma relativePath_same_folder_witness :
  relativePath $"a/b/x.css" $"a/b/y.png"
  = skipn (List.length (pathOf $"a/b/y.png")) $"a/b/y.png"
  /\ $"a/b/y.png" = pathOf $"a/b/y.png" ++ relativePath $"a/b/x.css" $"a/b/y.png"
  /\ ~ In SLASH (relativePath $"a/b/x.css" $"a/b/y.png").
Proof.
  apply (relativePath_same_folder $"a/b/x.css" $"a/b/y.png"); reflexivity.
Defined.

Example relativePath_self_run : relativePath $"a/b/x.css" $"a/b/x.css" = $"x.css".
Proof. vm_compute. reflexivity. Qed.

Section JoinPathsShape.

(** The stack of [joinPaths] for a base that is empty or ends with a
    slash and has no protocol prefix. *)
Lemma joinPaths_stack (a b : str) :
  closed a -> aPathStartIndexOf a = 0 ->
  exists P,
    joinPaths a b = List.concat P /\ segments (List.concat P) = P /\ canon P.
Proof.
  intros Hc H0.
  set (P0 := if startsWith b $"/" then []
             else fold_left pushPiece (segments a) []).
  exists (fold_left pushPiece (segments b) P0).
  assert (HP0 : Forall complete P0 /\ canon P0).
  { unfold P0. destruct (startsWith b $"/"); [split; constructor|]. split.
    - apply fold_pushPiece_Forall; [constructor|].
      apply segments_closed_complete. exact Hc.
    - apply canon_fold. constructor. }
  split; [|split].
  - unfold joinPaths, join. rewrite H0, starts_slash_charAt.
    change 0 with (Z.of_nat 0). rewrite substr_from_nat, substring_0, !push_segments.
    reflexivity.
  - apply fold_segments_wf. apply HP0.
  - apply canon_fold. apply HP0.
Qed.

Lemma prevPieceOf_snoc P x : prevPieceOf (P ++ [x]) = Some x.
Proof. rewrite prevPieceOf_rev, rev_app_distr. reflexivity. Qed.

(** On a canonical stack of non-empty pieces the [../] pieces come
    first, and no piece is [./]. *)
Lemma canon_shape P :
  canon P -> Forall (fun p => p <> []) P ->
  exists k rest,
    P = repeat $"../" k ++ rest
    /\ Forall (fun p => p <> $"./" /\ p <> $"../") rest.
Proof.
  induction 1 as [|P p HP IH Hp]; intros Hne.
  - exists O, []. split; [reflexivity|constructor].
  - apply Forall_app in Hne. destruct Hne as [HneP Hnep].
    destruct (IH HneP) as [k [rest [EP Hrest]]].
    assert (Hdot : p <> $"./").
    { intros ->. unfold pushPiece in Hp. change (str_eqb $"./" $"./") with true in Hp.
      cbv iota in Hp. apply (f_equal (@List.length (list ascii))) in Hp.
      rewrite length_app in Hp. cbn in Hp. lia. }
    destruct (list_eq_dec ascii_dec p $"../") as [->|Hup].
    + (* [../] was pushed: nothing but [../] lies below *)
      destruct rest as [|r rest _] using rev_ind.
      * exists (S k), []. rewrite app_nil_r in *. subst P.
        split; [|constructor].
        cbn [repeat]. symmetry. apply repeat_cons.
      * exfalso. rewrite app_assoc in EP. subst P.
        apply Forall_app in Hrest. destruct Hrest as [_ Hr].
        inversion Hr as [|? ? [_ Hr2] _]; subst.
        apply Forall_app in HneP. destruct HneP as [_ HneR].
        inversion HneR as [|? ? Hr0 _]; subst.
        unfold pushPiece in Hp. rewrite prevPieceOf_snoc in Hp.
        change (str_eqb $"../" $"./") with false in Hp.
        change (str_eqb $"../" $"../") with true in Hp. cbv iota in Hp.
        unfold truthy in Hp.
        apply str_eqb_neq in Hr0, Hr2. rewrite Hr0, Hr2 in Hp. cbn [negb andb] in Hp.
        destruct (str_eqb r $"/").
        -- apply (f_equal (@List.length (list ascii))) in Hp.
           rewrite !length_app in Hp. cbn in Hp. lia.
        -- rewrite removelast_last in Hp.
           apply (f_equal (@List.length (list ascii))) in Hp.
           rewrite !length_app in Hp. cbn in Hp. lia.
    + exists k, (rest ++ [p]). rewrite EP, app_assoc. split; [reflexivity|].
      apply Forall_app. split; [exact Hrest|]. constructor; [split; assumption|constructor].
Qed.

Lemma aPathStartIndexOf_nil : aPathStartIndexOf [] = 0.
Proof. reflexivity. Qed.

End JoinPathsShape.

(** X6: normal form.  For a base that is empty or ends with a slash and
    has no [//], [http://] or [https://] prefix, the result of [joinPaths]
    has no [./] segment, and its [../] segments all come first. *)
Theorem joinPaths_normal_form (a b : str)
    (Hclosed : a = [] \/ exists q, a = q ++ [SLASH])
    (Hplain : aPathStartIndexOf a = 0) :
  exists k rest,
    segments (joinPaths a b) = repeat $"../" k ++ rest
    /\ Forall (fun p => p <> $"./" /\ p <> $"../") rest.
Proof.
  destruct (joinPaths_stack a b Hclosed Hplain) as [P [E [Hseg Hcanon]]].
  rewrite E, Hseg. apply canon_shape; [exact Hcanon|].
  rewrite <- Hseg. apply segments_nonempty.
Qed.

Lemma joinPaths_normal_form_witness :
  exists k rest,
    segments (joinPaths $"a/b/" $"./../../../x/./y") = repeat $"../" k ++ rest
    /\ Forall (fun p => p <> $"./" /\ p <> $"../") rest.
Proof.
  apply (joinPaths_normal_form $"a/b/" $"./../../../x/./y").
  - right. exists (lit "a/b"). reflexivity.
  - reflexivity.
Defined.

(** X7: normalising twice is normalising once: for such a base, joining
    the result of [joinPaths] onto the empty base gives it back. *)
Theorem joinPaths_idempotent (a b : str)
    (Hclosed : a = [] \/ exists q, a = q ++ [SLASH])
    (Hplain : aPathStartIndexOf a = 0) :
  joinPaths [] (joinPaths a b) = joinPaths a b.
Proof.
  destruct (joinPaths_stack a b Hclosed Hplain) as [P [E [Hseg Hcanon]]].
  rewrite E. unfold joinPaths, join.
  rewrite aPathStartIndexOf_nil, starts_slash_charAt.
  change 0 with (Z.of_nat 0). rewrite substr_from_nat, substring_0, !push_segments.
  rewrite Hseg. cbn [skipn firstn segments fold_left app].
  destruct (startsWith (List.concat P) $"/");
    rewrite (canon_repush P [] Hcanon); reflexivity.
Qed.

Lemma joinPaths_idempotent_witness :
  joinPaths [] (joinPaths $"a/b/" $"./../../../x/./y")
  = joinPaths $"a/b/" $"./../../../x/./y".
Proof.
  apply (joinPaths_idempotent $"a/b/" $"./../../../x/./y").
  - right. exists (lit "a/b"). reflexivity.
  - reflexivity.
Defined.

(** X8: without dot segments [joinPaths] is concatenation: when neither
    argument has a [./] or [../] segment and the base has no protocol
    prefix, the result is the relative argument itself if it starts with a
    slash, and the base followed by it otherwise. *)
Theorem joinPaths_concatenates (a b : str)
    (Hplain : aPathStartIndexOf a = 0)
    (Ha : dotFree a = true) (Hb : dotFree b = true) :
  joinPaths a b = if startsWith b $"/" then b else a ++ b.
Proof.
  destruct (startsWith b $"/") eqn:Hs.
  - rewrite (joinPaths_absolute a b Hs Hb), Hplain.
    change 0 with (Z.of_nat 0) at 2. rewrite substring_0. reflexivity.
  - rewrite (joinPaths_relative a b Hplain Hs).
    rewrite (fold_pushPiece_plain (segments a) [] Ha).
    rewrite (fold_pushPiece_plain (segments b) _ Hb).
    cbn [app]. rewrite concat_app, !concat_segments. reflexivity.
Qed.

Lemma joinPaths_concatenates_witness :
  joinPaths $"a/b/" $"img/x.png"
  = if startsWith $"img/x.png" $"/" then $"img/x.png" else $"a/b/" ++ $"img/x.png".
Proof.
  apply (joinPaths_concatenates $"a/b/" $"img/x.png"); reflexivity.
Defined.

Section HeldPrefix.

Lemma find_char_app_first c (host tl : str) :
  ~ In c host -> find_char c (host ++ c :: tl) = Some (List.length host).
Proof.
  induction host as [|x host IH]; intros H; cbn [app find_char List.length].
  - rewrite Ascii.eqb_refl. reflexivity.
  - destruct (Ascii.eqb x c) eqn:E.
    + apply Ascii.eqb_eq in E. exfalso. apply H. left. exact E.
    + rewrite IH by (intros Hin; apply H; right; exact Hin). reflexivity.
Qed.

Lemma findSlashIndexAfterPrefix_host (pre host tl : str) :
  ~ In SLASH host ->
  findSlashIndexAfterPrefix (pre ++ host ++ SLASH :: tl) pre
  = Z.of_nat (List.length pre + List.length host).
Proof.
  intros Hh. unfold findSlashIndexAfterPrefix, indexOf. rewrite startsWith_app.
  assert (Hk : clamp (pre ++ host ++ SLASH :: tl) (len pre) = List.length pre).
  { unfold len. rewrite clamp_nat, length_app. lia. }
  rewrite !Hk.
  rewrite skipn_app, skipn_all, Nat.sub_diag. cbn [app skipn].
  rewrite (find_char_app_first SLASH host tl Hh). unfold len. lia.
Qed.

Lemma startsWith_false_head x y (t n : str) :
  x <> y -> startsWith (x :: t) (y :: n) = false.
Proof.
  intros Hxy. destruct (startsWith (x :: t) (y :: n)) eqn:E; [|reflexivity].
  apply startsWith_spec in E. destruct E as [r E]. cbn [app] in E.
  injection E as E _. congruence.
Qed.

(** The protocols that [joinPaths] knows. *)
Definition isScheme (scheme : str) : Prop :=
  scheme = $"//" \/ scheme = $"http://" \/ scheme = $"https://".

Lemma aPathStartIndexOf_host (scheme host tl : str) :
  isScheme scheme -> ~ In SLASH host ->
  aPathStartIndexOf (scheme ++ host ++ SLASH :: tl)
  = Z.of_nat (List.length scheme + List.length host).
Proof.
  intros Hs Hh. unfold aPathStartIndexOf.
  destruct Hs as [-> | [-> | ->]].
  - rewrite (findSlashIndexAfterPrefix_host $"//" host tl Hh).
    unfold or_num. cbn [Z.eqb].
    destruct (Z.of_nat (List.length $"//" + List.length host) =? 0) eqn:E;
      [apply Z.eqb_eq in E; cbn in E; lia|]. reflexivity.
  - rewrite (findSlashIndexAfterPrefix_host $"http://" host tl Hh).
    assert (E0 : findSlashIndexAfterPrefix ($"http://" ++ host ++ SLASH :: tl) $"//" = 0).
    { unfold findSlashIndexAfterPrefix.
      change ($"http://" ++ host ++ SLASH :: tl)
        with ("h"%char :: lit "ttp://" ++ host ++ SLASH :: tl).
      change (lit "//") with (SLASH :: [SLASH]).
      rewrite startsWith_false_head by discriminate. reflexivity. }
    rewrite E0. unfold or_num. cbn [Z.eqb].
    destruct (Z.of_nat (List.length $"http://" + List.length host) =? 0) eqn:E;
      [apply Z.eqb_eq in E; cbn in E; lia|]. reflexivity.
  - rewrite (findSlashIndexAfterPrefix_host $"https://" host tl Hh).
    assert (E0 : findSlashIndexAfterPrefix ($"https://" ++ host ++ SLASH :: tl) $"//" = 0).
    { unfold findSlashIndexAfterPrefix.
      change ($"https://" ++ host ++ SLASH :: tl)
        with ("h"%char :: lit "ttps://" ++ host ++ SLASH :: tl).
      change (lit "//") with (SLASH :: [SLASH]).
      rewrite startsWith_false_head by discriminate. reflexivity. }
    assert (E1 : findSlashIndexAfterPrefix ($"https://" ++ host ++ SLASH :: tl)
                   $"http://" = 0).
    { unfold findSlashIndexAfterPrefix.
      destruct (startsWith ($"https://" ++ host ++ SLASH :: tl) $"http://") eqn:E;
        [|reflexivity].
      apply startsWith_spec in E. destruct E as [r E]. discriminate E. }
    rewrite E0, E1. unfold or_num. cbn [Z.eqb].
    destruct (Z.of_nat (List.length $"https://" + List.length host) =? 0) eqn:E;
      [apply Z.eqb_eq in E; cbn in E; lia|]. reflexivity.
Qed.

(** The root slash at the bottom of the stack is never popped. *)
Lemma pushPiece_keeps_root P p :
  exists P', pushPiece ([SLASH] :: P) p = [SLASH] :: P'.
Proof.
  destruct P as [|x P _] using rev_ind.
  - unfold pushPiece. destruct (str_eqb p $"./"); [exists []; reflexivity|].
    destruct (str_eqb p $"../"); [|exists [p]; reflexivity].
    exists []. reflexivity.
  - destruct (pushPiece_cases ([SLASH] :: P ++ [x]) p) as [E|[E|E]]; rewrite E.
    + eexists. reflexivity.
    + exists P. change ([SLASH] :: P ++ [x]) with (([SLASH] :: P) ++ [x]).
      apply removelast_last.
    + eexists. reflexivity.
Qed.

Lemma fold_keeps_root segs : forall P,
  exists P', fold_left pushPiece segs ([SLASH] :: P) = [SLASH] :: P'.
Proof.
  induction segs as [|s segs IH]; intros P; cbn [fold_left].
  - exists P. reflexivity.
  - destruct (pushPiece_keeps_root P s) as [P1 ->]. apply IH.
Qed.

End HeldPrefix.

(** X9: the protocol and host of the base are held fixed.  When the base
    is [//], [http://] or [https://] followed by a host and a slash, the
    result of [joinPaths] is that protocol and host followed by a path that
    starts with a slash, whatever the relative argument: no [../] climbs
    above the root of the host. *)
Theorem joinPaths_keeps_host (scheme host tl b : str)
    (Hscheme : scheme = $"//" \/ scheme = $"http://" \/ scheme = $"https://")
    (Hhost : ~ In SLASH host) :
  exists path, joinPaths (scheme ++ host ++ SLASH :: tl) b = scheme ++ host ++ SLASH :: path.
Proof.
  set (a := scheme ++ host ++ SLASH :: tl).
  pose proof (aPathStartIndexOf_host scheme host tl Hscheme Hhost) as Hidx. fold a in Hidx.
  unfold joinPaths, join. rewrite Hidx, substr_from_nat, substring_0, !push_segments.
  assert (Efst : firstn (List.length scheme + List.length host) a = scheme ++ host).
  { unfold a. rewrite app_assoc, <- length_app.
    rewrite firstn_app, firstn_all, Nat.sub_diag. cbn [firstn]. apply app_nil_r. }
  assert (Eskp : skipn (List.length scheme + List.length host) a = SLASH :: tl).
  { unfold a. rewrite app_assoc, <- length_app.
    rewrite skipn_app, skipn_all, Nat.sub_diag. reflexivity. }
  rewrite Efst, Eskp.
  assert (Hstack : exists P',
            fold_left pushPiece (segments b)
              (if (0 <? len b) && str_eqb (charAt b 0) $"/" then []
               else fold_left pushPiece (segments (SLASH :: tl)) [])
            = [SLASH] :: P').
  { rewrite starts_slash_charAt. destruct (startsWith b $"/") eqn:Hs.
    - apply startsWith_spec in Hs. destruct Hs as [r ->].
      change ($"/" ++ r) with (SLASH :: r). cbn [segments].
      change (Ascii.eqb SLASH SLASH) with true. cbv iota. cbn [fold_left].
      change (pushPiece [] [SLASH]) with [[SLASH]]. apply fold_keeps_root.
    - cbn [segments]. change (Ascii.eqb SLASH SLASH) with true. cbv iota.
      cbn [fold_left]. change (pushPiece [] [SLASH]) with [[SLASH]].
      destruct (fold_keeps_root (segments tl) []) as [P1 ->]. apply fold_keeps_root. }
  destruct Hstack as [P' ->]. exists (List.concat P').
  rewrite <- app_assoc. reflexivity.
Qed.

Lemma joinPaths_keeps_host_witness :
  exists path,
    joinPaths ($"http://" ++ $"host" ++ SLASH :: $"a/") $"../../../x.png"
    = $"http://" ++ $"host" ++ SLASH :: path.
Proof.
  apply (joinPaths_keeps_host $"http://" $"host" $"a/" $"../../../x.png").
  - right. left. reflexivity.
  - vm_compute. intuition discriminate.
Defined.

(** Without a slash after the host, the host is an ordinary segment. *)
Example joinPaths_bare_host_run : joinPaths $"http://host" $"../x.png" = $"http://x.png".
Proof. vm_compute. reflexivity. Qed.

(** * Further properties of the url rewriter *)

Section Untouched.

Lemma exec_chr_inv c r (s cap : str) res :
  exec (chr c :: r) s cap = Some res ->
  exists s', s = c :: s' /\ exec r s' cap = Some res.
Proof.
  cbn [exec chr cls qnt captured min_count max_count].
  destruct s as [|y s']; cbn [run_length].
  - cbn. discriminate.
  - destruct (Ascii.eqb c y) eqn:E.
    + apply Ascii.eqb_eq in E. subst y.
      change (Nat.min 1 (S (run_length (Ascii.eqb c) s'))) with 1%nat.
      cbn [Nat.ltb Nat.leb Nat.sub greedy Nat.add skipn].
      destruct (exec r s' cap) as [x|] eqn:Ex; [|discriminate].
      intros [= <-]. exists s'. split; [reflexivity|exact Ex].
    + cbn. discriminate.
Qed.

(** A match starts with the four characters [url(]. *)
Lemma exec_url_starts (s : str) res :
  exec_url s = Some res -> startsWith s $"url(" = true.
Proof.
  unfold exec_url, url_re. intros H.
  apply exec_chr_inv in H. destruct H as [s1 [-> H]].
  apply exec_chr_inv in H. destruct H as [s2 [-> H]].
  apply exec_chr_inv in H. destruct H as [s3 [-> H]].
  apply exec_chr_inv in H. destruct H as [s4 [-> H]].
  apply startsWith_spec. exists s4. reflexivity.
Qed.

(** [url(] occurs somewhere in the text. *)
Fixpoint hasUrl (s : str) : bool :=
  match s with
  | [] => false
  | _ :: t => startsWith s $"url(" || hasUrl t
  end.

Lemma scan_no_url (s : str) : hasUrl s = false -> scan s = map Text s.
Proof.
  induction s as [|c t IH]; intros H; rewrite scan_unfold; [reflexivity|].
  cbn [hasUrl] in H. apply orb_false_iff in H. destruct H as [H1 H2].
  destruct (exec_url (c :: t)) as [res|] eqn:E.
  - apply exec_url_starts in E. congruence.
  - cbn [map]. rewrite IH by exact H2. reflexivity.
Qed.

Lemma replaceChunks_text replacer (s : str) w :
  replaceChunks replacer (map Text s) w = (Ok s, w).
Proof.
  induction s as [|c t IH]; [reflexivity|].
  cbn [map replaceChunks]. unfold bind. rewrite IH. reflexivity.
Qed.

End Untouched.

(** X10: a text in which [url(] does not occur is returned as it is: the
    replacer is not called, so nothing is read, logged or thrown, whatever
    the replacer. *)
Theorem replaceURL_without_url (contents : str) (replacer : str -> M str) (w : World)
    (Hno : hasUrl contents = false) :
  replaceURL contents replacer w = (Ok contents, w).
Proof.
  unfold replaceURL. rewrite (scan_no_url contents Hno). apply replaceChunks_text.
Qed.

Lemma replaceURL_without_url_witness :
  replaceURL $"a { color: red; src: URL(x.png) }"
    (fun url => throw (ReadError url)) w0
  = (Ok $"a { color: red; src: URL(x.png) }", w0).
Proof.
  apply (replaceURL_without_url $"a { color: red; src: URL(x.png) }"). reflexivity.
Defined.

Section Unquote.

Lemma trimEnd_unfold (url : str) :
  trimEnd url = if endsBlank url then trimEnd (substring url 0 (len url - 1)) else url.
Proof.
  funelim (trimEnd url).
  - rewrite e. reflexivity.
  - rewrite e. reflexivity.
Qed.

Lemma charAt_last (s : str) x : charAt (s ++ [x]) (len (s ++ [x]) - 1) = [x].
Proof.
  unfold charAt, len. rewrite length_app. cbn [List.length].
  replace (Z.of_nat (List.length s + 1) - 1) with (Z.of_nat (List.length s)) by lia.
  replace (0 <=? Z.of_nat (List.length s)) with true by (symmetry; apply Z.leb_le; lia).
  replace (Z.of_nat (List.length s) <? Z.of_nat (List.length s + 1)) with true
    by (symmetry; apply Z.ltb_lt; lia).
  cbn [andb]. rewrite Nat2Z.id, skipn_app, skipn_all, Nat.sub_diag. reflexivity.
Qed.

Lemma substring_init (s : str) x : substring (s ++ [x]) 0 (len (s ++ [x]) - 1) = s.
Proof.
  unfold len. rewrite length_app. cbn [List.length].
  replace (Z.of_nat (List.length s + 1) - 1) with (Z.of_nat (List.length s)) by lia.
  rewrite substring_0, firstn_app, firstn_all, Nat.sub_diag. cbn [firstn].
  apply app_nil_r.
Qed.

(** The characters that the callback trims at the end. *)
Definition isBlank (c : ascii) : Prop := c = SPACE \/ c = TAB.

(** The characters that the callback takes for quotes. *)
Definition isQuote (c : ascii) : Prop := c = DQUOTE \/ c = SQUOTE.

Lemma endsBlank_snoc (s : str) x :
  endsBlank (s ++ [x]) = Ascii.eqb x SPACE || Ascii.eqb x TAB.
Proof.
  unfold endsBlank. rewrite charAt_last.
  replace (0 <? len (s ++ [x])) with true
    by (symmetry; apply Z.ltb_lt; unfold len; rewrite length_app; cbn; lia).
  cbn [andb]. f_equal.
  - destruct (Ascii.eqb x SPACE) eqn:E.
    + apply Ascii.eqb_eq in E. subst. reflexivity.
    + apply str_eqb_neq. intros [= H]. apply Ascii.eqb_neq in E. contradiction.
  - destruct (Ascii.eqb x TAB) eqn:E.
    + apply Ascii.eqb_eq in E. subst. reflexivity.
    + apply str_eqb_neq. intros [= H]. apply Ascii.eqb_neq in E. contradiction.
Qed.

Lemma trimEnd_blanks (s blanks : str) :
  Forall isBlank blanks -> trimEnd (s ++ blanks) = trimEnd s.
Proof.
  induction blanks as [|b blanks IH] using rev_ind; intros H.
  - rewrite app_nil_r. reflexivity.
  - apply Forall_app in H. destruct H as [Hb Hx]. inversion Hx as [|? ? Hbl _]; subst.
    rewrite app_assoc, trimEnd_unfold, endsBlank_snoc, substring_init.
    replace (Ascii.eqb b SPACE || Ascii.eqb b TAB) with true.
    + apply IH. exact Hb.
    + destruct Hbl as [-> | ->]; reflexivity.
Qed.

Lemma trimEnd_stop (s : str) x : ~ isBlank x -> trimEnd (s ++ [x]) = s ++ [x].
Proof.
  intros H. rewrite trimEnd_unfold, endsBlank_snoc.
  destruct (Ascii.eqb x SPACE) eqn:E1;
    [apply Ascii.eqb_eq in E1; exfalso; apply H; left; exact E1|].
  destruct (Ascii.eqb x TAB) eqn:E2;
    [apply Ascii.eqb_eq in E2; exfalso; apply H; right; exact E2|].
  reflexivity.
Qed.

Lemma trimEnd_nil : trimEnd [] = [].
Proof. rewrite trimEnd_unfold. reflexivity. Qed.

Lemma quote_test (x : ascii) :
  str_eqb [x] [DQUOTE] || str_eqb [x] [SQUOTE]
  = Ascii.eqb x DQUOTE || Ascii.eqb x SQUOTE.
Proof.
  f_equal.
  - destruct (Ascii.eqb x DQUOTE) eqn:E.
    + apply Ascii.eqb_eq in E. subst. reflexivity.
    + apply str_eqb_neq. intros [= H]. apply Ascii.eqb_neq in E. contradiction.
  - destruct (Ascii.eqb x SQUOTE) eqn:E.
    + apply Ascii.eqb_eq in E. subst. reflexivity.
    + apply str_eqb_neq. intros [= H]. apply Ascii.eqb_neq in E. contradiction.
Qed.

Lemma isQuote_test x : isQuote x -> Ascii.eqb x DQUOTE || Ascii.eqb x SQUOTE = true.
Proof. intros [-> | ->]; reflexivity. Qed.

(** A token that is written bare: it does not begin with a quote and
    does not end with a quote, a space or a tab. *)
Definition bareToken (t : str) : bool :=
  match t with
  | [] => true
  | x :: _ => negb (Ascii.eqb x DQUOTE || Ascii.eqb x SQUOTE)
  end
  && match rev t with
     | [] => true
     | x :: _ => negb (Ascii.eqb x DQUOTE || Ascii.eqb x SQUOTE
                       || Ascii.eqb x SPACE || Ascii.eqb x TAB)
     end.

Lemma unquote_quoted (q1 q2 : ascii) (t blanks : str) :
  isQuote q1 -> isQuote q2 -> Forall isBlank blanks ->
  unquote ([q1] ++ t ++ [q2] ++ blanks) = t.
Proof.
  intros H1 H2 Hb. unfold unquote. cbn [app].
  change (charAt (q1 :: t ++ q2 :: blanks) 0) with [q1].
  rewrite quote_test, (isQuote_test q1 H1).
  change 1 with (Z.of_nat 1). rewrite substring_from_nat. cbn [skipn].
  change (t ++ q2 :: blanks) with (t ++ [q2] ++ blanks).
  rewrite app_assoc, (trimEnd_blanks _ blanks Hb).
  rewrite trimEnd_stop.
  - rewrite charAt_last, quote_test, (isQuote_test q2 H2). apply substring_init.
  - intros [E|E]; destruct H2 as [-> | ->]; discriminate E.
Qed.

Lemma unquote_bare (t blanks : str) :
  bareToken t = true -> Forall isBlank blanks -> unquote (t ++ blanks) = t.
Proof.
  intros Ht Hb. unfold bareToken in Ht. apply andb_true_iff in Ht.
  destruct Ht as [Hhead Hlast]. unfold unquote.
  assert (E1 : str_eqb (charAt (t ++ blanks) 0) [DQUOTE]
               || str_eqb (charAt (t ++ blanks) 0) [SQUOTE] = false).
  { destruct t as [|x t].
    - destruct blanks as [|b blanks]; [reflexivity|].
      inversion Hb as [|? ? Hbl _]; subst. cbn [app].
      change (charAt (b :: blanks) 0) with [b]. rewrite quote_test.
      destruct Hbl as [-> | ->]; reflexivity.
    - cbn [app]. change (charAt (x :: t ++ blanks) 0) with [x].
      rewrite quote_test. apply negb_true_iff. exact Hhead. }
  rewrite E1, (trimEnd_blanks t blanks Hb).
  destruct t as [|x t] using rev_ind.
  - rewrite trimEnd_nil. reflexivity.
  - rewrite rev_app_distr in Hlast. cbn [rev app] in Hlast.
    apply negb_true_iff in Hlast. apply orb_false_iff in Hlast.
    destruct Hlast as [Hlast Htab]. apply orb_false_iff in Hlast.
    destruct Hlast as [Hq Hsp].
    rewrite trimEnd_stop.
    + rewrite charAt_last, quote_test, Hq. reflexivity.
    + intros [E|E]; subst x; discriminate.
Qed.

End Unquote.

(** X11: quotes and blanks around a token do not matter.  One leading
    quote, one trailing quote (of either kind, matching or not) and the
    spaces and tabs after it are dropped, whatever the token; and a bare
    token followed by spaces and tabs is found unchanged; so [url("t")],
    [url('t' )] and [url(t)] hand the same token to the replacer. *)
Theorem unquote_ignores_quoting (q1 q2 : ascii) (t blanks : str)
    (Hq1 : q1 = DQUOTE \/ q1 = SQUOTE) (Hq2 : q2 = DQUOTE \/ q2 = SQUOTE)
    (Hblanks : Forall (fun c => c = SPACE \/ c = TAB) blanks) :
  unquote ([q1] ++ t ++ [q2] ++ blanks) = t
  /\ (bareToken t = true ->
      unquote (t ++ blanks) = t
      /\ forall replacer w,
           replaceCallback replacer ([q1] ++ t ++ [q2] ++ blanks) w
           = replaceCallback replacer (t ++ blanks) w).
Proof.
  pose proof (unquote_quoted q1 q2 t blanks Hq1 Hq2 Hblanks) as E1.
  split; [exact E1|]. intros Hbare.
  pose proof (unquote_bare t blanks Hbare Hblanks) as E2.
  split; [exact E2|]. intros replacer w.
  rewrite !replaceCallback_unfold, E1, E2. reflexivity.
Qed.

Lemma unquote_ignores_quoting_witness :
  unquote ([DQUOTE] ++ $"img/a b.png" ++ [SQUOTE] ++ [SPACE; TAB]) = $"img/a b.png"
  /\ (bareToken $"img/a b.png" = true ->
      unquote ($"img/a b.png" ++ [SPACE; TAB]) = $"img/a b.png"
      /\ forall replacer w,
           replaceCallback replacer
             ([DQUOTE] ++ $"img/a b.png" ++ [SQUOTE] ++ [SPACE; TAB]) w
           = replaceCallback replacer ($"img/a b.png" ++ [SPACE; TAB]) w).
Proof.
  apply (unquote_ignores_quoting DQUOTE SQUOTE $"img/a b.png" [SPACE; TAB]).
  - left. reflexivity.
  - right. reflexivity.
  - constructor; [left; reflexivity|].
    constructor; [right; reflexivity|constructor].
Defined.

Section AppendOnly.

Variable fs : INodeFS.
Variable path : INodePath.

(** From [w] to [w'] the log and the trace of reads only grew at their
    ends, each new log entry being the normalised form of a path read
    meanwhile, and nothing was written. *)
Definition grows (w w' : World) : Prop :=
  exists added reads,
    inlinedResources w' = inlinedResources w ++ added
    /\ fsReads w' = fsReads w ++ reads
    /\ written w' = written w
    /\ Forall (fun a => exists p, In p reads /\ a = replace_char BACKSLASH $"/" p) added
    /\ (List.length added <= List.length reads)%nat.

Lemma grows_refl w : grows w w.
Proof.
  exists [], []. rewrite !app_nil_r.
  split; [reflexivity|]. split; [reflexivity|]. split; [reflexivity|].
  split; [constructor|reflexivity].
Qed.

Lemma grows_trans w1 w2 w3 : grows w1 w2 -> grows w2 w3 -> grows w1 w3.
Proof.
  intros [a1 [r1 [Ha1 [Hr1 [Hw1 [Hf1 Hl1]]]]]] [a2 [r2 [Ha2 [Hr2 [Hw2 [Hf2 Hl2]]]]]].
  exists (a1 ++ a2), (r1 ++ r2).
  rewrite Ha2, Ha1, Hr2, Hr1, Hw2, Hw1, !app_assoc, !length_app.
  split; [reflexivity|]. split; [reflexivity|]. split; [reflexivity|].
  split; [|lia].
  apply Forall_app. split.
  - eapply Forall_impl; [|exact Hf1]. intros a [p [Hp ->]].
    exists p. split; [apply in_or_app; left; exact Hp|reflexivity].
  - eapply Forall_impl; [|exact Hf2]. intros a [p [Hp ->]].
    exists p. split; [apply in_or_app; right; exact Hp|reflexivity].
Qed.

Lemma inline_callback_grows fsP orig new force limit m0 w :
  grows w (snd (replaceCallback (inlineReplacer fs path fsP orig new force limit) m0 w)).
Proof.
  rewrite replaceCallback_unfold.
  destruct (isQualified (unquote m0)); [apply grows_refl|].
  rewrite inlineReplacer_unfold.
  destruct (isSvgOrPng (unquote m0)); [|apply grows_refl]. cbv zeta.
  set (p := path_join path (dirname path fsP) (unquote m0)).
  destruct (readFileSync fs p) as [buf|].
  - destruct (buf_length buf <? limit); cbn [snd].
    + exists [replace_char BACKSLASH $"/" p], [p]. cbn [inlinedResources fsReads written].
      split; [reflexivity|]. split; [reflexivity|]. split; [reflexivity|].
      split; [|cbn; lia].
      constructor; [|constructor]. exists p. split; [left; reflexivity|reflexivity].
    + exists [], [p]. cbn [inlinedResources fsReads written]. rewrite app_nil_r.
      split; [reflexivity|]. split; [reflexivity|]. split; [reflexivity|].
      split; [constructor|cbn; lia].
  - cbn [snd]. exists [], [p]. cbn [inlinedResources fsReads written]. rewrite app_nil_r.
    split; [reflexivity|]. split; [reflexivity|]. split; [reflexivity|].
    split; [constructor|cbn; lia].
Qed.

Lemma inline_chunks_grow fsP orig new force limit cs : forall w,
  grows w (snd (replaceChunks (inlineReplacer fs path fsP orig new force limit) cs w)).
Proof.
  induction cs as [|c cs IH]; intros w; [apply grows_refl|].
  cbn [replaceChunks]. destruct c as [x|m0]; unfold bind.
  - specialize (IH w).
    destruct (replaceChunks _ cs w) as [[rest|e] w1]; exact IH.
  - pose proof (inline_callback_grows fsP orig new force limit m0 w) as Hc.
    destruct (replaceCallback _ m0 w) as [[r|e] w1]; [|exact Hc].
    cbn [snd] in Hc. specialize (IH w1).
    destruct (replaceChunks _ cs w1) as [[rest|e] w2]; unfold ret; cbn [snd] in *;
      apply (grows_trans _ _ _ Hc IH).
Qed.

Lemma rewriteEntry_grows self newFile entry w :
  grows w (snd (rewriteEntry fs path self newFile entry w)).
Proof.
  unfold rewriteEntry. destruct (enabled (inlineResources self)).
  - apply inline_chunks_grow.
  - unfold _rewriteUrls, replaceURL.
    destruct (rewrite_chunks_pure (moduleName entry) newFile (scan (contents entry)) w)
      as [out ->]. apply grows_refl.
Qed.

Lemma rewriteEntries_grow self newFile entries : forall acc w,
  grows w (snd (rewriteEntries fs path self newFile entries acc w)).
Proof.
  induction entries as [|entry rest IH]; intros acc w; [apply grows_refl|].
  cbn [rewriteEntries]. unfold bind.
  pose proof (rewriteEntry_grows self newFile entry w) as He.
  destruct (rewriteEntry fs path self newFile entry w) as [[out|e] w1]; [|exact He].
  cbn [snd] in He. apply (grows_trans _ _ _ He (IH _ w1)).
Qed.

End AppendOnly.

(** X12: the Inlined-Resource Log is append-only.  Whatever [writeFile]
    does, and whether it returns or throws, the log it leaves is the log it
    found followed by new entries; each new entry is the normalised form of
    a path that was read during the call, so there are at most as many new
    entries as reads; and at most one blob is handed to the host, none
    when it throws. *)
Theorem writeFile_log_append_only (fs : INodeFS) (path : INodePath) (self : Plugin)
    (name : str) (toUrl : str -> str) (w : World) :
  let res := fst (writeFile fs path self name toUrl w) in
  let w' := snd (writeFile fs path self name toUrl w) in
  exists added reads,
    inlinedResources w' = inlinedResources w ++ added
    /\ fsReads w' = fsReads w ++ reads
    /\ Forall (fun a => exists p, In p reads /\ a = replace_char BACKSLASH $"/" p) added
    /\ (List.length added <= List.length reads)%nat
    /\ match res with
       | Ok _ => written w' = written w
                 \/ exists blob, written w' = written w ++ [(toUrl (name ++ $".css"), blob)]
       | Throw _ => written w' = written w
       end.
Proof.
  cbv zeta. unfold writeFile.
  destruct (entryPointsOf (_entryPoints self) name) as [entries|].
  - unfold bind.
    pose proof (rewriteEntries_grow fs path self name entries banner w) as Hg.
    destruct (rewriteEntries fs path self name entries banner w) as [[out|e] w1];
      cbn [snd] in Hg; destruct Hg as [added [reads [Ha [Hr [Hw [Hf Hl]]]]]];
      exists added, reads; cbn [fst snd hostWrite inlinedResources fsReads written].
    + split; [exact Ha|]. split; [exact Hr|]. split; [exact Hf|]. split; [exact Hl|].
      right. rewrite Hw. eexists. reflexivity.
    + split; [exact Ha|]. split; [exact Hr|]. split; [exact Hf|]. split; [exact Hl|].
      exact Hw.
  - exists [], []. unfold ret. cbn [fst snd]. rewrite !app_nil_r.
    split; [reflexivity|]. split; [reflexivity|]. split; [constructor|].
    split; [reflexivity|]. left. reflexivity.
Qed.

Section Configurations.

Variable fs : INodeFS.
Variable path : INodePath.

(** No token of the text is an inlining candidate: each is qualified or
    does not end in [.svg] or [.png]. *)
Definition noCandidate (contents : str) : bool :=
  forallb (fun c => match c with
                    | Text _ => true
                    | Match m0 => isQualified (unquote m0) || negb (isSvgOrPng (unquote m0))
                    end) (scan contents).

(** No token of the text is an svg candidate. *)
Definition noSvgCandidate (contents : str) : bool :=
  forallb (fun c => match c with
                    | Text _ => true
                    | Match m0 => isQualified (unquote m0)
                                  || negb (ends_with (unquote m0) $".svg")
                    end) (scan contents).

Lemma replaceChunks_ext (f g : str -> M str) (ok : str -> bool) cs :
  (forall m0 w, ok m0 = true -> replaceCallback f m0 w = replaceCallback g m0 w) ->
  forallb (fun c => match c with Text _ => true | Match m0 => ok m0 end) cs = true ->
  forall w, replaceChunks f cs w = replaceChunks g cs w.
Proof.
  intros Hfg. induction cs as [|c cs IH]; intros Hok w; [reflexivity|].
  cbn [forallb] in Hok. apply andb_true_iff in Hok. destruct Hok as [Hc Hcs].
  cbn [replaceChunks]. destruct c as [x|m0]; unfold bind.
  - rewrite (IH Hcs w). reflexivity.
  - rewrite (Hfg m0 w Hc). destruct (replaceCallback g m0 w) as [[r|e] w1]; [|reflexivity].
    rewrite (IH Hcs w1). reflexivity.
Qed.

Lemma dataUri_force url buf :
  ends_with url $".svg" = false -> dataUri url buf true = dataUri url buf false.
Proof. intros H. unfold dataUri. rewrite H. reflexivity. Qed.

(** The text that [_rewriteUrls] returns for one match. *)
Definition rewrittenToken (originalFile newFile m0 : str) : str :=
  $"url(" ++ (if isQualified (unquote m0) then unquote m0
              else rewritten originalFile newFile (unquote m0)) ++ $")".

(** The text that [_rewriteUrls] returns. *)
Definition rewrittenText (originalFile newFile contents : str) : str :=
  List.concat (map (fun c => match c with
                             | Text x => [x]
                             | Match m0 => rewrittenToken originalFile newFile m0
                             end) (scan contents)).

Lemma rewrite_chunks_text orig new cs w :
  replaceChunks (rewriteReplacer orig new) cs w
  = (Ok (List.concat (map (fun c => match c with
                                    | Text x => [x]
                                    | Match m0 => rewrittenToken orig new m0
                                    end) cs)), w).
Proof.
  induction cs as [|c cs IH]; [reflexivity|].
  cbn [replaceChunks map List.concat]. destruct c as [x|m0]; unfold bind.
  - rewrite IH. reflexivity.
  - rewrite replaceCallback_unfold. unfold rewrittenToken.
    destruct (isQualified (unquote m0)); unfold rewriteReplacer, ret in *;
      cbv beta iota; rewrite IH; reflexivity.
Qed.

Lemma rewriteEntries_text self newFile entries : forall acc w,
  enabled (inlineResources self) = false ->
  rewriteEntries fs path self newFile entries acc w
  = (Ok (acc ++ map (fun e => rewrittenText (moduleName e) newFile (contents e)) entries),
     w).
Proof.
  induction entries as [|entry rest IH]; intros acc w Hoff.
  - cbn [rewriteEntries map]. rewrite app_nil_r. reflexivity.
  - cbn [rewriteEntries map]. unfold bind. rewrite rewriteEntry_disabled by exact Hoff.
    rewrite rewrite_chunks_text. rewrite IH by exact Hoff.
    rewrite <- app_assoc. reflexivity.
Qed.

End Configurations.

(** X13: a stylesheet without inlining candidates is rewritten alike
    under every configuration: when every token is qualified or does not
    end in [.svg] or [.png], [_rewriteOrInlineUrls] returns what
    [_rewriteUrls] returns and leaves the world as it is, without a read,
    whatever the file system, the limit and the base64 flag. *)
Theorem no_candidate_no_inlining (fs : INodeFS) (path : INodePath)
    (originalFileFSPath originalFile newFile contents : str)
    (forceBase64 : bool) (inlineByteLimit : Z) (w : World)
    (Hno : noCandidate contents = true) :
  _rewriteOrInlineUrls fs path originalFileFSPath originalFile newFile contents
    forceBase64 inlineByteLimit w
  = _rewriteUrls originalFile newFile contents w
  /\ _rewriteUrls originalFile newFile contents w
     = (Ok (rewrittenText originalFile newFile contents), w).
Proof.
  split.
  - unfold _rewriteOrInlineUrls, _rewriteUrls, replaceURL.
    apply (replaceChunks_ext _ _
             (fun m0 => isQualified (unquote m0) || negb (isSvgOrPng (unquote m0))));
      [|exact Hno].
    intros m0 w1 Hok. rewrite !replaceCallback_unfold.
    destruct (isQualified (unquote m0)); [reflexivity|].
    cbn [orb] in Hok. apply negb_true_iff in Hok.
    rewrite inlineReplacer_unfold, Hok. reflexivity.
  - unfold _rewriteUrls, replaceURL. apply rewrite_chunks_text.
Qed.

Lemma no_candidate_no_inlining_witness :
  _rewriteOrInlineUrls disk posixPath $"/src/a/s.css" $"a/s" $"out/bundle"
    $"p{background:url(x.gif)} q{src:url('http://h/y.png')}" true 5000 w0
  = _rewriteUrls $"a/s" $"out/bundle"
      $"p{background:url(x.gif)} q{src:url('http://h/y.png')}" w0
  /\ _rewriteUrls $"a/s" $"out/bundle"
       $"p{background:url(x.gif)} q{src:url('http://h/y.png')}" w0
     = (Ok (rewrittenText $"a/s" $"out/bundle"
              $"p{background:url(x.gif)} q{src:url('http://h/y.png')}"), w0).
Proof.
  apply (no_candidate_no_inlining disk posixPath $"/src/a/s.css" $"a/s" $"out/bundle"
           $"p{background:url(x.gif)} q{src:url('http://h/y.png')}" true 5000 w0).
  vm_compute. reflexivity.
Defined.

(** X14: forcing base64 changes the inlining of svg files only: for a
    stylesheet none of whose candidate tokens ends in [.svg],
    [_rewriteOrInlineUrls] does the same with and without the flag. *)
Theorem force_base64_only_svg (fs : INodeFS) (path : INodePath)
    (originalFileFSPath originalFile newFile contents : str)
    (inlineByteLimit : Z) (w : World)
    (Hno : noSvgCandidate contents = true) :
  _rewriteOrInlineUrls fs path originalFileFSPath originalFile newFile contents
    true inlineByteLimit w
  = _rewriteOrInlineUrls fs path originalFileFSPath originalFile newFile contents
      false inlineByteLimit w.
Proof.
  unfold _rewriteOrInlineUrls, replaceURL.
  apply (replaceChunks_ext _ _
           (fun m0 => isQualified (unquote m0)
                      || negb (ends_with (unquote m0) $".svg")));
    [|exact Hno].
  intros m0 w1 Hok. rewrite !replaceCallback_unfold.
  destruct (isQualified (unquote m0)); [reflexivity|].
  cbn [orb] in Hok. apply negb_true_iff in Hok.
  rewrite !inlineReplacer_unfold.
  destruct (isSvgOrPng (unquote m0)); [|reflexivity]. cbv zeta.
  destruct (readFileSync fs _) as [buf|]; [|reflexivity].
  destruct (buf_length buf <? inlineByteLimit); [|reflexivity].
  rewrite (dataUri_force _ buf Hok). reflexivity.
Qed.

Lemma force_base64_only_svg_witness :
  _rewriteOrInlineUrls disk posixPath $"/src/a/s.css" $"a/s" $"out/bundle"
    $"p{background:url(icon.png)}" true 5000 w0
  = _rewriteOrInlineUrls disk posixPath $"/src/a/s.css" $"a/s" $"out/bundle"
      $"p{background:url(icon.png)}" false 5000 w0.
Proof.
  apply (force_base64_only_svg disk posixPath $"/src/a/s.css" $"a/s" $"out/bundle"
           $"p{background:url(icon.png)}" 5000 w0).
  vm_compute. reflexivity.
Defined.

(** X15: what [writeFile] writes without inlining.  For a module that is
    no entry point nothing happens.  For an entry point, one blob is
    handed to the host under the name [toUrl(moduleName + '.css')]: the
    three banner lines followed by the rewritten text of each entry, in the
    order of the entries, joined by CR LF; nothing is read or logged and
    nothing is thrown. *)
Theorem writeFile_concatenates (fs : INodeFS) (path : INodePath) (self : Plugin)
    (name : str) (toUrl : str -> str) (w : World)
    (Hoff : enabled (inlineResources self) = false) :
  writeFile fs path self name toUrl w
  = match entryPointsOf (_entryPoints self) name with
    | None => (Ok tt, w)
    | Some entries =>
        (Ok tt,
         mkWorld (inlinedResources w) (fsReads w)
           (written w
            ++ [(toUrl (name ++ $".css"),
                 join_with CRLF
                   (banner
                    ++ map (fun e => rewrittenText (moduleName e) name (contents e))
                         entries))]))
    end.
Proof.
  unfold writeFile. destruct (entryPointsOf (_entryPoints self) name) as [entries|];
    [|reflexivity].
  unfold bind. rewrite (rewriteEntries_text fs path self name entries banner w Hoff).
  reflexivity.
Qed.

Lemma writeFile_concatenates_witness :
  let self := mkPlugin IR_false 5000
                [($"out/bundle", [mkEntry $"a/s" $"p{background:url(x.gif)}" $"/src/a/s.css";
                                  mkEntry $"b/t" $"q{}" $"/src/b/t.css"])] in
  writeFile disk posixPath self $"out/bundle" (fun n => $"/www/" ++ n) w0
  = match entryPointsOf (_entryPoints self) $"out/bundle" with
    | None => (Ok tt, w0)
    | Some entries =>
        (Ok tt,
         mkWorld (inlinedResources w0) (fsReads w0)
           (written w0
            ++ [((fun n => $"/www/" ++ n) ($"out/bundle" ++ $".css"),
                 join_with CRLF
                   (banner
                    ++ map (fun e => rewrittenText (moduleName e) $"out/bundle" (contents e))
                         entries))]))
    end.
Proof.
  apply (writeFile_concatenates disk posixPath
           (mkPlugin IR_false 5000
              [($"out/bundle", [mkEntry $"a/s" $"p{background:url(x.gif)}" $"/src/a/s.css";
                                mkEntry $"b/t" $"q{}" $"/src/b/t.css"])])
           $"out/bundle" (fun n => $"/www/" ++ n) w0).
  reflexivity.
Defined.

Section Captures.

Lemma exec_uncaptured r : forall (s cap : str) res,
  Forall (fun a => captured a = false) r ->
  exec r s cap = Some res -> fst res = cap.
Proof.
  induction r as [|a r IH]; intros s cap res Hr; cbn [exec].
  - intros [= <-]. reflexivity.
  - inversion Hr as [|? ? Ha Hr']; subst. rewrite Ha.
    destruct (_ <? _)%nat; [discriminate|].
    intros H. apply greedy_some in H. destruct H as [n [_ Hn]].
    apply (IH _ _ _ Hr' Hn).
Qed.

Lemma firstn_run p (s : str) : forall n,
  (n <= run_length p s)%nat ->
  forallb p (firstn n s) = true /\ List.length (firstn n s) = n.
Proof.
  induction s as [|x s IH]; intros n Hn; cbn [run_length] in Hn.
  - replace n with O by lia. split; reflexivity.
  - destruct n as [|n]; [split; reflexivity|].
    destruct (p x) eqn:E; [|lia].
    destruct (IH n) as [H1 H2]; [lia|].
    cbn [firstn forallb List.length]. rewrite E, H1, H2. split; reflexivity.
Qed.

Lemma exec_plus_unfold p r (s cap : str) :
  exec (mkAtom p Plus true :: r) s cap
  = if (run_length p s <? 1)%nat then None
    else greedy (fun n => exec r (skipn n s) (cap ++ firstn n s)) 1 (run_length p s - 1).
Proof. reflexivity. Qed.

(** What a match captures: at least one character, none of them a
    closing parenthesis. *)
Lemma exec_url_capture (s : str) cap rest :
  exec_url s = Some (cap, rest) -> cap <> [] /\ ~ In RPAREN cap.
Proof.
  unfold exec_url, url_re. intros H.
  apply exec_chr_inv in H. destruct H as [s1 [-> H]].
  apply exec_chr_inv in H. destruct H as [s2 [-> H]].
  apply exec_chr_inv in H. destruct H as [s3 [-> H]].
  apply exec_chr_inv in H. destruct H as [s4 [-> H]].
  rewrite exec_star_unfold in H. apply greedy_some in H. destruct H as [n [_ H]].
  rewrite exec_plus_unfold in H.
  set (body := skipn n s4) in *.
  destruct (run_length (fun c => negb (Ascii.eqb c RPAREN)) body <? 1)%nat eqn:E;
    [discriminate|].
  apply greedy_some in H. destruct H as [k [Hk H]].
  apply Nat.ltb_ge in E.
  assert (Hcap : fst (cap, rest) = [] ++ firstn k body).
  { refine (exec_uncaptured _ _ _ _ _ H).
    constructor; [reflexivity|]. constructor; [reflexivity|constructor]. }
  cbn [fst app] in Hcap. subst cap.
  destruct (firstn_run (fun c => negb (Ascii.eqb c RPAREN)) body k) as [Hall Hlen]; [lia|].
  split.
  - intros E0. rewrite E0 in Hlen. cbn in Hlen. lia.
  - intros Hin. rewrite forallb_forall in Hall. specialize (Hall _ Hin).
    rewrite Ascii.eqb_refl in Hall. discriminate.
Qed.

End Captures.

(** X16: what the replacer can be handed.  In every text, each match of
    the scan captures at least one character and no closing parenthesis; so
    a literal [)] can never be part of a token: the token ends before it. *)
Theorem scan_captures (contents : str) :
  Forall (fun c => match c with
                   | Text _ => True
                   | Match m0 => m0 <> [] /\ ~ In RPAREN m0
                   end) (scan contents).
Proof.
  funelim (scan contents).
  - constructor.
  - constructor; [|assumption].
    apply (exec_url_capture _ _ _ e).
  - constructor; [exact I|assumption].
Qed.

(** * Stylesheets as they are written

    A stylesheet is read as a sequence of items: characters outside every
    token, and tokens [url(<whitespace><value><blanks>)] whose value is
    written bare or between two quotes and is followed by spaces and tabs
    only. *)

Module Sheet.

(** How the value of a token is written. *)
Inductive quoting : Type :=
| Bare
| Quoted (opening closing : ascii).

Inductive item : Type :=
| Plain (c : ascii)
| Url (ws : str) (q : quoting) (value : str) (blanks : str) (closed : bool).

(** The text between the whitespace after [url(] and the closing
    parenthesis. *)
Definition tokenText (q : quoting) (value blanks : str) : str :=
  match q with
  | Bare => value ++ blanks
  | Quoted opening closing => [opening] ++ value ++ [closing] ++ blanks
  end.

Definition closeParen (closed : bool) : str := if closed then [RPAREN] else [].

(** The text of a stylesheet. *)
Fixpoint render (items : list item) : str :=
  match items with
  | [] => []
  | Plain c :: rest => c :: render rest
  | Url ws q value blanks closed :: rest =>
      $"url(" ++ (ws ++ tokenText q value blanks) ++ closeParen closed ++ render rest
  end.

Definition plain (s : str) : list item := map Plain s.









End Sheet.

Import Sheet.

Section SheetFacts.

Lemma render_app (a b : list item) : render (a ++ b) = render a ++ render b.
Proof.
  induction a as [|[c|ws q v bl cl] a IH]; cbn [app render]; [reflexivity| |].
  - rewrite IH. reflexivity.
  - rewrite IH. rewrite <- !app_assoc. reflexivity.
Qed.














End SheetFacts.

(** ** What the rewriter does with a stylesheet *)


(** Inlining in the words of the specification. *)
Section Threshold.

Variable fs : INodeFS.
Variable path : INodePath.
Variables originalFileFSPath originalFile newFile : str.
Variable forceBase64 : bool.
Variable inlineByteLimit : Z.













End Threshold.

Section SheetEmission.

Variable fs : INodeFS.
Variable path : INodePath.




End SheetEmission.

Module SheetSamples.

(** [a{b:url( 'icon.png' );c:url("http://h/x.png");d:url(big.png);e:url(/img/z.gif<TAB>)}] *)
Definition sampleSheet : list item :=
  plain $"a{b:"
  ++ [Url $" " (Quoted SQUOTE SQUOTE) $"icon.png" $" " true]
  ++ plain $";c:"
  ++ [Url [] (Quoted DQUOTE DQUOTE) $"http://h/x.png" [] true]
  ++ plain $";d:"
  ++ [Url [] Bare $"big.png" [] true]
  ++ plain $";e:"
  ++ [Url [] Bare $"/img/z.gif" [TAB] true]
  ++ plain $"}".

Definition sampleEntry : ICSSEntryPointData :=
  mkEntry $"a/s" (render sampleSheet) $"/src/a/s.css".

End SheetSamples.

Import SheetSamples.

Example sampleSheet_run :
  rewriteEntry disk posixPath (mkPlugin IR_true 5000 []) $"out/bundle" sampleEntry w0
  = (Ok ($"a{b:url(" ++ [DQUOTE] ++ $"data:image/png;base64,QUJD" ++ [DQUOTE]
         ++ $");c:url(http://h/x.png);d:url(../a/big.png);e:url(/img/z.gif)}"),
     mkWorld [$"/src/a/icon.png"] [$"/src/a/icon.png"; $"/src/a/big.png"] []).
Proof. vm_compute. reflexivity. Qed.

(** The trimming of the callback stops at a line break: the closing
    quote before it stays, and a candidate followed by it is not read. *)
Example line_break_run :
  _rewriteUrls $"a/s" $"out/bundle"
    ($"url(" ++ [DQUOTE] ++ $"http://h/x.png" ++ [DQUOTE; "010"%char] ++ $")") w0
  = (Ok ($"url(http://h/x.png" ++ [DQUOTE; "010"%char] ++ $")"), w0)
  /\ _rewriteOrInlineUrls disk posixPath $"/src/a/s.css" $"a/s" $"out/bundle"
       ($"url(icon.png" ++ ["010"%char] ++ $")") false 5000 w0
     = (Ok ($"url(../a/icon.png" ++ ["010"%char] ++ $")"), w0).
Proof. split; vm_compute; reflexivity. Qed.







(** ** The last token of a stylesheet *)





Section LastToken.







End LastToken.



Example unclosed_token_run :
  _rewriteUrls $"a/b/style" $"out/bundle"
    (render (plain $"a{b:" ++ [Url [] Bare $"x.gif" [] true] ++ plain $";c:"
             ++ [Url [" "%char; "010"%char] (Quoted SQUOTE DQUOTE) $"../img/x.png"
                   [" "%char; TAB] false])) w0
  = (Ok $"a{b:url(../a/b/x.gif);c:url(../a/img/x.png)", w0).
Proof. vm_compute. reflexivity. Qed.

(** * The other methods of the plugin *)

Module PluginState.

(** [interface ICSSPluginConfig]: an absent field is [None]. *)
Record ICSSPluginConfig : Type := mkCssConfig {
  cfg_inlineResources : option InlineResources;
  cfg_inlineResourcesLimit : option Z
}.

(** The fields of [AMDLoader.IConfigurationOptions] that [load] reads. *)
Record IConfigurationOptions : Type := mkOptions {
  isBuild : option bool;
  vs_css : option ICSSPluginConfig        (* config['vs/css'] *)
}.

(** The statements of [load] that set the configuration of the plugin:
    [config || {}], [config['vs/css'] || {}], the [typeof] test and
    [inlineResourcesLimit || 5000], where [0] is falsy. *)
Definition loadConfig (config : option IConfigurationOptions) : InlineResources * Z :=
  let config := match config with Some c => c | None => mkOptions None None end in
  let myConfig := match vs_css config with
                  | Some c => c
                  | None => mkCssConfig None None
                  end in
  let inlineResources := match cfg_inlineResources myConfig with
                         | None => IR_false
                         | Some v => v
                         end in
  let inlineResourcesLimit := match cfg_inlineResourcesLimit myConfig with
                              | Some l => if l =? 0 then 5000 else l
                              | None => 5000
                              end in
  (inlineResources, inlineResourcesLimit).

(** The own properties of a JavaScript object used as a map from names
    to values, in the order of their creation. *)
Definition objGet {V : Type} (o : list (str * V)) (k : str) : option V :=
  option_map snd (find (fun kv => str_eqb (fst kv) k) o).

(** [o[k] = v] on own properties: an existing property keeps its place. *)
Fixpoint objSet {V : Type} (o : list (str * V)) (k : str) (v : V) : list (str * V) :=
  match o with
  | [] => [(k, v)]
  | (k', v') :: rest =>
      if str_eqb k' k then (k', v) :: rest else (k', v') :: objSet rest k v
  end.

(** The names of the members of [Object.prototype], which an object
    created as [{}] inherits. *)
Definition protoNames : list str :=
  [ $"constructor"; $"__defineGetter__"; $"__defineSetter__"; $"hasOwnProperty";
    $"__lookupGetter__"; $"__lookupSetter__"; $"isPrototypeOf";
    $"propertyIsEnumerable"; $"toString"; $"valueOf"; $"__proto__";
    $"toLocaleString" ].

Definition isProtoName (k : str) : bool := existsb (str_eqb k) protoNames.

(** What [o[k]] reads on an object created as [{}]: an own property, a
    member inherited from [Object.prototype] (a function, or the prototype
    itself for [__proto__], which is never an own property), or
    [undefined]. *)
Inductive Lookup (V : Type) : Type :=
| Own (v : V)
| Inherited (name : str)
| Undefined.
Arguments Own {V} v.
Arguments Inherited {V} name.
Arguments Undefined {V}.

Definition plainGet {V : Type} (o : list (str * V)) (k : str) : Lookup V :=
  if str_eqb k $"__proto__" then Inherited k
  else match objGet o k with
       | Some v => Own v
       | None => if isProtoName k then Inherited k else Undefined
       end.

(** [ICSSEntryPointData] as [write] builds it: [contents] and [fsPath]
    are what the two maps read for the module. *)
Record WrittenEntry : Type := mkWritten {
  w_moduleName : str;
  w_contents : Lookup str;
  w_fsPath : Lookup str
}.

(** The maps of the plugin object, each created as [{}]: their own
    properties. *)
Record Maps : Type := mkMaps {
  _contentsMap : list (str * str);
  _pathMap : list (str * str);
  entryPointsMap : list (str * list WrittenEntry)     (* _entryPoints *)
}.

(** [write(pluginName, moduleName, write)]: [entryPoint] is
    [write.getEntryPoint()]; the result holds the new maps and the
    arguments of [write.asModule].  When [this._entryPoints[entryPoint]]
    reads an inherited member, [||] keeps it and the call of its [push]
    throws a TypeError: the result is [None]. *)
Definition write (self : Maps) (pluginName moduleName entryPoint : str)
    : option (Maps * (str * str)) :=
  let eps := entryPointsMap self in
  match plainGet eps entryPoint with
  | Inherited _ => None
  | found =>
      let eps := objSet eps entryPoint
                   (match found with Own l => l | _ => [] end) in
      let eps := objSet eps entryPoint
                   ((match objGet eps entryPoint with Some l => l | None => [] end)
                    ++ [mkWritten moduleName
                          (plainGet (_contentsMap self) moduleName)
                          (plainGet (_pathMap self) moduleName)]) in
      Some (mkMaps (_contentsMap self) (_pathMap self) eps,
            (pluginName ++ $"!" ++ moduleName,
             $"define(['vs/css!" ++ entryPoint ++ $"'], {});"))
  end.

(** Successive calls of [write] for the modules [ms] of one entry point;
    [None] when one of them throws. *)
Definition writeAll (self : Maps) (pluginName entryPoint : str) (ms : list str)
    : option Maps :=
  fold_left (fun s m => match s with
                        | Some s => option_map fst (write s pluginName m entryPoint)
                        | None => None
                        end) ms (Some self).

(** An entry whose fields are strings, as [writeFile] expects it. *)
Definition definedEntry (e : WrittenEntry) : option ICSSEntryPointData :=
  match w_contents e, w_fsPath e with
  | Own c, Own p => Some (mkEntry (w_moduleName e) c p)
  | _, _ => None
  end.

End PluginState.

Import PluginState.

Example loadConfig_run :
  loadConfig (Some (mkOptions (Some true) (Some (mkCssConfig (Some IR_base64) (Some 0)))))
  = (IR_base64, 5000).
Proof. reflexivity. Qed.

Section PluginStateFacts.

Lemma objGet_objSet_same {V} (o : list (str * V)) k v : objGet (objSet o k v) k = Some v.
Proof.
  unfold objGet. induction o as [|[k' v'] o IH]; cbn [objSet find fst].
  - rewrite str_eqb_refl. reflexivity.
  - destruct (str_eqb k' k) eqn:E; cbn [find fst]; rewrite E; [reflexivity|exact IH].
Qed.

Lemma objGet_objSet_other {V} (o : list (str * V)) k k' v :
  k' <> k -> objGet (objSet o k v) k' = objGet o k'.
Proof.
  intros Hne. unfold objGet. induction o as [|[k0 v0] o IH]; cbn [objSet find fst].
  - replace (str_eqb k k') with false
      by (symmetry; apply str_eqb_neq; congruence). reflexivity.
  - destruct (str_eqb k0 k) eqn:E; cbn [find fst].
    + apply str_eqb_eq in E. subst k0.
      replace (str_eqb k k') with false
        by (symmetry; apply str_eqb_neq; congruence). reflexivity.
    + destruct (str_eqb k0 k'); [reflexivity|exact IH].
Qed.

Lemma objSet_objSet {V} (o : list (str * V)) k v v' :
  objSet (objSet o k v) k v' = objSet o k v'.
Proof.
  induction o as [|[k0 v0] o IH]; cbn [objSet].
  - rewrite str_eqb_refl. reflexivity.
  - destruct (str_eqb k0 k) eqn:E; cbn [objSet]; rewrite E; [reflexivity|].
    rewrite IH. reflexivity.
Qed.

(** The entry that [write] pushes for a module. *)
Definition entryFor (self : Maps) (m : str) : WrittenEntry :=
  mkWritten m (plainGet (_contentsMap self) m) (plainGet (_pathMap self) m).

Definition entriesAt (self : Maps) (ep : str) : list WrittenEntry :=
  match objGet (entryPointsMap self) ep with Some l => l | None => [] end.

(** The maps after a call of [write] that does not throw. *)
Definition written1 (ep : str) (self : Maps) (m : str) : Maps :=
  mkMaps (_contentsMap self) (_pathMap self)
    (objSet (entryPointsMap self) ep (entriesAt self ep ++ [entryFor self m])).

Lemma plainGet_plain {V} (o : list (str * V)) k :
  isProtoName k = false ->
  plainGet o k = match objGet o k with Some v => Own v | None => Undefined end.
Proof.
  intros H. unfold plainGet. destruct (str_eqb k $"__proto__") eqn:E.
  - apply str_eqb_eq in E. subst k. discriminate H.
  - rewrite H. reflexivity.
Qed.

Lemma plainGet_inherited {V} (o : list (str * V)) k :
  isProtoName k = true -> objGet o k = None -> plainGet o k = Inherited k.
Proof.
  intros H G. unfold plainGet. rewrite G, H. destruct (str_eqb k $"__proto__"); reflexivity.
Qed.

Lemma write_ok self pn m ep :
  isProtoName ep = false ->
  write self pn m ep
  = Some (written1 ep self m,
          (pn ++ $"!" ++ m, $"define(['vs/css!" ++ ep ++ $"'], {});")).
Proof.
  intros H. unfold write, written1, entriesAt, entryFor. cbv zeta.
  rewrite (plainGet_plain (entryPointsMap self) ep H).
  destruct (objGet (entryPointsMap self) ep) as [l|];
    rewrite objGet_objSet_same, objSet_objSet; reflexivity.
Qed.

Lemma writeAll_ok pn ep ms :
  isProtoName ep = false ->
  forall self, writeAll self pn ep ms = Some (fold_left (written1 ep) ms self).
Proof.
  intros H. unfold writeAll. induction ms as [|m ms IH]; intros self; [reflexivity|].
  cbn [fold_left]. rewrite (write_ok self pn m ep H). cbn [option_map fst]. apply IH.
Qed.

Lemma written1_entriesAt self m ep :
  entriesAt (written1 ep self m) ep = entriesAt self ep ++ [entryFor self m].
Proof.
  unfold entriesAt at 1, written1. cbn [entryPointsMap].
  rewrite objGet_objSet_same. reflexivity.
Qed.

Lemma written1_other self m ep ep' :
  ep' <> ep ->
  objGet (entryPointsMap (written1 ep self m)) ep' = objGet (entryPointsMap self) ep'.
Proof. intros Hne. unfold written1. cbn [entryPointsMap]. apply objGet_objSet_other. exact Hne. Qed.

Lemma writtenAll_entries ep ms : forall self,
  entriesAt (fold_left (written1 ep) ms self) ep
  = entriesAt self ep ++ map (entryFor self) ms
  /\ (forall ep', ep' <> ep ->
        objGet (entryPointsMap (fold_left (written1 ep) ms self)) ep'
        = objGet (entryPointsMap self) ep')
  /\ _contentsMap (fold_left (written1 ep) ms self) = _contentsMap self
  /\ _pathMap (fold_left (written1 ep) ms self) = _pathMap self.
Proof.
  induction ms as [|m ms IH]; intros self; cbn [fold_left map].
  - rewrite app_nil_r. repeat split; reflexivity.
  - destruct (IH (written1 ep self m)) as [H1 [H2 [H3 H4]]].
    rewrite H1, H3, H4, written1_entriesAt. split; [|split; [|split; reflexivity]].
    + rewrite <- app_assoc. reflexivity.
    + intros ep' Hne. rewrite (H2 ep' Hne). apply written1_other. exact Hne.
Qed.

End PluginStateFacts.



(** X18: [write] keeps the order of the modules.  For an entry point
    whose name is not the name of a member of [Object.prototype], the calls
    of [write] for the modules [ms], in that order, do not throw, and
    afterwards the entries of the entry point are the former ones followed
    by one entry per module, in that order, each with what the two maps
    read for the module; the other entry points and the two maps are as
    before.  For an entry point named like a member of [Object.prototype]
    that the plugin has no entries for, [write] throws. *)
Theorem write_keeps_order (self : Maps) (pluginName entryPoint : str) (ms : list str)
    (Hname : isProtoName entryPoint = false) :
  (exists after,
     writeAll self pluginName entryPoint ms = Some after
     /\ (match objGet (entryPointsMap after) entryPoint with Some l => l | None => [] end)
        = (match objGet (entryPointsMap self) entryPoint with Some l => l | None => [] end)
          ++ map (fun m => mkWritten m (plainGet (_contentsMap self) m)
                             (plainGet (_pathMap self) m)) ms
     /\ (forall ep', ep' <> entryPoint ->
           objGet (entryPointsMap after) ep' = objGet (entryPointsMap self) ep')
     /\ _contentsMap after = _contentsMap self
     /\ _pathMap after = _pathMap self)
  /\ (forall name m,
        isProtoName name = true -> objGet (entryPointsMap self) name = None ->
        write self pluginName m name = None).
Proof.
  split.
  - exists (fold_left (written1 entryPoint) ms self).
    split; [apply writeAll_ok; exact Hname|].
    apply (writtenAll_entries entryPoint ms self).
  - intros name m Hp Hnone. unfold write. cbv zeta.
    rewrite (plainGet_inherited _ name Hp Hnone). reflexivity.
Qed.

Lemma write_keeps_order_witness :
  let self := mkMaps [($"a/s", $"p{}"); ($"constructor", $"q{}")]
                     [($"a/s", $"/src/a/s.css")]
                     [($"out/bundle", [mkWritten $"z" Undefined Undefined])] in
  (exists after,
     writeAll self $"vs/css" $"out/bundle" [$"toString"; $"a/s"; $"constructor"]
     = Some after
     /\ (match objGet (entryPointsMap after) $"out/bundle" with
         | Some l => l
         | None => []
         end)
        = (match objGet (entryPointsMap self) $"out/bundle" with
           | Some l => l
           | None => []
           end)
          ++ map (fun m => mkWritten m (plainGet (_contentsMap self) m)
                             (plainGet (_pathMap self) m))
               [$"toString"; $"a/s"; $"constructor"]
     /\ (forall ep', ep' <> $"out/bundle" ->
           objGet (entryPointsMap after) ep' = objGet (entryPointsMap self) ep')
     /\ _contentsMap after = _contentsMap self
     /\ _pathMap after = _pathMap self)
  /\ (forall name m,
        isProtoName name = true -> objGet (entryPointsMap self) name = None ->
        write self $"vs/css" m name = None).
Proof.
  cbv zeta.
  apply (write_keeps_order
           (mkMaps [($"a/s", $"p{}"); ($"constructor", $"q{}")]
                   [($"a/s", $"/src/a/s.css")]
                   [($"out/bundle", [mkWritten $"z" Undefined Undefined])])
           $"vs/css" $"out/bundle" [$"toString"; $"a/s"; $"constructor"]).
  reflexivity.
Defined.

Example write_run :
  let self := mkMaps [($"a/s", $"p{}"); ($"constructor", $"q{}")]
                     [($"a/s", $"/src/a/s.css")] [] in
  option_map (fun r => entryPointsMap (fst r)) (write self $"vs/css" $"toString" $"out/bundle")
  = Some [($"out/bundle",
           [mkWritten $"toString" (Inherited $"toString") (Inherited $"toString")])]
  /\ option_map (fun r => entryPointsMap (fst r))
       (write self $"vs/css" $"constructor" $"out/bundle")
     = Some [($"out/bundle",
              [mkWritten $"constructor" (Own $"q{}") (Inherited $"constructor")])]
  /\ write self $"vs/css" $"a/s" $"constructor" = None
  /\ write self $"vs/css" $"a/s" $"__proto__" = None.
Proof. cbv zeta. repeat split; vm_compute; reflexivity. Qed.

Section Pipeline.

(** The entries of an entry point, when all of them are defined. *)
Fixpoint definedAll (es : list WrittenEntry) : option (list ICSSEntryPointData) :=
  match es with
  | [] => Some []
  | e :: rest =>
      match definedEntry e, definedAll rest with
      | Some x, Some xs => Some (x :: xs)
      | _, _ => None
      end
  end.

Fixpoint definedEntryPoints (eps : list (str * list WrittenEntry))
    : option (list (str * list ICSSEntryPointData)) :=
  match eps with
  | [] => Some []
  | (k, es) :: rest =>
      match definedAll es, definedEntryPoints rest with
      | Some xs, Some r => Some ((k, xs) :: r)
      | _, _ => None
      end
  end.

(** The plugin as [writeFile] reads it, when every entry is defined. *)
Definition toPlugin (cfg : InlineResources * Z) (maps : Maps) : option Plugin :=
  option_map (mkPlugin (fst cfg) (snd cfg)) (definedEntryPoints (entryPointsMap maps)).

Lemma writtenAll_single ep ms : forall self l,
  entryPointsMap self = [(ep, l)] ->
  entryPointsMap (fold_left (written1 ep) ms self) = [(ep, l ++ map (entryFor self) ms)].
Proof.
  induction ms as [|m ms IH]; intros self l H; cbn [fold_left map].
  - rewrite app_nil_r. exact H.
  - rewrite (IH (written1 ep self m) (l ++ [entryFor self m])).
    + rewrite <- app_assoc. reflexivity.
    + unfold written1, entriesAt, objGet. cbn [entryPointsMap]. rewrite H.
      cbn [find fst objSet option_map snd]. rewrite str_eqb_refl.
      cbn [option_map snd]. reflexivity.
Qed.

Lemma writtenAll_fresh ep m ms self :
  entryPointsMap self = [] ->
  entryPointsMap (fold_left (written1 ep) (m :: ms) self)
  = [(ep, map (entryFor self) (m :: ms))].
Proof.
  intros H. cbn [fold_left map].
  rewrite (writtenAll_single ep ms (written1 ep self m) [entryFor self m]).
  - reflexivity.
  - unfold written1, entriesAt, objGet. cbn [entryPointsMap]. rewrite H. reflexivity.
Qed.

Lemma definedAll_loaded (self : Maps) (contentsOf fsPathOf : str -> str) ms :
  Forall (fun m => plainGet (_contentsMap self) m = Own (contentsOf m)
                   /\ plainGet (_pathMap self) m = Own (fsPathOf m)) ms ->
  definedAll (map (entryFor self) ms)
  = Some (map (fun m => mkEntry m (contentsOf m) (fsPathOf m)) ms).
Proof.
  induction 1 as [|m ms [Hc Hp] _ IH]; [reflexivity|].
  cbn [map definedAll]. rewrite IH. unfold definedEntry, entryFor.
  cbn [w_contents w_fsPath w_moduleName]. rewrite Hc, Hp. reflexivity.
Qed.

End Pipeline.

(** X19: from [write] to [writeFile].  On a plugin that has written
    nothing yet, for an entry point whose name is not the name of a member
    of [Object.prototype], after [write] was called for the modules [ms]
    of the entry point, each of them loaded with its contents and path,
    [writeFile] without inlining hands the host one blob: the banner
    followed by the rewritten contents of the modules in the order of the
    [write] calls, joined by CR LF. *)
Theorem write_then_writeFile (fs : INodeFS) (path : INodePath)
    (contentsOf fsPathOf : str -> str) (self : Maps)
    (pluginName entryPoint : str) (ms : list str)
    (mode : InlineResources) (limit : Z) (toUrl : str -> str) (w : World)
    (Hname : isProtoName entryPoint = false)
    (Hfresh : entryPointsMap self = [])
    (Hloaded : Forall (fun m => plainGet (_contentsMap self) m = Own (contentsOf m)
                                /\ plainGet (_pathMap self) m = Own (fsPathOf m)) ms)
    (Hms : ms <> [])
    (Hoff : enabled mode = false) :
  exists maps plugin,
    writeAll self pluginName entryPoint ms = Some maps
    /\ toPlugin (mode, limit) maps = Some plugin
    /\ writeFile fs path plugin entryPoint toUrl w
       = (Ok tt,
          mkWorld (inlinedResources w) (fsReads w)
            (written w
             ++ [(toUrl (entryPoint ++ $".css"),
                  join_with CRLF
                    (banner
                     ++ map (fun m => rewrittenText m entryPoint (contentsOf m)) ms))])).
Proof.
  destruct ms as [|m ms]; [congruence|].
  exists (fold_left (written1 entryPoint) (m :: ms) self).
  exists (mkPlugin mode limit
            [(entryPoint, map (fun m => mkEntry m (contentsOf m) (fsPathOf m)) (m :: ms))]).
  split; [apply writeAll_ok; exact Hname|]. split.
  - unfold toPlugin. rewrite (writtenAll_fresh entryPoint m ms self Hfresh).
    cbn [definedEntryPoints].
    rewrite (definedAll_loaded self contentsOf fsPathOf (m :: ms) Hloaded). reflexivity.
  - unfold writeFile. cbn [_entryPoints entryPointsOf]. rewrite str_eqb_refl.
    unfold bind. rewrite rewriteEntries_text by exact Hoff.
    unfold hostWrite. rewrite map_map. reflexivity.
Qed.

Lemma write_then_writeFile_witness :
  let self := mkMaps [($"a/s", $"p{background:url(x.gif)}"); ($"b/t", $"q{}")]
                     [($"a/s", $"/src/a/s.css"); ($"b/t", $"/src/b/t.css")] [] in
  let contentsOf := fun m => match objGet (_contentsMap self) m with
                             | Some c => c
                             | None => []
                             end in
  let toUrl := fun n => $"/www/" ++ n in
  exists maps plugin,
    writeAll self $"vs/css" $"out/bundle" [$"b/t"; $"a/s"] = Some maps
    /\ toPlugin (IR_false, 5000) maps = Some plugin
    /\ writeFile disk posixPath plugin $"out/bundle" toUrl w0
       = (Ok tt,
          mkWorld (inlinedResources w0) (fsReads w0)
            (written w0
             ++ [(toUrl ($"out/bundle" ++ $".css"),
                  join_with CRLF
                    (banner
                     ++ map (fun m => rewrittenText m $"out/bundle" (contentsOf m))
                          [$"b/t"; $"a/s"]))])).
Proof.
  cbv zeta.
  apply (write_then_writeFile disk posixPath
           (fun m => match objGet [($"a/s", $"p{background:url(x.gif)}"); ($"b/t", $"q{}")] m
                     with Some c => c | None => [] end)
           (fun m => match objGet [($"a/s", $"/src/a/s.css"); ($"b/t", $"/src/b/t.css")] m
                     with Some c => c | None => [] end)
           (mkMaps [($"a/s", $"p{background:url(x.gif)}"); ($"b/t", $"q{}")]
                   [($"a/s", $"/src/a/s.css"); ($"b/t", $"/src/b/t.css")] [])
           $"vs/css" $"out/bundle" [$"b/t"; $"a/s"] IR_false 5000
           (fun n => $"/www/" ++ n) w0).
  - reflexivity.
  - reflexivity.
  - repeat constructor.
  - discriminate.
  - reflexivity.
Defined.

(** * vs/base/common/collections.ts *)

(** A JavaScript [Set] is the list of its elements in insertion order,
    without repetition; a [Map] is the list of its entries in insertion
    order, with distinct keys.  Elements and keys are compared by
    SameValueZero, an equivalence: the model reads it as the equality of a
    type on which equality is decidable.  A dictionary object is the list
    of its own enumerable properties, as for the maps of the plugin. *)
Module Collections.

Section Containers.
Context {T : Type} (T_eq_dec : forall x y : T, {x = y} + {x <> y}).

Definition eqb (x y : T) : bool := if T_eq_dec x y then true else false.

(** [s.has(x)], [s.add(x)], [s.delete(x)]. *)
Definition set_has (s : list T) (x : T) : bool := existsb (eqb x) s.

Definition set_add (s : list T) (x : T) : list T :=
  if set_has s x then s else s ++ [x].

Definition set_delete (s : list T) (x : T) : list T :=
  filter (fun y => negb (eqb x y)) s.

(** [diffSets(before, after)]: the pair [(removed, added)]. *)
Definition diffSets (before after : list T) : list T * list T :=
  let removed :=
    fold_left (fun removed element =>
                 if negb (set_has after element) then removed ++ [element] else removed)
              before [] in
  let added :=
    fold_left (fun added element =>
                 if negb (set_has before element) then added ++ [element] else added)
              after [] in
  (removed, added).

End Containers.

Section Maps.
Context {K V : Type} (K_eq_dec : forall x y : K, {x = y} + {x <> y}).

(** [m.get(k)], [m.has(k)], [m.set(k, v)], [m.delete(k)]. *)
Definition map_get (m : list (K * V)) (k : K) : option V :=
  option_map snd (find (fun kv => eqb K_eq_dec k (fst kv)) m).

Definition map_has (m : list (K * V)) (k : K) : bool :=
  existsb (fun kv => eqb K_eq_dec k (fst kv)) m.

Fixpoint map_set (m : list (K * V)) (k : K) (v : V) : list (K * V) :=
  match m with
  | [] => [(k, v)]
  | (k', v') :: rest =>
      if eqb K_eq_dec k k' then (k', v) :: rest else (k', v') :: map_set rest k v
  end.

Definition map_delete (m : list (K * V)) (k : K) : list (K * V) :=
  filter (fun kv => negb (eqb K_eq_dec k (fst kv))) m.

(** [diffMaps(before, after)]: the pair [(removed, added)] of values. *)
Definition diffMaps (before after : list (K * V)) : list V * list V :=
  let removed :=
    fold_left (fun removed '(index, value) =>
                 if negb (map_has after index) then removed ++ [value] else removed)
              before [] in
  let added :=
    fold_left (fun added '(index, value) =>
                 if negb (map_has before index) then added ++ [value] else added)
              after [] in
  (removed, added).

End Maps.

(** [class SetMap]: the private [map] of the object; a method returns the
    map it leaves behind.  The set stored under a key is shared with the
    map, so a change of the set is a change of the entry, in place. *)
Module SetMap.

Section Methods.
Context {K V : Type}
        (K_eq_dec : forall x y : K, {x = y} + {x <> y})
        (V_eq_dec : forall x y : V, {x = y} + {x <> y}).

Definition empty : list (K * list V) := [].

Definition add (map : list (K * list V)) (key : K) (value : V) : list (K * list V) :=
  match map_get K_eq_dec map key with
  | None =>
      let values := [] in
      let map := map_set K_eq_dec map key values in
      map_set K_eq_dec map key (set_add V_eq_dec values value)
  | Some values =>
      map_set K_eq_dec map key (set_add V_eq_dec values value)
  end.

Definition delete (map : list (K * list V)) (key : K) (value : V) : list (K * list V) :=
  match map_get K_eq_dec map key with
  | None => map
  | Some values =>
      let values := set_delete V_eq_dec values value in
      let map := map_set K_eq_dec map key values in
      if (List.length values =? 0)%nat then map_delete K_eq_dec map key else map
  end.

(** [forEach(key, fn)], the callback acting on a state. *)
Definition forEach {S : Type} (map : list (K * list V)) (key : K)
    (fn : V -> S -> S) (s : S) : S :=
  match map_get K_eq_dec map key with
  | None => s
  | Some values => fold_left (fun s v => fn v s) values s
  end.

(** The calls made on a set map. *)
Inductive call : Type :=
  | Add (key : K) (value : V)
  | Delete (key : K) (value : V).

Definition perform (map : list (K * list V)) (c : call) : list (K * list V) :=
  match c with
  | Add k v => add map k v
  | Delete k v => delete map k v
  end.

Definition run (calls : list call) : list (K * list V) := fold_left perform calls empty.

End Methods.

End SetMap.

(** [groupBy(data, groupFn)]: the result is created without prototype
    and the keys are the property names that the group function gives; the
    array stored under a key is shared with the result. *)
Definition groupBy {V : Type} (data : list V) (groupFn : V -> str) : list (str * list V) :=
  fold_left (fun result element =>
               let key := groupFn element in
               match objGet result key with
               | Some target => objSet result key (target ++ [element])
               | None =>
                   let target := [] in
                   let result := objSet result key target in
                   objSet result key (target ++ [element])
               end)
            data [].

(** [fromMap(original)]; [None] is a missing map. *)
Definition fromMap {T : Type} (original : option (list (str * T))) : list (str * T) :=
  match original with
  | Some entries => fold_left (fun result '(key, value) => objSet result key value) entries []
  | None => []
  end.

(** What a callback of [forEach] returns: [false], or anything else. *)
Inductive answer : Type := IsFalse | Other.

(** [forEach(from, callback)] over the entries of [from], the callback
    acting on a state. *)
Fixpoint forEach {T S : Type} (from : list (str * T))
    (callback : str * T -> S -> S * answer) (s : S) : S :=
  match from with
  | [] => s
  | entry :: rest =>
      match callback entry s with
      | (s', IsFalse) => s'
      | (s', Other) => forEach rest callback s'
      end
  end.

End Collections.

Section CollectionsFacts.
Import Collections.
Context {T : Type} (T_eq_dec : forall x y : T, {x = y} + {x <> y}).

Lemma eqb_eq (x y : T) : eqb T_eq_dec x y = true <-> x = y.
Proof. unfold eqb. destruct (T_eq_dec x y); split; congruence. Qed.

Lemma eqb_neq (x y : T) : eqb T_eq_dec x y = false <-> x <> y.
Proof. unfold eqb. destruct (T_eq_dec x y); split; congruence. Qed.

Lemma eqb_refl (x : T) : eqb T_eq_dec x x = true.
Proof. apply eqb_eq. reflexivity. Qed.

Lemma eqb_sym (x y : T) : eqb T_eq_dec x y = eqb T_eq_dec y x.
Proof. unfold eqb. destruct (T_eq_dec x y), (T_eq_dec y x); congruence. Qed.

Lemma set_has_In (s : list T) x : set_has T_eq_dec s x = true <-> In x s.
Proof.
  unfold set_has. rewrite existsb_exists. split.
  - intros [y [Hy E]]. apply eqb_eq in E. subst y. exact Hy.
  - intros H. exists x. split; [exact H|apply eqb_refl].
Qed.

Lemma set_has_not_In (s : list T) x : set_has T_eq_dec s x = false <-> ~ In x s.
Proof.
  rewrite <- set_has_In. destruct (set_has T_eq_dec s x); split; congruence.
Qed.

Lemma fold_push_filter {A B : Type} (p : A -> bool) (f : A -> B) l : forall acc,
  fold_left (fun acc e => if p e then acc ++ [f e] else acc) l acc
  = acc ++ map f (filter p l).
Proof.
  induction l as [|e l IH]; intros acc; cbn [fold_left filter map].
  - rewrite app_nil_r. reflexivity.
  - rewrite IH. destruct (p e); cbn [map]; [rewrite <- app_assoc|]; reflexivity.
Qed.

Lemma diffSets_filter (before after : list T) :
  diffSets T_eq_dec before after
  = (filter (fun e => negb (set_has T_eq_dec after e)) before,
     filter (fun e => negb (set_has T_eq_dec before e)) after).
Proof.
  unfold diffSets.
  rewrite (fold_push_filter (fun e => negb (set_has T_eq_dec after e)) (fun e => e)).
  rewrite (fold_push_filter (fun e => negb (set_has T_eq_dec before e)) (fun e => e)).
  rewrite !map_id. reflexivity.
Qed.

Lemma diffSets_In (before after : list T) x :
  (In x (fst (diffSets T_eq_dec before after)) <-> In x before /\ ~ In x after)
  /\ (In x (snd (diffSets T_eq_dec before after)) <-> In x after /\ ~ In x before).
Proof.
  rewrite diffSets_filter. cbn [fst snd]. rewrite !filter_In, !negb_true_iff.
  rewrite !set_has_not_In. tauto.
Qed.

Lemma filter_none {A : Type} (p : A -> bool) l :
  (forall x, In x l -> p x = false) -> filter p l = [].
Proof.
  induction l as [|e l IH]; intros H; cbn [filter]; [reflexivity|].
  rewrite (H e (or_introl eq_refl)). apply IH. intros x Hx. apply H. right. exact Hx.
Qed.

Lemma filter_all {A : Type} (p : A -> bool) l :
  (forall x, In x l -> p x = true) -> filter p l = l.
Proof.
  induction l as [|e l IH]; intros H; cbn [filter]; [reflexivity|].
  rewrite (H e (or_introl eq_refl)). f_equal. apply IH. intros x Hx. apply H. right. exact Hx.
Qed.

Lemma set_has_app (s1 s2 : list T) x :
  set_has T_eq_dec (s1 ++ s2) x = set_has T_eq_dec s1 x || set_has T_eq_dec s2 x.
Proof. unfold set_has. apply existsb_app. Qed.

Lemma set_has_add (s : list T) x y :
  set_has T_eq_dec (set_add T_eq_dec s x) y = eqb T_eq_dec x y || set_has T_eq_dec s y.
Proof.
  unfold set_add. destruct (set_has T_eq_dec s x) eqn:E.
  - destruct (eqb T_eq_dec x y) eqn:Exy; [|reflexivity].
    apply eqb_eq in Exy. subst y. rewrite E. reflexivity.
  - rewrite set_has_app. cbn [set_has existsb]. rewrite orb_false_r.
    rewrite (eqb_sym y x). apply orb_comm.
Qed.

Lemma set_has_delete (s : list T) x y :
  set_has T_eq_dec (set_delete T_eq_dec s x) y
  = set_has T_eq_dec s y && negb (eqb T_eq_dec x y).
Proof.
  unfold set_delete. induction s as [|e s IH]; [reflexivity|].
  cbn [filter]. destruct (eqb T_eq_dec x e) eqn:E; cbn [negb].
  - apply eqb_eq in E. subst e. rewrite IH. cbn [set_has existsb].
    rewrite (eqb_sym y x). destruct (eqb T_eq_dec x y); cbn [negb orb andb];
      [rewrite !andb_false_r|]; reflexivity.
  - cbn [set_has existsb]. fold (set_has T_eq_dec (filter (fun y0 => negb (eqb T_eq_dec x y0)) s) y).
    rewrite IH. fold (set_has T_eq_dec s y).
    destruct (eqb T_eq_dec y e) eqn:Eye; cbn [orb]; [|reflexivity].
    apply eqb_eq in Eye. subst e. rewrite E. reflexivity.
Qed.

Lemma set_add_nonempty (s : list T) x : set_add T_eq_dec s x <> [].
Proof.
  unfold set_add. destruct (set_has T_eq_dec s x) eqn:E.
  - intros ->. discriminate E.
  - destruct s; discriminate.
Qed.

Lemma set_add_NoDup (s : list T) x : NoDup s -> NoDup (set_add T_eq_dec s x).
Proof.
  intros H. unfold set_add. destruct (set_has T_eq_dec s x) eqn:E; [exact H|].
  apply set_has_not_In in E. apply NoDup_app; [exact H|repeat constructor; intros []|].
  intros y Hy [<-|[]]. exact (E Hy).
Qed.

Lemma set_delete_NoDup (s : list T) x : NoDup s -> NoDup (set_delete T_eq_dec s x).
Proof. apply NoDup_filter. Qed.

Lemma set_delete_fresh (s : list T) x :
  set_has T_eq_dec s x = false -> set_delete T_eq_dec (s ++ [x]) x = s.
Proof.
  intros H. unfold set_delete. rewrite filter_app. cbn [filter].
  rewrite eqb_refl. cbn [negb]. rewrite app_nil_r. apply filter_all.
  intros y Hy. apply negb_true_iff, eqb_neq. intros <-.
  apply set_has_not_In in H. exact (H Hy).
Qed.

End CollectionsFacts.

(** X20: what [diffSets] reports.  An element is reported as removed
    exactly when it is in [before] and not in [after], and as added exactly
    when it is in [after] and not in [before]; both lists keep the order
    of the set they are taken from, and no element is in both. *)
Theorem diffSets_membership (T : Type) (T_eq_dec : forall x y : T, {x = y} + {x <> y})
    (before after : list T) :
  let d := Collections.diffSets T_eq_dec before after in
  (forall x, In x (fst d) <-> In x before /\ ~ In x after)
  /\ (forall x, In x (snd d) <-> In x after /\ ~ In x before)
  /\ (forall x, ~ (In x (fst d) /\ In x (snd d)))
  /\ fst d = filter (fun e => negb (Collections.set_has T_eq_dec after e)) before
  /\ snd d = filter (fun e => negb (Collections.set_has T_eq_dec before e)) after.
Proof.
  cbv zeta. split; [|split; [|split]].
  - intros x. apply (diffSets_In T_eq_dec before after x).
  - intros x. apply (diffSets_In T_eq_dec before after x).
  - intros x [H1 H2].
    apply (diffSets_In T_eq_dec before after x) in H1.
    apply (diffSets_In T_eq_dec before after x) in H2. tauto.
  - rewrite diffSets_filter. split; reflexivity.
Qed.

(** X21: the report of [diffSets] turns [before] into [after]: the
    elements of [after] are those of [before] that are not reported as
    removed, and those reported as added; so nothing is reported exactly
    when the two sets have the same elements. *)
Theorem diffSets_patch (T : Type) (T_eq_dec : forall x y : T, {x = y} + {x <> y})
    (before after : list T) :
  let d := Collections.diffSets T_eq_dec before after in
  (forall x, In x after <-> (In x before /\ ~ In x (fst d)) \/ In x (snd d))
  /\ (d = ([], []) <-> forall x, In x before <-> In x after).
Proof.
  cbv zeta. split.
  - intros x.
    pose proof (diffSets_In T_eq_dec before after x) as [Hr Ha].
    rewrite Hr, Ha.
    destruct (in_dec T_eq_dec x before), (in_dec T_eq_dec x after); tauto.
  - split.
    + intros E x.
      pose proof (diffSets_In T_eq_dec before after x) as [Hr Ha].
      rewrite E in Hr, Ha. cbn [fst snd In] in Hr, Ha.
      destruct (in_dec T_eq_dec x before), (in_dec T_eq_dec x after); tauto.
    + intros H. rewrite diffSets_filter. f_equal.
      * apply filter_none. intros x Hx. apply negb_false_iff.
        apply (set_has_In T_eq_dec). apply H. exact Hx.
      * apply filter_none. intros x Hx. apply negb_false_iff.
        apply (set_has_In T_eq_dec). apply H. exact Hx.
Qed.

Section MapFacts.
Import Collections.
Context {K V : Type} (K_eq_dec : forall x y : K, {x = y} + {x <> y}).

Lemma map_has_In (m : list (K * V)) k : map_has K_eq_dec m k = true <-> In k (map fst m).
Proof.
  unfold map_has. rewrite existsb_exists, in_map_iff. split.
  - intros [kv [Hkv E]]. apply eqb_eq in E. exists kv. split; [congruence|exact Hkv].
  - intros [kv [E Hkv]]. exists kv. split; [exact Hkv|]. apply eqb_eq. congruence.
Qed.


Lemma map_get_In (m : list (K * V)) k v : map_get K_eq_dec m k = Some v -> In (k, v) m.
Proof.
  unfold map_get. destruct (find _ m) as [[k' v']|] eqn:F; [|discriminate].
  intros [= <-]. apply find_some in F. destruct F as [Hin E].
  apply eqb_eq in E. cbn [fst] in E. subst k'. exact Hin.
Qed.

Lemma map_get_set_same (m : list (K * V)) k v :
  map_get K_eq_dec (map_set K_eq_dec m k v) k = Some v.
Proof.
  unfold map_get. induction m as [|[k' v'] m IH]; cbn [map_set find fst].
  - rewrite eqb_refl. reflexivity.
  - destruct (eqb K_eq_dec k k') eqn:E; cbn [find fst]; rewrite E; [reflexivity|exact IH].
Qed.

Lemma map_get_set_other (m : list (K * V)) k k' v :
  k <> k' -> map_get K_eq_dec (map_set K_eq_dec m k v) k' = map_get K_eq_dec m k'.
Proof.
  intros Hne. unfold map_get. induction m as [|[k0 v0] m IH]; cbn [map_set find fst].
  - replace (eqb K_eq_dec k' k) with false
      by (symmetry; apply eqb_neq; congruence). reflexivity.
  - destruct (eqb K_eq_dec k k0) eqn:E; cbn [find fst].
    + apply eqb_eq in E. subst k0.
      replace (eqb K_eq_dec k' k) with false
        by (symmetry; apply eqb_neq; congruence). reflexivity.
    + destruct (eqb K_eq_dec k' k0); [reflexivity|exact IH].
Qed.

Lemma map_set_set (m : list (K * V)) k v v' :
  map_set K_eq_dec (map_set K_eq_dec m k v) k v' = map_set K_eq_dec m k v'.
Proof.
  induction m as [|[k0 v0] m IH]; cbn [map_set].
  - rewrite eqb_refl. reflexivity.
  - destruct (eqb K_eq_dec k k0) eqn:E; cbn [map_set]; rewrite E; [reflexivity|].
    rewrite IH. reflexivity.
Qed.

Lemma map_set_get_id (m : list (K * V)) k v :
  map_get K_eq_dec m k = Some v -> map_set K_eq_dec m k v = m.
Proof.
  unfold map_get. induction m as [|[k0 v0] m IH]; [discriminate|].
  cbn [map_set find fst]. destruct (eqb K_eq_dec k k0) eqn:E.
  - cbn [option_map snd]. intros [= ->]. reflexivity.
  - intros H. rewrite (IH H). reflexivity.
Qed.

Lemma map_set_fresh (m : list (K * V)) k v :
  map_get K_eq_dec m k = None -> map_set K_eq_dec m k v = m ++ [(k, v)].
Proof.
  unfold map_get. induction m as [|[k0 v0] m IH]; [reflexivity|].
  cbn [map_set find fst app]. destruct (eqb K_eq_dec k k0) eqn:E; [discriminate|].
  intros H. rewrite (IH H). reflexivity.
Qed.

Lemma map_get_delete (m : list (K * V)) k k' :
  map_get K_eq_dec (map_delete K_eq_dec m k) k'
  = if eqb K_eq_dec k k' then None else map_get K_eq_dec m k'.
Proof.
  unfold map_get, map_delete. induction m as [|[k0 v0] m IH]; cbn [filter find fst].
  - destruct (eqb K_eq_dec k k'); reflexivity.
  - destruct (eqb K_eq_dec k k0) eqn:E; cbn [negb find fst].
    + rewrite IH. destruct (eqb K_eq_dec k k') eqn:E'; [reflexivity|].
      apply eqb_eq in E. subst k0. rewrite (eqb_sym K_eq_dec k' k), E'. reflexivity.
    + destruct (eqb K_eq_dec k' k0) eqn:E0; [|exact IH].
      apply eqb_eq in E0. subst k0. rewrite E. reflexivity.
Qed.

Lemma map_delete_set (m : list (K * V)) k v :
  map_delete K_eq_dec (map_set K_eq_dec m k v) k = map_delete K_eq_dec m k.
Proof.
  unfold map_delete. induction m as [|[k0 v0] m IH]; cbn [map_set filter fst].
  - rewrite eqb_refl. reflexivity.
  - destruct (eqb K_eq_dec k k0) eqn:E; cbn [filter fst]; rewrite E; cbn [negb];
      [reflexivity|]. rewrite IH. reflexivity.
Qed.

Lemma map_delete_absent (m : list (K * V)) k :
  map_get K_eq_dec m k = None -> map_delete K_eq_dec m k = m.
Proof.
  unfold map_get, map_delete. induction m as [|[k0 v0] m IH]; [reflexivity|].
  cbn [filter find fst]. destruct (eqb K_eq_dec k k0); [discriminate|].
  intros H. cbn [negb]. rewrite (IH H). reflexivity.
Qed.

Lemma map_set_keys (m : list (K * V)) k v :
  map fst (map_set K_eq_dec m k v)
  = if map_has K_eq_dec m k then map fst m else map fst m ++ [k].
Proof.
  unfold map_has. induction m as [|[k0 v0] m IH]; [reflexivity|].
  cbn [map_set existsb fst]. destruct (eqb K_eq_dec k k0); cbn [map fst orb]; [reflexivity|].
  rewrite IH. destruct (existsb _ m); reflexivity.
Qed.

Lemma map_set_NoDup (m : list (K * V)) k v :
  NoDup (map fst m) -> NoDup (map fst (map_set K_eq_dec m k v)).
Proof.
  intros H. rewrite map_set_keys. destruct (map_has K_eq_dec m k) eqn:E; [exact H|].
  apply NoDup_app; [exact H|repeat constructor; intros []|].
  intros y Hy [<-|[]]. apply map_has_In in Hy. congruence.
Qed.

Lemma map_set_Forall (P : K * V -> Prop) (m : list (K * V)) k v :
  Forall P m -> P (k, v) -> Forall P (map_set K_eq_dec m k v).
Proof.
  intros H Hk. induction H as [|[k0 v0] m H0 H IH]; cbn [map_set].
  - repeat constructor. exact Hk.
  - destruct (eqb K_eq_dec k k0) eqn:E.
    + apply eqb_eq in E. subst k0. constructor; assumption.
    + constructor; assumption.
Qed.

Lemma map_delete_NoDup (m : list (K * V)) k :
  NoDup (map fst m) -> NoDup (map fst (map_delete K_eq_dec m k)).
Proof.
  unfold map_delete. induction m as [|[k0 v0] m IH]; [intros; constructor|].
  cbn [map fst filter]. intros H. inversion H as [|? ? Hn Hr]; subst.
  destruct (negb (eqb K_eq_dec k k0)); [|exact (IH Hr)].
  cbn [map fst]. constructor; [|exact (IH Hr)].
  intros Hin. apply Hn. apply in_map_iff in Hin. destruct Hin as [kv [E Hkv]].
  apply filter_In in Hkv. apply in_map_iff. exists kv. tauto.
Qed.

Lemma map_delete_Forall (P : K * V -> Prop) (m : list (K * V)) k :
  Forall P m -> Forall P (map_delete K_eq_dec m k).
Proof.
  intros H. apply Forall_forall. intros kv Hkv. apply filter_In in Hkv.
  rewrite Forall_forall in H. apply H. tauto.
Qed.

Lemma fold_left_pointwise {A B : Type} (f g : A -> B -> A) l :
  (forall a b, f a b = g a b) -> forall a, fold_left f l a = fold_left g l a.
Proof.
  intros H. induction l as [|b l IH]; intros a; cbn [fold_left]; [reflexivity|].
  rewrite H. apply IH.
Qed.

Lemma diffMaps_filter (before after : list (K * V)) :
  diffMaps K_eq_dec before after
  = (map snd (filter (fun kv => negb (map_has K_eq_dec after (fst kv))) before),
     map snd (filter (fun kv => negb (map_has K_eq_dec before (fst kv))) after)).
Proof.
  unfold diffMaps. f_equal.
  - transitivity (fold_left (fun acc kv => if negb (map_has K_eq_dec after (fst kv))
                                           then acc ++ [snd kv] else acc) before []).
    + apply fold_left_pointwise. intros acc [k v]. reflexivity.
    + exact (fold_push_filter (fun kv => negb (map_has K_eq_dec after (fst kv))) snd before []).
  - transitivity (fold_left (fun acc kv => if negb (map_has K_eq_dec before (fst kv))
                                           then acc ++ [snd kv] else acc) after []).
    + apply fold_left_pointwise. intros acc [k v]. reflexivity.
    + exact (fold_push_filter (fun kv => negb (map_has K_eq_dec before (fst kv))) snd after []).
Qed.

End MapFacts.

(** X22: [diffMaps] compares keys and reports values.  A value is
    reported as removed exactly when it is stored in [before] under a key
    that [after] does not have, and as added exactly when it is stored in
    [after] under a key that [before] does not have. *)
Theorem diffMaps_membership (K V : Type) (K_eq_dec : forall x y : K, {x = y} + {x <> y})
    (before after : list (K * V)) (v : V) :
  let d := Collections.diffMaps K_eq_dec before after in
  (In v (fst d) <-> exists k, In (k, v) before /\ ~ In k (map fst after))
  /\ (In v (snd d) <-> exists k, In (k, v) after /\ ~ In k (map fst before)).
Proof.
  cbv zeta. rewrite diffMaps_filter. cbn [fst snd]. rewrite !in_map_iff. split.
  - split.
    + intros [[k v'] [E H]]. cbn [snd] in E. subst v'. apply filter_In in H.
      destruct H as [Hin Hn]. exists k. split; [exact Hin|].
      cbn [fst] in Hn. apply negb_true_iff in Hn. intros Hk.
      apply (map_has_In K_eq_dec) in Hk. congruence.
    + intros [k [Hin Hn]]. exists (k, v). split; [reflexivity|].
      apply filter_In. split; [exact Hin|]. cbn [fst]. apply negb_true_iff.
      destruct (Collections.map_has K_eq_dec after k) eqn:E; [|reflexivity].
      apply (map_has_In K_eq_dec) in E. contradiction.
  - split.
    + intros [[k v'] [E H]]. cbn [snd] in E. subst v'. apply filter_In in H.
      destruct H as [Hin Hn]. exists k. split; [exact Hin|].
      cbn [fst] in Hn. apply negb_true_iff in Hn. intros Hk.
      apply (map_has_In K_eq_dec) in Hk. congruence.
    + intros [k [Hin Hn]]. exists (k, v). split; [reflexivity|].
      apply filter_In. split; [exact Hin|]. cbn [fst]. apply negb_true_iff.
      destruct (Collections.map_has K_eq_dec before k) eqn:E; [|reflexivity].
      apply (map_has_In K_eq_dec) in E. contradiction.
Qed.

(** X23: [diffMaps] does not see a change of value.  Between two maps
    with the same keys it reports nothing, whatever the values stored
    under the keys are. *)
Theorem diffMaps_same_keys (K V : Type) (K_eq_dec : forall x y : K, {x = y} + {x <> y})
    (before after : list (K * V))
    (Hkeys : forall k, In k (map fst before) <-> In k (map fst after)) :
  Collections.diffMaps K_eq_dec before after = ([], []).
Proof.
  rewrite diffMaps_filter. f_equal.
  - rewrite filter_none; [reflexivity|]. intros [k v] Hin. cbn [fst].
    apply negb_false_iff. apply (map_has_In K_eq_dec). apply Hkeys.
    apply in_map_iff. exists (k, v). split; [reflexivity|exact Hin].
  - rewrite filter_none; [reflexivity|]. intros [k v] Hin. cbn [fst].
    apply negb_false_iff. apply (map_has_In K_eq_dec). apply Hkeys.
    apply in_map_iff. exists (k, v). split; [reflexivity|exact Hin].
Qed.

Lemma diffMaps_same_keys_witness :
  (forall k, In k (map fst [(1, $"old"); (2, $"kept")])
             <-> In k (map fst [(2, $"kept"); (1, $"new")]))
  /\ Collections.diffMaps Z.eq_dec [(1, $"old"); (2, $"kept")] [(2, $"kept"); (1, $"new")]
     = ([], []).
Proof.
  assert (H : forall k, In k (map fst [(1, $"old"); (2, $"kept")])
                        <-> In k (map fst [(2, $"kept"); (1, $"new")])).
  { intros k. cbn [map fst In]. tauto. }
  split; [exact H|].
  apply (diffMaps_same_keys Z str Z.eq_dec [(1, $"old"); (2, $"kept")]
           [(2, $"kept"); (1, $"new")] H).
Defined.

Section SetMapFacts.
Import Collections.
Context {K V : Type}
        (K_eq_dec : forall x y : K, {x = y} + {x <> y})
        (V_eq_dec : forall x y : V, {x = y} + {x <> y}).

(** The values that a key holds. *)
Definition valuesAt (m : list (K * list V)) (k : K) : list V :=
  match map_get K_eq_dec m k with Some values => values | None => [] end.

(** [v] is stored under [k]. *)
Definition contains (m : list (K * list V)) (k : K) (v : V) : bool :=
  set_has V_eq_dec (valuesAt m k) v.

(** Distinct keys, and under each key a set that is not empty. *)
Definition wellFormed (m : list (K * list V)) : Prop :=
  NoDup (map fst m) /\ Forall (fun kv => snd kv <> [] /\ NoDup (snd kv)) m.

Lemma add_set (m : list (K * list V)) k v :
  SetMap.add K_eq_dec V_eq_dec m k v
  = map_set K_eq_dec m k (set_add V_eq_dec (valuesAt m k) v).
Proof.
  unfold SetMap.add, valuesAt. destruct (map_get K_eq_dec m k); [reflexivity|].
  cbv zeta. apply map_set_set.
Qed.

Lemma valuesAt_add (m : list (K * list V)) k v k' :
  valuesAt (SetMap.add K_eq_dec V_eq_dec m k v) k'
  = if eqb K_eq_dec k k' then set_add V_eq_dec (valuesAt m k) v else valuesAt m k'.
Proof.
  rewrite add_set. unfold valuesAt at 1. destruct (eqb K_eq_dec k k') eqn:E.
  - apply eqb_eq in E. subst k'. rewrite map_get_set_same. reflexivity.
  - apply eqb_neq in E. rewrite (map_get_set_other K_eq_dec m k k' _ E). reflexivity.
Qed.

Lemma valuesAt_delete (m : list (K * list V)) k v k' :
  valuesAt (SetMap.delete K_eq_dec V_eq_dec m k v) k'
  = if eqb K_eq_dec k k' then set_delete V_eq_dec (valuesAt m k) v else valuesAt m k'.
Proof.
  unfold SetMap.delete. destruct (map_get K_eq_dec m k) as [vs|] eqn:G.
  - cbv zeta. unfold valuesAt at 2. rewrite G.
    destruct (set_delete V_eq_dec vs v) as [|x r] eqn:D; cbn [List.length Nat.eqb].
    + unfold valuesAt at 1. rewrite map_delete_set, map_get_delete.
      destruct (eqb K_eq_dec k k'); reflexivity.
    + unfold valuesAt at 1. destruct (eqb K_eq_dec k k') eqn:E.
      * apply eqb_eq in E. subst k'. rewrite map_get_set_same. reflexivity.
      * apply eqb_neq in E. rewrite (map_get_set_other K_eq_dec m k k' _ E). reflexivity.
  - destruct (eqb K_eq_dec k k') eqn:E; [|reflexivity].
    apply eqb_eq in E. subst k'. unfold valuesAt. rewrite G. reflexivity.
Qed.

Lemma wellFormed_valuesAt (m : list (K * list V)) k :
  wellFormed m -> NoDup (valuesAt m k).
Proof.
  intros [_ H]. unfold valuesAt. destruct (map_get K_eq_dec m k) as [vs|] eqn:G;
    [|constructor].
  apply map_get_In in G. rewrite Forall_forall in H. exact (proj2 (H _ G)).
Qed.

Lemma wellFormed_stored (m : list (K * list V)) k vs :
  wellFormed m -> map_get K_eq_dec m k = Some vs -> vs <> [].
Proof.
  intros [_ H] G. apply map_get_In in G. rewrite Forall_forall in H. exact (proj1 (H _ G)).
Qed.

Lemma add_wellFormed (m : list (K * list V)) k v :
  wellFormed m -> wellFormed (SetMap.add K_eq_dec V_eq_dec m k v).
Proof.
  intros W. rewrite add_set. split.
  - apply map_set_NoDup. exact (proj1 W).
  - apply map_set_Forall; [exact (proj2 W)|]. cbn [snd]. split.
    + apply set_add_nonempty.
    + apply set_add_NoDup. apply wellFormed_valuesAt. exact W.
Qed.

Lemma delete_wellFormed (m : list (K * list V)) k v :
  wellFormed m -> wellFormed (SetMap.delete K_eq_dec V_eq_dec m k v).
Proof.
  intros W. unfold SetMap.delete. destruct (map_get K_eq_dec m k) as [vs|] eqn:G; [|exact W].
  cbv zeta. destruct (set_delete V_eq_dec vs v) as [|x r] eqn:D; cbn [List.length Nat.eqb].
  - rewrite map_delete_set. split.
    + apply map_delete_NoDup. exact (proj1 W).
    + apply map_delete_Forall. exact (proj2 W).
  - split.
    + apply map_set_NoDup. exact (proj1 W).
    + apply map_set_Forall; [exact (proj2 W)|]. cbn [snd]. split; [discriminate|].
      rewrite <- D. apply set_delete_NoDup.
      pose proof (wellFormed_valuesAt m k W) as N. unfold valuesAt in N.
      rewrite G in N. exact N.
Qed.


End SetMapFacts.

(** X24: a set map never stores an empty set.  After any sequence of
    [add] and [delete] calls on a new set map, the keys of the map are
    distinct and every key holds a set that is not empty and has no
    repeated value. *)
Theorem SetMap_invariant (K V : Type)
    (K_eq_dec : forall x y : K, {x = y} + {x <> y})
    (V_eq_dec : forall x y : V, {x = y} + {x <> y})
    (calls : list (Collections.SetMap.call (K:=K) (V:=V))) :
  wellFormed (Collections.SetMap.run K_eq_dec V_eq_dec calls).
Proof.
  unfold Collections.SetMap.run.
  assert (H : forall m, wellFormed m ->
                wellFormed (fold_left (Collections.SetMap.perform K_eq_dec V_eq_dec) calls m)).
  { induction calls as [|c calls IH]; intros m W; cbn [fold_left]; [exact W|].
    apply IH. destruct c as [k v|k v]; cbn [Collections.SetMap.perform].
    - apply add_wellFormed. exact W.
    - apply delete_wellFormed. exact W. }
  apply H. split; constructor.
Qed.

(** X25: what [add] and [delete] change.  After [add(key, value)] the
    pairs stored are those stored before and the pair added; after
    [delete(key, value)] they are those stored before other than the pair
    deleted.  No other key and no other value is touched. *)
Theorem SetMap_contains (K V : Type)
    (K_eq_dec : forall x y : K, {x = y} + {x <> y})
    (V_eq_dec : forall x y : V, {x = y} + {x <> y})
    (m : list (K * list V)) (key : K) (value : V) (k : K) (v : V) :
  contains K_eq_dec V_eq_dec (Collections.SetMap.add K_eq_dec V_eq_dec m key value) k v
  = (Collections.eqb K_eq_dec key k && Collections.eqb V_eq_dec value v)
    || contains K_eq_dec V_eq_dec m k v
  /\ contains K_eq_dec V_eq_dec (Collections.SetMap.delete K_eq_dec V_eq_dec m key value) k v
     = contains K_eq_dec V_eq_dec m k v
       && negb (Collections.eqb K_eq_dec key k && Collections.eqb V_eq_dec value v).
Proof.
  unfold contains. rewrite valuesAt_add, valuesAt_delete.
  destruct (Collections.eqb K_eq_dec key k) eqn:E; cbn [andb orb negb].
  - apply eqb_eq in E. subst k. split; [apply set_has_add|apply set_has_delete].
  - rewrite andb_true_r. split; reflexivity.
Qed.

(** X26: [delete] undoes [add].  On a map that stores no empty set,
    adding a pair that is not stored and deleting it again gives the map
    back as it was, the order of its keys and values included. *)
Theorem SetMap_add_delete (K V : Type)
    (K_eq_dec : forall x y : K, {x = y} + {x <> y})
    (V_eq_dec : forall x y : V, {x = y} + {x <> y})
    (m : list (K * list V)) (key : K) (value : V)
    (Hwf : wellFormed m)
    (Hnew : contains K_eq_dec V_eq_dec m key value = false) :
  Collections.SetMap.delete K_eq_dec V_eq_dec
    (Collections.SetMap.add K_eq_dec V_eq_dec m key value) key value = m.
Proof.
  rewrite add_set. unfold Collections.SetMap.delete. rewrite map_get_set_same. cbv zeta.
  unfold contains in Hnew. unfold Collections.set_add. rewrite Hnew.
  rewrite (set_delete_fresh V_eq_dec _ _ Hnew). rewrite map_set_set.
  unfold valuesAt in *. destruct (Collections.map_get K_eq_dec m key) as [vs|] eqn:G.
  - pose proof (wellFormed_stored K_eq_dec m key vs Hwf G) as Hne.
    destruct vs as [|x r]; [congruence|]. cbn [List.length Nat.eqb].
    apply map_set_get_id. exact G.
  - cbn [List.length Nat.eqb]. rewrite map_delete_set. apply map_delete_absent. exact G.
Qed.

Lemma SetMap_add_delete_witness :
  let m := [(1, [$"a"; $"b"]); (2, [$"c"])] in
  Collections.SetMap.delete Z.eq_dec (list_eq_dec ascii_dec)
    (Collections.SetMap.add Z.eq_dec (list_eq_dec ascii_dec) m 1 $"c") 1 $"c" = m
  /\ Collections.SetMap.delete Z.eq_dec (list_eq_dec ascii_dec)
       (Collections.SetMap.add Z.eq_dec (list_eq_dec ascii_dec) m 3 $"a") 3 $"a" = m.
Proof.
  assert (W : wellFormed [(1, [$"a"; $"b"]); (2, [$"c"])]).
  { split.
    - cbn [map fst]. repeat constructor; cbn [In]; intros H; intuition discriminate.
    - repeat constructor; cbn [snd In]; try discriminate; intros H; intuition discriminate. }
  split.
  - apply (SetMap_add_delete Z str Z.eq_dec (list_eq_dec ascii_dec)
             [(1, [$"a"; $"b"]); (2, [$"c"])] 1 $"c" W). reflexivity.
  - apply (SetMap_add_delete Z str Z.eq_dec (list_eq_dec ascii_dec)
             [(1, [$"a"; $"b"]); (2, [$"c"])] 3 $"a" W). reflexivity.
Defined.



Section DictionaryFacts.
Import Collections.

Lemma objGet_objSet {V : Type} (o : list (str * V)) k k' v :
  objGet (objSet o k v) k' = if str_eqb k k' then Some v else objGet o k'.
Proof.
  destruct (str_eqb k k') eqn:E.
  - apply str_eqb_eq in E. subst k'. apply objGet_objSet_same.
  - apply str_eqb_neq in E. apply objGet_objSet_other. congruence.
Qed.

(** One turn of the loop of [groupBy]. *)
Definition groupStep {V : Type} (groupFn : V -> str)
    (result : list (str * list V)) (element : V) : list (str * list V) :=
  objSet result (groupFn element)
    ((match objGet result (groupFn element) with Some t => t | None => [] end)
     ++ [element]).

Lemma groupBy_steps {V : Type} (data : list V) (groupFn : V -> str) :
  groupBy data groupFn = fold_left (groupStep groupFn) data [].
Proof.
  unfold groupBy. apply fold_left_pointwise. intros result element.
  unfold groupStep. cbv zeta. destruct (objGet result (groupFn element)); [reflexivity|].
  apply objSet_objSet.
Qed.

Lemma groupSteps_lookup {V : Type} (groupFn : V -> str) (k : str) (data : list V) :
  forall result,
    objGet (fold_left (groupStep groupFn) data result) k
    = match objGet result k, filter (fun e => str_eqb (groupFn e) k) data with
      | Some t, g => Some (t ++ g)
      | None, [] => None
      | None, g => Some g
      end.
Proof.
  induction data as [|e data IH]; intros result; cbn [fold_left filter].
  - destruct (objGet result k); [rewrite app_nil_r|]; reflexivity.
  - rewrite IH. unfold groupStep. rewrite objGet_objSet.
    destruct (str_eqb (groupFn e) k) eqn:E.
    + apply str_eqb_eq in E. rewrite E.
      destruct (objGet result k); cbn [app]; [rewrite <- app_assoc|]; reflexivity.
    + reflexivity.
Qed.

Lemma fromMap_steps {T : Type} (entries : list (str * T)) : forall result,
  (forall k, In k (map fst entries) -> objGet result k = None) ->
  NoDup (map fst entries) ->
  fold_left (fun result '(key, value) => objSet result key value) entries result
  = result ++ entries.
Proof.
  induction entries as [|[k v] entries IH]; intros result Hfresh Hnd; cbn [fold_left].
  - rewrite app_nil_r. reflexivity.
  - cbn [map fst] in Hfresh, Hnd. inversion Hnd as [|? ? Hn Hr]; subst.
    assert (E : objSet result k v = result ++ [(k, v)]).
    { specialize (Hfresh k (or_introl eq_refl)). clear -Hfresh.
      unfold objGet in Hfresh. induction result as [|[k0 v0] result IH]; [reflexivity|].
      cbn [objSet find fst app] in *. destruct (str_eqb k0 k); [discriminate|].
      rewrite (IH Hfresh). reflexivity. }
    rewrite E, IH.
    + rewrite <- app_assoc. reflexivity.
    + intros k' Hk'. rewrite <- E, objGet_objSet.
      destruct (str_eqb k k') eqn:Ek.
      * apply str_eqb_eq in Ek. subst k'. contradiction.
      * apply Hfresh. right. exact Hk'.
    + exact Hr.
Qed.

(** The state after the callback has seen the entries of a list one by
    one, its answers not looked at. *)
Definition seen {T S : Type} (callback : str * T -> S -> S * answer)
    (entries : list (str * T)) (s : S) : S :=
  fold_left (fun s entry => fst (callback entry s)) entries s.

(** No answer of the callback over the entries is [false]. *)
Fixpoint goesOn {T S : Type} (callback : str * T -> S -> S * answer)
    (entries : list (str * T)) (s : S) : bool :=
  match entries with
  | [] => true
  | entry :: rest =>
      match callback entry s with
      | (_, IsFalse) => false
      | (s', Other) => goesOn callback rest s'
      end
  end.

Lemma forEach_goesOn {T S : Type} (callback : str * T -> S -> S * answer)
    (pre post : list (str * T)) : forall s,
  goesOn callback pre s = true ->
  forEach (pre ++ post) callback s = forEach post callback (seen callback pre s).
Proof.
  induction pre as [|e pre IH]; intros s H; cbn [app forEach seen fold_left]; [reflexivity|].
  cbn [goesOn] in H. destruct (callback e s) as [s' [|]] eqn:C; [discriminate|].
  cbn [fst]. apply IH. exact H.
Qed.

End DictionaryFacts.

(** X28: the groups of [groupBy].  Under a key the result holds the
    elements of the data that the group function sends to that key, in
    the order of the data; a key that no element is sent to is absent, so
    no group is empty. *)
Theorem groupBy_groups (V : Type) (data : list V) (groupFn : V -> str) (key : str) :
  objGet (Collections.groupBy data groupFn) key
  = match filter (fun e => str_eqb (groupFn e) key) data with
    | [] => None
    | group => Some group
    end.
Proof.
  rewrite groupBy_steps, groupSteps_lookup. reflexivity.
Qed.

(** X29: [fromMap] copies a map.  For a map with distinct keys, a key
    has in the object the value it has in the map, and a key that the map
    does not have is not in the object; without a map the object is
    empty. *)
Theorem fromMap_copies (T : Type) (entries : list (str * T))
    (Hkeys : NoDup (map fst entries)) :
  (forall key, objGet (Collections.fromMap (Some entries)) key
               = Collections.map_get (list_eq_dec ascii_dec) entries key)
  /\ Collections.fromMap (@None (list (str * T))) = [].
Proof.
  assert (E : Collections.fromMap (Some entries) = entries).
  { unfold Collections.fromMap.
    rewrite (fromMap_steps entries [] (fun k _ => eq_refl) Hkeys). reflexivity. }
  split; [|reflexivity].
  intros key. rewrite E. unfold objGet, Collections.map_get. f_equal.
  clear. induction entries as [|[k v] entries IH]; [reflexivity|].
  cbn [find fst]. unfold str_eqb, Collections.eqb.
  destruct (list_eq_dec ascii_dec k key), (list_eq_dec ascii_dec key k);
    try congruence. exact IH.
Qed.

Lemma fromMap_copies_witness :
  let entries := [($"b", 2); ($"a", 1)] in
  NoDup (map fst entries)
  /\ (forall key, objGet (Collections.fromMap (Some entries)) key
                  = Collections.map_get (list_eq_dec ascii_dec) entries key)
  /\ Collections.fromMap (@None (list (str * Z))) = [].
Proof.
  cbv zeta.
  assert (H : NoDup (map fst [($"b", 2); ($"a", 1)])).
  { cbn [map fst]. repeat constructor; cbn [In]; intros H; intuition discriminate. }
  split; [exact H|].
  apply (fromMap_copies Z [($"b", 2); ($"a", 1)] H).
Defined.

(** X30: [forEach] stops at the first [false].  When the callback
    answers [false] on an entry and on none before it, [forEach] ends in
    the state that the callback leaves on that entry: the entries after it
    are not visited.  Over entries on which the callback never answers
    [false], all of them are visited in order. *)
Theorem forEach_stops_at_false (T S : Type) (callback : str * T -> S -> S * Collections.answer)
    (pre post : list (str * T)) (entry : str * T) (s : S)
    (Hpre : goesOn callback pre s = true)
    (Hstop : snd (callback entry (seen callback pre s)) = Collections.IsFalse) :
  Collections.forEach (pre ++ entry :: post) callback s
  = fst (callback entry (seen callback pre s))
  /\ Collections.forEach pre callback s = seen callback pre s.
Proof.
  split.
  - rewrite (forEach_goesOn callback pre (entry :: post) s Hpre).
    cbn [Collections.forEach].
    destruct (callback entry (seen callback pre s)) as [s' a]. cbn [snd fst] in *.
    subst a. reflexivity.
  - rewrite <- (app_nil_r pre) at 1.
    rewrite (forEach_goesOn callback pre [] s Hpre). reflexivity.
Qed.

Lemma forEach_stops_at_false_witness :
  let callback := fun (e : str * Z) (acc : list str) =>
                    (acc ++ [fst e],
                     if snd e =? 0 then Collections.IsFalse else Collections.Other) in
  let pre := [($"a", 1); ($"b", 2)] in
  Collections.forEach (pre ++ ($"c", 0) :: [($"d", 4)]) callback []
  = fst (callback ($"c", 0) (seen callback pre []))
  /\ Collections.forEach pre callback [] = seen callback pre [].
Proof.
  cbv zeta.
  apply (forEach_stops_at_false Z (list str)
           (fun (e : str * Z) (acc : list str) =>
              (acc ++ [fst e],
               if snd e =? 0 then Collections.IsFalse else Collections.Other))
           [($"a", 1); ($"b", 2)] [($"d", 4)] ($"c", 0) []).
  - reflexivity.
  - reflexivity.
Defined.

Example forEach_run :
  Collections.forEach [($"a", 1); ($"b", 2); ($"c", 0); ($"d", 4)]
    (fun (e : str * Z) (acc : list str) =>
       (acc ++ [fst e], if snd e =? 0 then Collections.IsFalse else Collections.Other)) []
  = [$"a"; $"b"; $"c"].
Proof. reflexivity. Qed.
